(** * Hierarchical arc-length continuation of [serial_KLShell_Roof.cpp]

    A shallow embedding of the continuation/refinement driver that makes up
    the core of [main] in
    [src/extensions/gsXBraid/examples/serial_KLShell_Roof.cpp] (lines
    336-543): the uniform walk on level 0, the uniformly built levels
    [1..maxLevel] with their error estimate, and the queue-driven
    refinement loop.

    Conventions.
    - [real_t] is idealised as the real numbers [R]; [gsVector<real_t>] is a
      list of reals with the Euclidean norm.
    - [gsArcLengthIterator] lives outside the two source files; it enters
      as an interface (class [ArcLengthIterator]) and every statement about
      [main] holds for all its implementations.
    - the [index_t] values of the driver (levels, indices, counts) are
      natural numbers; the [size_t] values [size()-1] of the loop bound at
      line 411 and of the two guards of the lazy allocation are written
      out with their wrap-around.
    - [points] keeps pointers into the levels of [solutions]; an entry is
      modelled as the level, the size the level had when the pointer was
      taken, and the index of the element.
    - [std::vector::at] out of range raises [std::out_of_range]
      ([OutOfRange]); [operator[]] out of range and an Eigen difference of
      vectors of different sizes are undefined behaviour ([Undefined]);
      [GISMO_ERROR] raises ([NotConverged]).  None of them is caught, so
      each ends the run; the model keeps the store as it was at that moment.

    Beside the driver the development embeds the residual handed to the
    iterator (lines 288-296), [addClamping], the control net of
    [FrustrumDomain], the two functions that write the step output file,
    and [gsAssemblerOptions] of [src/src/gsAssembler/gsAssemblerOptions.h]
    with its two counting functions.  The output functions take the
    outcome of [file.open] as an argument.  In the counting functions the
    [double] fields are rational numbers, so that the counts can be
    computed, and [index_t] is the 32-bit [int] it is defined as, with
    products that wrap around. *)

From Stdlib Require Import Reals Lra ZArith Lia QArith Ascii DecimalString.
From stdpp Require Import base list strings gmap.

Open Scope R_scope.

(** ** Vectors and solution points *)

Abbreviation gsVector := (list R) (only parsing).

(** [setZero(n,1)] *)
Definition setZero (n : nat) : gsVector := repeat 0 n.

(** Eigen's [a - b]; only defined for operands of one size. *)
Fixpoint vsub (a b : gsVector) : option gsVector :=
  match a, b with
  | [], [] => Some []
  | x :: a', y :: b' =>
      match vsub a' b' with
      | Some d => Some ((x - y) :: d)
      | None => None
      end
  | _, _ => None
  end.

Definition squaredNorm (v : gsVector) : R :=
  foldr (fun x acc => x * x + acc) 0 v.

(** Eigen's [.norm()] *)
Definition norm (v : gsVector) : R := sqrt (squaredNorm v).

(** [std::pair<gsVector<real_t>,real_t>] *)
Abbreviation point := (gsVector * R)%type (only parsing).

(** [std::tuple<index_t,index_t,index_t>]: level to compute on, level of the
    start point, index of the start point (line 361). *)
Abbreviation task := (nat * nat * nat)%type (only parsing).

(** The expression of lines 437 and 534, for a coarse point and the
    iterator's current solution [(Uf, Lf)]. *)
Definition errorEstimate (Force : gsVector) (coarse : point)
    (Uf : gsVector) (Lf : R) (dLi : R) : option R :=
  match vsub coarse.1 Uf with
  | Some d => Some ((Rabs (coarse.2 - Lf) * norm Force + norm d) / dLi)
  | None => None
  end.

(** [real_t ptol = 0.05;] (line 392) *)
Definition ptol : R := 5 / 100.

(** ** The continuation stepper, as [main] uses it *)

Class ArcLengthIterator (AL : Type) : Type := {
  setIndicator : R -> AL -> AL;
  setLength : R -> AL -> AL;
  setSolution : gsVector -> R -> AL -> AL;
  resetStep : AL -> AL;
  setInitialGuess : gsVector -> R -> AL -> AL;
  step : AL -> AL;
  converged : AL -> bool;
  solutionU : AL -> gsVector;
  solutionL : AL -> R
}.

(** ** Program state and outcomes *)

Inductive failure : Type :=
| NotConverged   (* GISMO_ERROR, lines 385, 431, 525 *)
| OutOfRange     (* std::out_of_range thrown by [at] *)
| Undefined.     (* [operator[]] past the end, Eigen size mismatch *)

Inductive result (S A : Type) : Type :=
| Ok (a : A)
| Fatal (f : failure) (s : S).
Arguments Ok {S A} a.
Arguments Fatal {S A} f s.

Definition bind {S A B : Type} (r : result S A) (k : A -> result S B)
    : result S B :=
  match r with
  | Ok a => k a
  | Fatal f s => Fatal f s
  end.

Notation "'do' x <- r ; k" := (bind r (fun x => k))
  (at level 10, x pattern, r at level 100, k at level 200,
   format "'[v' 'do'  x  <-  r ; '/' k ']'").

(** [n - 1] computed in [size_t], for a vector size or a non-negative
    index [n], both below 2^64: the subtraction wraps at 0. *)
Definition pred_size_t (n : nat) : Z :=
  match n with
  | O => (2 ^ 64 - 1)%Z
  | S _ => (Z.of_nat n - 1)%Z
  end.

(** [v.resize(n)] for a vector of reals or of vectors: cut or pad with
    value-initialised elements. *)
Definition resize {A : Type} (d : A) (n : nat) (v : list A) : list A :=
  take n v ++ repeat d (n - length v).

(** The address of a stored point, as [points] keeps it (a pointer to
    the state vector and one to the load factor of the same element): the
    level, the number of points the level held when the address was
    taken, and the index.  A later [push_back] to that level may move its
    elements to a new buffer, and the address then no longer leads to the
    point; a [resize] of or [push_back] to [solutions] moves the levels,
    not their elements. *)
Abbreviation address := (nat * nat * nat)%type (only parsing).

Section Main.

Context {AL : Type} `{ArcLengthIterator AL}.

Record state : Type := State {
  solutions : list (list point);
  points : list (nat * address);
  refIdx : list task;
  errors : list (list R);
  arcLength : AL
}.

Definition set_solutions (s : list (list point)) (st : state) : state :=
  State s (points st) (refIdx st) (errors st) (arcLength st).
Definition set_points (p : list (nat * address)) (st : state) : state :=
  State (solutions st) p (refIdx st) (errors st) (arcLength st).
Definition set_refIdx (q : list task) (st : state) : state :=
  State (solutions st) (points st) q (errors st) (arcLength st).
Definition set_errors (e : list (list R)) (st : state) : state :=
  State (solutions st) (points st) (refIdx st) e (arcLength st).
Definition set_arcLength (a : AL) (st : state) : state :=
  State (solutions st) (points st) (refIdx st) (errors st) a.

(** [v.at(i)] *)
Definition at_ {A : Type} (st : state) (v : list A) (i : nat)
    : result state A :=
  match v !! i with
  | Some x => Ok x
  | None => Fatal OutOfRange st
  end.

(** [v[i]] *)
Definition subscript {A : Type} (st : state) (v : list A) (i : nat)
    : result state A :=
  match v !! i with
  | Some x => Ok x
  | None => Fatal Undefined st
  end.

(** [solutions[l].push_back(pt)] *)
Definition push_solution (l : nat) (pt : point) (st : state)
    : result state state :=
  do lv <- subscript st (solutions st) l;
  Ok (set_solutions (<[l := lv ++ [pt]]> (solutions st)) st).

(** [arcLength.step()], the convergence test and the [push_back] of the
    new point to [solutions[l]] (lines 381-388 and 427-434; 521-529). *)
Definition stepAndStore (l : nat) (st : state) : result state state :=
  let st1 := set_arcLength (step (arcLength st)) st in
  if converged (arcLength st1) then
    push_solution l (solutionU (arcLength st1), solutionL (arcLength st1)) st1
  else Fatal NotConverged st1.

(** Lines 377-389: the [stepi] uniform steps of level 0. *)
Fixpoint level0Steps (k : nat) (st : state) : result state state :=
  match k with
  | O => Ok st
  | S k' => do st1 <- stepAndStore 0 st; level0Steps k' st1
  end.

(** Lines 437 and 534: [errors[le].at(p) = (... coarse ...) / dLi]. *)
Definition storeError (Force : gsVector) (dLi : R) (le p : nat)
    (coarse : point) (st : state) : result state state :=
  match errorEstimate Force coarse (solutionU (arcLength st))
          (solutionL (arcLength st)) dLi with
  | None => Fatal Undefined st
  | Some e =>
      do row <- subscript st (errors st) le;
      do _ <- at_ st row p;
      Ok (set_errors (<[le := <[p := e]> row]> (errors st)) st)
  end.

(** Lines 412-449: one interval [p] of level [level-1], walked with two
    steps of the length of [level]; [main] calls it with [level >= 1].
    After the two [push_back]s [solutions[level]] has at least two points,
    so [size()-2] does not wrap. *)
Definition uniformInterval (Force : gsVector) (dLi : R) (level p : nat)
    (st : state) : result state state :=
  do prev <- subscript st (solutions st) (level - 1);
  do old <- at_ st prev p;
  let st := set_arcLength
              (resetStep (setSolution old.1 old.2 (arcLength st))) st in
  do guess <- at_ st prev (p + 1);
  let st := set_arcLength
              (setInitialGuess guess.1 guess.2 (arcLength st)) st in
  do st <- stepAndStore level st;
  do st <- stepAndStore level st;
  do prev <- subscript st (solutions st) (level - 1);
  do coarse <- at_ st prev (p + 1);
  do st <- storeError Force dLi (level - 1) p coarse st;
  do row <- subscript st (errors st) (level - 1);
  do e <- at_ st row p;
  if Rgt_dec e ptol then
    do cur <- subscript st (solutions st) level;
    Ok (set_refIdx (refIdx st ++ [(level + 1, level - 1, p);
                                  (level + 1, level, length cur - 2)])%nat st)
  else Ok st.

(** The [for p] loop of line 411, [n] intervals from [p] on. *)
Fixpoint intervalLoop (Force : gsVector) (dLi : R) (level n p : nat)
    (st : state) : result state state :=
  match n with
  | O => Ok st
  | S n' =>
      do st1 <- uniformInterval Force dLi level p st;
      intervalLoop Force dLi level n' (S p) st1
  end.

(** Lines 396-461: the body of the [for level] loop, [level >= 1].
    [solutions[level-1]] is not written to inside the [for p] loop, so its
    bound [size()-1], an unsigned value, is taken once. *)
Definition uniformLevel (U0 : gsVector) (L0 : R) (Force : gsVector)
    (dL : R) (level : nat) (st : state) : result state state :=
  do prev <- subscript st (solutions st) (level - 1);
  do row <- subscript st (errors st) (level - 1);
  let st := set_errors
              (<[(level - 1)%nat := resize 0 (length prev) row]> (errors st)) st in
  do st <- push_solution level (U0, L0) st;
  let dLi := dL / 2 ^ level in
  let st := set_arcLength (setLength dLi (arcLength st)) st in
  do st <- intervalLoop Force dLi level
             (Z.to_nat (pred_size_t (length prev))) 0 st;
  Ok (set_solutions (solutions st ++ [[]]) st).

(** The [for level] loop of line 394, [n] levels from [level] on. *)
Fixpoint uniformLevels (U0 : gsVector) (L0 : R) (Force : gsVector)
    (dL : R) (n level : nat) (st : state) : result state state :=
  match n with
  | O => Ok st
  | S n' =>
      do st1 <- uniformLevel U0 L0 Force dL level st;
      uniformLevels U0 L0 Force dL n' (S level) st1
  end.

(** Lines 465-467: the address of every stored point of levels
    [0..maxLevel] is recorded, each level at the size it has by then.
    [solutions] has more than [maxLevel] levels from its construction
    on. *)
Definition storePoints (maxLevel : nat) (st : state) : state :=
  set_points
    (points st ++
     flat_map (fun l =>
                 let n := length (default [] (solutions st !! l)) in
                 (fun p => (l, (l, n, p))) <$> seq 0 n)
              (seq 0 (maxLevel + 1))) st.

(** Lines 521-530: a step of the refinement loop, stored in
    [solutions[level+1]]; then the address of
    [solutions[level+1].at(solutions.size()-1)] is recorded in [points],
    taken from the level as the [push_back] has left it.  [solutions] is
    not empty when that is reached. *)
Definition stepAndRecord (level : nat) (st : state) : result state state :=
  do st <- stepAndStore (level + 1) st;
  do lv <- subscript st (solutions st) (level + 1);
  do _ <- at_ st lv (length (solutions st) - 1);
  Ok (set_points
        (points st ++ [(level + 1, (level + 1, length lv,
                                    length (solutions st) - 1))])%nat
        st).

(** Lines 487-499: [solutions] is resized to [level+1] when
    [solutions.size()-1 < level], [errors] to [level] when
    [errors.size()-1 < level-1]. *)
Definition ensureLevels (level : nat) (st : state) : state :=
  let st :=
    if (pred_size_t (length (solutions st)) <? Z.of_nat level)%Z
    then set_solutions (resize [] (level + 1) (solutions st)) st
    else st in
  if (pred_size_t (length (errors st)) <? pred_size_t level)%Z
  then set_errors (resize [] level (errors st)) st
  else st.

(** The iterator as lines 417-421 and 504-511 prepare it: base point
    [old], [resetStep], initial guess [guess]. *)
Definition prepared (old guess : point) (a : AL) : AL :=
  setInitialGuess guess.1 guess.2 (resetStep (setSolution old.1 old.2 a)).

(** Lines 474-541: the body of the [while] loop for the task [t] at the
    head of [refIdx].  The debug print of line 533 reads again the point
    that line 510 has read; the [if] of line 537 has an empty body. *)
Definition refineTask (Force : gsVector) (dL : R) (t : task) (st : state)
    : result state state :=
  let '(level, reflevel, pindex) := t in
  let st := set_refIdx (tail (refIdx st)) st in
  let st := ensureLevels level st in
  do src <- subscript st (solutions st) reflevel;
  do old <- at_ st src pindex;
  let st := set_arcLength
              (resetStep (setSolution old.1 old.2 (arcLength st))) st in
  do st <- push_solution (level + 1) old st;
  do src <- subscript st (solutions st) reflevel;
  do guess <- at_ st src (pindex + 1);
  let st := set_arcLength
              (setInitialGuess guess.1 guess.2 (arcLength st)) st in
  let dLi := dL / 2 ^ level in
  let st := set_arcLength (setLength dLi (arcLength st)) st in
  do st <- stepAndRecord level st;
  do st <- stepAndRecord level st;
  do cmp <- subscript st (solutions st) level;
  do coarse <- at_ st cmp (pindex + 1);
  do st <- storeError Force dLi level pindex coarse st;
  do row <- subscript st (errors st) level;
  do e <- at_ st row pindex;
  if Rgt_dec e ptol then Ok st else Ok st.

(** Lines 472-543: [while (refIdx.size() != 0)].  The first component
    counts the loop bodies that were entered. *)
Fixpoint refineLoop (Force : gsVector) (dL : R) (fuel : nat) (st : state)
    : nat * option (result state state) :=
  match refIdx st with
  | [] => (O, Some (Ok st))
  | t :: _ =>
      match fuel with
      | O => (O, None)
      | S fuel' =>
          match refineTask Force dL t st with
          | Ok st1 =>
              let r := refineLoop Force dL fuel' st1 in (S r.1, r.2)
          | Fatal f s => (1%nat, Some (Fatal f s))
          end
      end
  end.

(** Lines 358-389: the containers and level 0. *)
Definition level0 (Force : gsVector) (step0 maxLevel : nat) (al : AL)
    : result state state :=
  let U0 := setZero (length Force) in
  let st := State (repeat [] (maxLevel + 1)) [] [] (repeat [] maxLevel)
              (setIndicator 0 al) in
  do st <- push_solution 0 (U0, 0) st;
  level0Steps step0 st.

(** Lines 358-467: everything before the refinement loop. *)
Definition build (Force : gsVector) (dL : R) (step0 maxLevel : nat) (al : AL)
    : result state state :=
  do st <- level0 Force step0 maxLevel al;
  do st <- uniformLevels (setZero (length Force)) 0 Force dL maxLevel 1 st;
  Ok (storePoints maxLevel st).

(** Lines 336-543 of [main]: [dL], [step] and [maxLevel] are the command
    line values, [Force] the assembled load vector and [al] the initialised
    iterator. *)
Definition main (Force : gsVector) (dL : R) (step0 maxLevel : nat) (al : AL)
    : nat * option (result state state) :=
  match build Force dL step0 maxLevel al with
  | Ok st => refineLoop Force dL (length (refIdx st)) st
  | Fatal f s => (O, Some (Fatal f s))
  end.

(** The rounds that the queue [ts] prescribes when it is worked off
    front to back: the tasks of [ts] one after the other, each on the
    state the one before has left, up to the first that ends fatally.
    The first component counts the tasks taken up. *)
Fixpoint inQueueOrder (Force : gsVector) (dL : R) (ts : list task)
    (st : state) : nat * result state state :=
  match ts with
  | [] => (O, Ok st)
  | t :: ts' =>
      match refineTask Force dL t st with
      | Ok st1 =>
          let r := inQueueOrder Force dL ts' st1 in (S r.1, r.2)
      | Fatal f s => (1%nat, Fatal f s)
      end
  end.

(** ** Vocabulary of the statements *)

(** The points stored at level [l]; none when the level does not exist. *)
Definition level_points (st : state) (l : nat) : list point :=
  default [] (solutions st !! l).

(** The entry [errors[l][p]], when it exists. *)
Definition error_at (st : state) (l p : nat) : option R :=
  match errors st !! l with
  | Some row => row !! p
  | None => None
  end.

(** The state in which an operation ended, normally or not. *)
Definition state_of (r : result state state) : state :=
  match r with
  | Ok s => s
  | Fatal _ s => s
  end.

(** Every point stored in [st] is stored in [st'] at the same level and
    index: each level of [st] is a prefix of that level in [st']. *)
Definition extends (st st' : state) : Prop :=
  forall l, level_points st l `prefix_of` level_points st' l.

(** Postconditions of an operation: [Q] on a normal end, [E] on a fatal
    one. *)
Definition post {A : Type} (r : result state A) (Q : A -> Prop)
    (E : failure -> state -> Prop) : Prop :=
  match r with
  | Ok a => Q a
  | Fatal f s => E f s
  end.

(** How a fatal end relates to an earlier state [st0]: the store of [st0]
    is still there, and a [NotConverged] end holds an iterator that reports
    no convergence. *)
Definition halted (st0 : state) (f : failure) (s : state) : Prop :=
  extends st0 s /\ (f = NotConverged -> converged (arcLength s) = false).

(** Every level that holds a point holds [ref] at index 0. *)
Definition heads (ref : point) (st : state) : Prop :=
  forall l pt, level_points st l !! 0%nat = Some pt -> pt = ref.

(** [heads], and level [k] holds a point. *)
Definition rooted (ref : point) (k : nat) (st : state) : Prop :=
  heads ref st /\ level_points st k <> [].

(** [heads], and every level below [k] holds a point. *)
Definition grounded (ref : point) (k : nat) (st : state) : Prop :=
  heads ref st /\ forall l, (l < k)%nat -> level_points st l <> [].

(** The operations of the run that touch the containers. *)
Inductive operation : Type :=
| OpPush (l : nat) (pt : point)         (* a [push_back] on its own *)
| OpStep0                               (* a step of level 0 *)
| OpLevel (U0 : gsVector) (L0 : R) (level : nat)  (* a uniform level *)
| OpInterval (dLi : R) (level p : nat)  (* one interval of a uniform level *)
| OpStorePoints (maxLevel : nat)
| OpRefine (t : task).                  (* a task of the refinement loop *)

Definition perform (Force : gsVector) (dL : R) (op : operation) (st : state)
    : result state state :=
  match op with
  | OpPush l pt => push_solution l pt st
  | OpStep0 => stepAndStore 0 st
  | OpLevel U0 L0 level => uniformLevel U0 L0 Force dL level st
  | OpInterval dLi level p => uniformInterval Force dLi level p st
  | OpStorePoints maxLevel => Ok (storePoints maxLevel st)
  | OpRefine t => refineTask Force dL t st
  end.

(** [later st st']: [st'] is reached from [st] by operations of the run,
    the last of which may have ended fatally. *)
Inductive later (Force : gsVector) (dL : R) : state -> state -> Prop :=
| later_now st : later Force dL st st
| later_op st op st1 st2 :
    perform Force dL op st = Ok st1 -> later Force dL st1 st2 ->
    later Force dL st st2
| later_fatal st op f st1 :
    perform Force dL op st = Fatal f st1 -> later Force dL st st1.

End Main.

Arguments set_solutions {AL} s !st /.
Arguments set_points {AL} p !st /.
Arguments set_refIdx {AL} q !st /.
Arguments set_errors {AL} e !st /.
Arguments set_arcLength {AL} a !st /.

(** ** A scripted iterator

    An implementation of the interface that replays a prepared list of
    step results: the head is the current result, [step] moves on to the
    next one, and the remaining operations leave the script alone. *)

Definition replay : Type := list (bool * point).

#[export] Instance replay_iterator : ArcLengthIterator replay := {
  setIndicator _ a := a;
  setLength _ a := a;
  setSolution _ _ a := a;
  resetStep a := a;
  setInitialGuess _ _ a := a;
  step a := tail a;
  converged a := match a with (c, _) :: _ => c | [] => false end;
  solutionU a := match a with (_, pt) :: _ => pt.1 | [] => [] end;
  solutionL a := match a with (_, pt) :: _ => pt.2 | [] => 0 end
}.

(** A converged step result with state [[0]] and load factor [l]. *)
Definition at_load (l : R) : bool * point := (true, ([0], l)).

(** A script: the initial solution followed by the given load factors. *)
Definition loads (ls : list R) : replay := at_load 0 :: (at_load <$> ls).

(** ** Concrete runs

    All of them use the load vector [[1]], the default [dL = 0.5] and
    scripted step results whose state is [[0]]; only the load factors
    differ. *)

Definition loaded (ls : list R) : list point := (fun l => ([0], l)) <$> ls.

(** The value of lines 437/534 for load factors [lc] (stored) and [lf]
    (iterator) at the arc-length of level [k]. *)
Definition est (lc lf : R) (k : nat) : R :=
  (Rabs (lc - lf) * norm [1] + norm [0 - 0]) / (1 / 2 / 2 ^ k).

(** The entries that lines 465-467 record for a level of [n] points. *)
Definition recorded (l n : nat) : list (nat * address) :=
  (fun p => (l, (l, n, p))) <$> seq 0 n.

(** *** [maxLevel = 3], [step = 1]: the refinement loop runs to its end *)

Definition script3 : replay :=
  loads [1; 1; 2; 3; 1; 0; 2; 0; 3; 0; 1; 0; 0; 0; 2; 0; 1; 0; 2].

(** After line 467. *)
Definition built3 : @state replay := {|
  solutions :=
    [ loaded [0; 1];
      loaded [0; 1; 2];
      loaded [0; 3; 1; 0; 2];
      loaded [0; 0; 3; 0; 1; 0; 0; 0; 2];
      []; []; [] ];
  points := recorded 0 2 ++ recorded 1 3 ++ recorded 2 5 ++ recorded 3 9;
  refIdx := [(2, 0, 0); (2, 1, 1)]%nat;
  errors :=
    [ [est 1 2 1; 0];
      [est 1 1 2; est 2 2 2; 0];
      [est 3 3 3; est 1 1 3; est 0 0 3; est 2 2 3; 0] ];
  arcLength := at_load <$> [2; 0; 1; 0; 2]
|}.

(** After the task [(2,0,0)]. *)
Definition refined3a : @state replay := {|
  solutions :=
    [ loaded [0; 1];
      loaded [0; 1; 2];
      loaded [0; 3; 1; 0; 2];
      loaded [0; 0; 3; 0; 1; 0; 0; 0; 2; 0; 0; 1];
      []; []; [] ];
  points := recorded 0 2 ++ recorded 1 3 ++ recorded 2 5 ++ recorded 3 9
            ++ [(3, (3, 11, 6)); (3, (3, 12, 6))]%nat;
  refIdx := [(2, 1, 1)]%nat;
  errors :=
    [ [est 1 2 1; 0];
      [est 1 1 2; est 2 2 2; 0];
      [est 3 1 2; est 1 1 3; est 0 0 3; est 2 2 3; 0] ];
  arcLength := at_load <$> [1; 0; 2]
|}.

(** After the task [(2,1,1)]. *)
Definition refined3b : @state replay := {|
  solutions :=
    [ loaded [0; 1];
      loaded [0; 1; 2];
      loaded [0; 3; 1; 0; 2];
      loaded [0; 0; 3; 0; 1; 0; 0; 0; 2; 0; 0; 1; 1; 0; 2];
      []; []; [] ];
  points := recorded 0 2 ++ recorded 1 3 ++ recorded 2 5 ++ recorded 3 9
            ++ [(3, (3, 11, 6)); (3, (3, 12, 6));
                (3, (3, 14, 6)); (3, (3, 15, 6))]%nat;
  refIdx := [];
  errors :=
    [ [est 1 2 1; 0];
      [est 1 1 2; est 2 2 2; 0];
      [est 3 1 2; est 1 2 2; est 0 0 3; est 2 2 3; 0] ];
  arcLength := at_load <$> [2]
|}.

(** *** The same uniform phase, followed by a step that does not
    converge *)

Definition script3d : replay :=
  loads [1; 1; 2; 3; 1; 0; 2; 0; 3; 0; 1; 0; 0; 0; 2]
  ++ [(false, ([0], 0))].

(** After line 467. *)
Definition built3d : @state replay := {|
  solutions := solutions built3;
  points := points built3;
  refIdx := refIdx built3;
  errors := errors built3;
  arcLength := [at_load 2; (false, ([0], 0))]
|}.

(** Where the first step of the task [(2,0,0)] does not converge. *)
Definition diverged3 : @state replay := {|
  solutions :=
    [ loaded [0; 1];
      loaded [0; 1; 2];
      loaded [0; 3; 1; 0; 2];
      loaded [0; 0; 3; 0; 1; 0; 0; 0; 2; 0];
      []; []; [] ];
  points := points built3;
  refIdx := [(2, 1, 1)]%nat;
  errors := errors built3;
  arcLength := [(false, ([0], 0))]
|}.

(** *** [maxLevel = 2], [step = 2]: the first task starts at index 1 *)

Definition script2 : replay :=
  loads [1; 2; 0; 1; 0; 3; 0; 0; 0; 1; 0; 0; 0; 3; 0].

Definition built2 : @state replay := {|
  solutions :=
    [ loaded [0; 1; 2];
      loaded [0; 0; 1; 0; 3];
      loaded [0; 0; 0; 0; 1; 0; 0; 0; 3];
      []; [] ];
  points := recorded 0 3 ++ recorded 1 5 ++ recorded 2 9;
  refIdx := [(2, 0, 1); (2, 1, 3)]%nat;
  errors :=
    [ [est 1 1 1; est 2 3 1; 0];
      [est 0 0 2; est 1 1 2; est 0 0 2; est 3 3 2; 0] ];
  arcLength := at_load <$> [3; 0]
|}.

(** Where [at] throws at line 530 in the task [(2,0,1)]. *)
Definition thrown2 : @state replay := {|
  solutions :=
    [ loaded [0; 1; 2];
      loaded [0; 0; 1; 0; 3];
      loaded [0; 0; 0; 0; 1; 0; 0; 0; 3];
      loaded [1; 0];
      [] ];
  points := recorded 0 3 ++ recorded 1 5 ++ recorded 2 9;
  refIdx := [(2, 1, 3)]%nat;
  errors :=
    [ [est 1 1 1; est 2 3 1; 0];
      [est 0 0 2; est 1 1 2; est 0 0 2; est 3 3 2; 0] ];
  arcLength := at_load <$> [0]
|}.

(** *** [maxLevel = 1], [step = 1] *)

Definition script1 : replay := loads [1; 1; 2].

(** Before and after the interval 0 of level 0 (lines 412-449). *)
Definition seeded1 : @state replay := {|
  solutions := [ loaded [0; 1]; loaded [0] ];
  points := [];
  refIdx := [];
  errors := [ [0; 0] ];
  arcLength := at_load <$> [1; 1; 2]
|}.

Definition walked1 : @state replay := {|
  solutions := [ loaded [0; 1]; loaded [0; 1; 2] ];
  points := [];
  refIdx := [(2, 0, 0); (2, 1, 1)]%nat;
  errors := [ [est 1 2 1; 0] ];
  arcLength := at_load <$> [2]
|}.

(** After line 467. *)
Definition built1 : @state replay := {|
  solutions := [ loaded [0; 1]; loaded [0; 1; 2]; [] ];
  points := recorded 0 2 ++ recorded 1 3;
  refIdx := [(2, 0, 0); (2, 1, 1)]%nat;
  errors := [ [est 1 2 1; 0] ];
  arcLength := at_load <$> [2]
|}.

(** Where [solutions[3]] is used at line 507 in the task [(2,0,0)]. *)
Definition undefined1 : @state replay := {|
  solutions := [ loaded [0; 1]; loaded [0; 1; 2]; [] ];
  points := recorded 0 2 ++ recorded 1 3;
  refIdx := [(2, 1, 1)]%nat;
  errors := [ [est 1 2 1; 0]; [] ];
  arcLength := at_load <$> [2]
|}.

(** *** [maxLevel = 0], [step = 10] *)

Definition script0 : replay := loads [1; 2; 3; 4; 5; 6; 7; 8; 9; 10].

Definition walked0 : @state replay := {|
  solutions := [ loaded [0; 1; 2; 3; 4; 5; 6; 7; 8; 9; 10] ];
  points := recorded 0 11;
  refIdx := [];
  errors := [];
  arcLength := at_load <$> [10]
|}.

(** *** A step that does not converge *)

Definition stalled : @state replay := {|
  solutions := [ loaded [0; 1]; loaded [0] ];
  points := [];
  refIdx := [];
  errors := [ [0; 0] ];
  arcLength := [at_load 1; (false, ([7], 9))]
|}.

(** *** [maxLevel = 0], [step = 2], the second step does not converge *)

Definition script_stall : replay :=
  [at_load 0; at_load 1; (false, ([7], 9))].

Definition stalled0 : @state replay := {|
  solutions := [ loaded [0; 1] ];
  points := [];
  refIdx := [];
  errors := [];
  arcLength := [(false, ([7], 9))]
|}.

(** *** An iterator with one degree of freedom that converges as long
    as it has steps left; its state is the number of steps left. *)

#[export] Instance countdown_iterator : ArcLengthIterator nat := {
  setIndicator _ a := a;
  setLength _ a := a;
  setSolution _ _ a := a;
  resetStep a := a;
  setInitialGuess _ _ a := a;
  step a := pred a;
  converged a := negb (a =? 0)%nat;
  solutionU a := [INR a];
  solutionL a := INR a
}.

(** [maxLevel = 0], [step = 2], two steps left of which the second does
    not converge. *)
Definition ran_out : @state nat := {|
  solutions := [ [([0], 0); ([INR 1], INR 1)] ];
  points := [];
  refIdx := [];
  errors := [];
  arcLength := 0%nat
|}.

(** ** Vocabulary for the uniform phase as a whole *)

(** The two tasks that lines 443-444 queue for interval [q] of level
    [level-1] when its entry in [row] exceeds [ptol]. *)
Definition flagged_tasks (row : list R) (level q : nat) : list task :=
  match row !! q with
  | Some e =>
      if Rgt_dec e ptol
      then [(level + 1, level - 1, q); (level + 1, level, 2 * q + 1)]%nat
      else []
  | None => []
  end.

(** The tasks of the first [n] intervals below [level], read from the row
    [errs[level-1]]. *)
Definition level_tasks (errs : list (list R)) (n level : nat) : list task :=
  flat_map (flagged_tasks (default [] (errs !! (level - 1)%nat)) level)
    (seq 0 n).

(** The tasks of the levels [1..m], where level [l] has [step0 * 2^l]
    intervals. *)
Definition queued (step0 : nat) (errs : list (list R)) (m : nat) : list task :=
  flat_map (fun level => level_tasks errs (step0 * 2 ^ (level - 1)) level)
    (seq 1 m).

(** The containers once the levels below [k] are built, for [step0] steps
    on level 0 and [maxLevel + 1] levels allocated at the start. *)
Definition shaped {AL : Type} (step0 maxLevel k : nat) (st : @state AL)
    : Prop :=
  length (solutions st) = (maxLevel + k)%nat /\
  length (errors st) = maxLevel /\
  (forall l, (l < k)%nat ->
             length (level_points st l) = (step0 * 2 ^ l + 1)%nat) /\
  (forall l, (k <= l)%nat -> level_points st l = []) /\
  (forall l, (l + 1 < k)%nat ->
             exists row, errors st !! l = Some row /\
                         length row = (step0 * 2 ^ l + 1)%nat) /\
  refIdx st = queued step0 (errors st) (k - 1).

(** Every stored state vector has [n] entries. *)
Definition sized (n : nat) (sols : list (list point)) : Prop :=
  forall l lv pt, sols !! l = Some lv -> In pt lv -> length pt.1 = n.

(** ** The material data of [main] (lines 111-141)

    A local variable declared without initialiser holds no value until it
    is assigned. *)

Record materialData : Type := {
  thickness : option R;
  Exx : option R;
  Eyy : option R;
  Gxy : option R;
  PoissonRatio : R
}.

Definition materialSetup (composite : bool) (testCase : Z) : materialData := {|
  thickness :=
    if (testCase =? 1)%Z then Some (635 / 100)
    else if (testCase =? 2)%Z then Some (127 / 10)
    else if (testCase =? 3)%Z then Some (1675 / 100)
    else None;
  Exx := Some (if composite then 3300 else 310275 / 100);
  Eyy := if composite then Some 1100 else None;
  Gxy := if composite then Some 660 else None;
  PoissonRatio := if composite then 25 / 100 else 3 / 10
|}.

(** Line 226: the arguments of [gsCompositeMatrix], evaluated in every
    run. *)
Definition compositeMatrixArgs (m : materialData) : option (R * R * R * R * R) :=
  match Exx m, Eyy m, Gxy m with
  | Some exx, Some eyy, Some gxy =>
      Some (exx, eyy, gxy, PoissonRatio m, PoissonRatio m * eyy / exx)
  | _, _, _ => None
  end.

(** ** The residual handed to the iterator (lines 288-296)

    [assembler->rhs()] after [constructSolution(x, mp_def)] and
    [assembleVector(mp_def)] is a function [rhs] of [x]. *)

Definition ALResidual (rhs : gsVector -> gsVector) (x : gsVector) (lam : R)
    (force : gsVector) : option gsVector :=
  match vsub (rhs x) force with
  | Some d =>
      let Fint := Ropp <$> d in
      vsub Fint (Rmult lam <$> force)
  | None => None
  end.

(** ** [addClamping] (lines 778-818) *)

(** The values of [boundary::] that the function tells apart; [other] is
    any further side, such as [front] or [back]. *)
Module boundary.

Inductive boxSide : Type := none | west | east | south | north | other.

End boundary.

(** The calls [geo->insertKnot(knot, dir)] made for [sides], in order, and
    whether the loop went through ([GISMO_ERROR] at line 813 otherwise).
    [dknot0] is the smallest knot interval of direction 0, taken once
    before the loop; [dknot1] is computed and not used. *)
Fixpoint addClamping (dknot0 offset : R) (sides : list boundary.boxSide)
    : list (R * nat) * bool :=
  match sides with
  | [] => ([], true)
  | s :: sides' =>
      let rest := addClamping dknot0 offset sides' in
      match s with
      | boundary.east =>
          ((1 - Rmin offset (dknot0 / 2), 0%nat) :: rest.1, rest.2)
      | boundary.west =>
          ((Rmin offset (dknot0 / 2), 0%nat) :: rest.1, rest.2)
      | boundary.north =>
          ((1 - Rmin offset (dknot0 / 2), 1%nat) :: rest.1, rest.2)
      | boundary.south =>
          ((Rmin offset (dknot0 / 2), 1%nat) :: rest.1, rest.2)
      | boundary.none => rest
      | boundary.other => ([], false)
      end
  end.

(** The sides for which a knot is inserted. *)
Definition clamps (s : boundary.boxSide) : bool :=
  match s with
  | boundary.west | boundary.east | boundary.south | boundary.north => true
  | _ => false
  end.

(** ** The control net of [FrustrumDomain] (lines 925-987) *)

(** Line 949: [index_t N = math::pow(2,n)+2;], the power computed in
    floating point and the sum cut to an integer: 2 for a negative [n]. *)
Definition ringCount (n : Z) : nat :=
  if (n <? 0)%Z then 2%nat else (2 ^ Z.to_nat n + 2)%nat.

(** Lines 957-958 *)
Definition ringRadius (N : nat) (R1 R2 : R) (k : nat) : R :=
  INR k * (R2 - R1) / INR (N - 1) + R1.

Definition ringHeight (N : nat) (h : R) (k : nat) : R :=
  INR k * h / INR (N - 1).

(** Lines 959-963: the three rows of block [k] of [coefs]. *)
Definition ringRows (N : nat) (R1 R2 h : R) (k : nat) : list (R * R * R) :=
  let R := ringRadius N R1 R2 k in
  let H := ringHeight N h k in
  [(R, 0, H); (R, R, H); (0, R, H)].

(** Lines 949-966: the matrices [coefs] and [weights], row by row. *)
Definition frustrumCoefs (n : Z) (R1 R2 h : R) : list (R * R * R) :=
  flat_map (ringRows (ringCount n) R1 R2 h) (seq 0 (ringCount n)).

Definition frustrumWeights (n : Z) : list R :=
  flat_map (fun _ => [1; 70711 / 100000; 1]) (seq 0 (ringCount n)).

(** ** The step output file (lines 989-1073) *)

(** The files written so far: name and content.  Whether [file.open]
    succeeds for a name is given by a function [writable].  Neither
    function tests the stream: after an open that failed every [<<] is
    without effect, no file is made or changed, and the function goes
    on as after one that succeeded. *)
Abbreviation files := (gmap string string) (only parsing).

Definition newline : string := String (ascii_of_nat 10) EmptyString.

(** [file << k] for an [index_t] that is not negative. *)
Definition decimal (k : nat) : string :=
  NilEmpty.string_of_uint (Nat.to_uint k).

(** What the body of the loop of lines 996-1001 writes for column [k]. *)
Definition headerCells (k : nat) : string :=
  "point " +:+ decimal k +:+ " - x" +:+ "," +:+
  "point " +:+ decimal k +:+ " - y" +:+ "," +:+
  "point " +:+ decimal k +:+ " - z" +:+ ",".

(** Lines 994-1005 *)
Definition headerLine (cols : nat) : string :=
  "Deformation norm" +:+ "," +:+
  foldr (fun k rest => headerCells k +:+ rest)
        ("Lambda" +:+ "," +:+ "Indicator" +:+ newline) (seq 0 cols).

(** Lines 989-1009: the file is opened without [app], so what it held is
    lost when the open succeeds; [cols] is [points.cols()]. *)
Definition initStepOutput (writable : string -> bool) (name : string)
    (cols : nat) (fs : files) : files :=
  if writable name then <[name := headerLine cols]> fs else fs.

Inductive written : Type :=
| Written (fs : files)
| UnknownExtreme (fs : files)   (* GISMO_ERROR, line 1070 *)
| Indeterminate.                (* a negative [kmax], no sample, or 0/0 *)

Section StepOutput.

(** [file << x] for a [real_t] at precision 6, the text written for
    [std::max(abs(a),abs(b))], and [deformation.patch(0).eval_into] for a
    surface in space. *)
Variable fmt : R -> string.
Variable fmtExtreme : R -> R -> string.
Variable eval : R * R -> R * R * R.

(** Lines 1031-1036 *)
Definition plainCells (P : R * R) : string :=
  let '(x, y, z) := eval P in
  fmt x +:+ "," +:+ fmt y +:+ "," +:+ fmt z +:+ ",".

(** Lines 1047-1050: the evaluation point of sample [k]. *)
Definition sample (extreme kmax : Z) (P : R * R) (k : nat) : R * R :=
  let s := 1 * INR k / IZR (kmax - 1) in
  if (extreme =? 0)%Z then (s, P.2) else (P.1, s).

Definition maxCoeff (x : R) (xs : list R) : R := foldr Rmax x xs.
Definition minCoeff (x : R) (xs : list R) : R := foldr Rmin x xs.

(** Lines 1044-1063, for [kmax >= 1]: the [z] coordinates at the samples
    [0..kmax-1] of the line through [P], and the cells of the point. *)
Definition extremeCells (extreme kmax : Z) (P : R * R) : string :=
  let '(x, y, _) := eval P in
  let z k := (eval (sample extreme kmax P k)).2 in
  let rest := z <$> seq 1 (Z.to_nat kmax - 1) in
  fmt x +:+ "," +:+ fmt y +:+ "," +:+
  fmtExtreme (maxCoeff (z 0%nat) rest) (minCoeff (z 0%nat) rest) +:+ ",".

(** Lines 1029-1040 and 1056-1067, for the cells of the points. *)
Definition outputRow (U : gsVector) (L indicator : R) (cells : list string)
    : string :=
  fmt (norm U) +:+ "," +:+
  foldr String.append (fmt L +:+ "," +:+ fmt indicator +:+ "," +:+ newline)
        cells.

(** Lines 1011-1073: the file is opened with [app], which creates it when
    it does not exist and the open succeeds.  [U], [L] and [indicator] are
    the iterator's [solutionU()], [solutionL()] and [indicator()], [pts]
    the columns of [points]. *)
Definition writeStepOutput (writable : string -> bool) (U : gsVector)
    (L indicator : R) (name : string) (pts : list (R * R))
    (extreme kmax : Z) (fs : files) : written :=
  let old := default "" (fs !! name) in
  let opened text := if writable name then <[name := old +:+ text]> fs
                     else fs in
  if (extreme =? -1)%Z then
    Written (opened (outputRow U L indicator (plainCells <$> pts)))
  else if (extreme =? 0)%Z || (extreme =? 1)%Z then
    if (kmax <? 0)%Z then Indeterminate
    else if (kmax <? 2)%Z && negb (bool_decide (pts = [])) then Indeterminate
    else Written (opened (outputRow U L indicator
                            (extremeCells extreme kmax <$> pts)))
  else UnknownExtreme (if writable name then <[name := old]> fs else fs).

End StepOutput.

(** [writePoints] of [main] (lines 176-179), as columns. *)
Definition writePoints : list (R * R) := [(0, 1 / 2); (1 / 2, 1 / 2); (1, 1 / 2)].

(** A run of the two functions with the arguments of lines 212 and 687,
    a formatter that writes every number as [0] and a deformation that is
    zero. *)
Definition zeroText : R -> string := fun _ => "0"%string.
Definition zeroField : R * R -> R * R * R := fun _ => (0, 0, 0).

Definition titled : files := initStepOutput (fun _ => true) "data.txt" 3 ∅.

Definition written_once : files :=
  <["data.txt"%string :=
      default ""%string (titled !! "data.txt"%string) +:+
      outputRow zeroText [0] 0 0
        (extremeCells zeroText (fun _ => zeroText) zeroField 1 201
           <$> writePoints)]> titled.

(** How often the character [c] occurs in [s]. *)
Fixpoint occurrences (c : ascii) (s : string) : nat :=
  match s with
  | EmptyString => 0
  | String a s' => (if Ascii.eqb a c then 1 else 0) + occurrences c s'
  end.

Definition comma : ascii := ","%char.
Definition lf : ascii := ascii_of_nat 10.

(** ** [gsAssemblerOptions] ([gsAssemblerOptions.h]) *)

Module dirichlet.

Inductive strategy : Type :=
| elimination | penalize | nitsche | eliminatNormal | none.

Definition strategy_value (s : strategy) : Z :=
  match s with
  | elimination => 11 | penalize => 13 | nitsche => 12
  | eliminatNormal => 14 | none => 0
  end.

Inductive values : Type :=
| homogeneous | interpolation | l2Projection | user.

Definition values_value (v : values) : Z :=
  match v with
  | homogeneous => 100 | interpolation => 101 | l2Projection => 102
  | user => 103
  end.

End dirichlet.

Module iFace.

(** [conforming] and [glue] are two names of the value 1. *)
Inductive strategy : Type := conforming | dg | smooth | none.

Definition glue : strategy := conforming.

Definition strategy_value (s : strategy) : Z :=
  match s with
  | conforming => 1 | dg => 2 | smooth => 3 | none => 0
  end.

End iFace.

Record gsAssemblerOptions : Type := {
  dirValues : dirichlet.values;
  dirStrategy : dirichlet.strategy;
  intStrategy : iFace.strategy;
  bdA : Q;
  bdB : Z;
  memOverhead : Q;
  quA : Q;
  quB : Z
}.

(** The default constructor (lines 107-118) *)
Definition defaultOptions : gsAssemblerOptions := {|
  dirValues := dirichlet.l2Projection;
  dirStrategy := dirichlet.elimination;
  intStrategy := iFace.conforming;
  bdA := 2;
  bdB := 1;
  memOverhead := 33334 # 100000;
  quA := 1;
  quB := 1
|}.

(** What the two counting functions read of a [gsBasis]. *)
Record gsBasis : Type := {
  domainDim : nat;
  dim : nat;
  degree : nat -> Z
}.

(** [index_t] is [int], of 32 bits: the values from [-2^31] to
    [2^31 - 1]. *)
Definition fits_index (z : Z) : bool :=
  ((- 2 ^ 31 <=? z) && (z <? 2 ^ 31))%Z.

(** A product of two [index_t] values as the machine keeps it: the low
    32 bits of the exact product, read as a signed number. *)
Definition wrap_index (z : Z) : Z := ((z + 2 ^ 31) mod 2 ^ 32 - 2 ^ 31)%Z.

(** [static_cast<index_t>] of a [double]: the fraction is dropped; there
    is no value when the result does not fit [index_t]. *)
Definition truncate (q : Q) : option Z :=
  let z := Z.quot (Qnum q) (Zpos (Qden q)) in
  if fits_index z then Some z else None.

(** Lines 152-161 *)
Definition numQuNodes (o : gsAssemblerOptions) (b : gsBasis) : option Z :=
  foldl (fun res i =>
           match res,
                 truncate (quA o * inject_Z (degree b i)
                           + inject_Z (quB o) + (1 # 2))
           with
           | Some r, Some f => Some (wrap_index (r * f))
           | _, _ => None
           end)
        (Some 1%Z) (seq 0 (domainDim b)).

(** Lines 163-169 *)
Definition numColNz (o : gsAssemblerOptions) (b : gsBasis) : option Z :=
  let nz :=
    foldl (fun nz i =>
             match nz,
                   truncate (bdA o * inject_Z (degree b i)
                             + inject_Z (bdB o) + (1 # 2))
             with
             | Some r, Some f => Some (wrap_index (r * f))
             | _, _ => None
             end)
          (Some 1%Z) (seq 0 (dim b)) in
  match nz with
  | Some nz => truncate (inject_Z nz * (1 + memOverhead o))
  | None => None
  end.

(** The exact product of [f] over the first [n] directions. *)
Definition product (f : nat -> Z) (n : nat) : Z :=
  foldl (fun res i => (res * f i)%Z) 1%Z (seq 0 n).

(** A basis of two directions of degree 65535. *)
Definition steepBasis : gsBasis :=
  {| domainDim := 2; dim := 2; degree := fun _ => 65535%Z |}.

(** ** The error estimate *)

Lemma squaredNorm_nonneg (v : gsVector) : 0 <= squaredNorm v.
Proof.
  induction v as [|x v IH]; simpl; [lra|].
  pose proof (Rle_0_sqr x) as Hx. unfold Rsqr in Hx. lra.
Qed.

Lemma norm_nonneg (v : gsVector) : 0 <= norm v.
Proof. apply sqrt_pos. Qed.

Lemma squaredNorm_zero (v : gsVector) :
  squaredNorm v = 0 <-> v = setZero (length v).
Proof.
  induction v as [|x v IH]; simpl; [tauto|].
  pose proof (squaredNorm_nonneg v) as Hv.
  pose proof (Rle_0_sqr x) as Hx. unfold Rsqr in Hx.
  split.
  - intros Hs. assert (x * x = 0) as Hxx by lra.
    assert (squaredNorm v = 0) as Hv0 by lra.
    apply Rmult_integral in Hxx. apply IH in Hv0.
    unfold setZero in *. simpl. f_equal; [lra | exact Hv0].
  - intros Heq. unfold setZero in Heq. simpl in Heq.
    injection Heq as Hx0 Hv0. apply IH in Hv0. rewrite Hv0, Hx0. lra.
Qed.

Lemma norm_zero (v : gsVector) : norm v = 0 <-> v = setZero (length v).
Proof.
  rewrite <- squaredNorm_zero. unfold norm. split.
  - apply sqrt_eq_0, squaredNorm_nonneg.
  - intros ->. apply sqrt_0.
Qed.

Lemma vsub_same_size (a b : gsVector) :
  length a = length b -> exists d, vsub a b = Some d /\ length d = length a.
Proof.
  revert b. induction a as [|x a IH]; intros [|y b] Hlen; simpl in *;
    try discriminate.
  - eauto.
  - injection Hlen as Hlen. destruct (IH b Hlen) as (d & -> & Hd).
    eexists. split; [reflexivity|]. simpl. congruence.
Qed.

Lemma vsub_zero (a b d : gsVector) :
  vsub a b = Some d -> (d = setZero (length d) <-> a = b).
Proof.
  revert b d. induction a as [|x a IH]; intros [|y b] d; simpl;
    try discriminate.
  - intros [= <-]. tauto.
  - destruct (vsub a b) as [d'|] eqn:E; [|discriminate].
    intros [= <-]. specialize (IH _ _ E). unfold setZero in *. simpl.
    split.
    + intros [= Hxy Hd]. apply IH in Hd. subst. f_equal. lra.
    + intros [= -> ->]. f_equal; [lra|]. apply IH. reflexivity.
Qed.

(** C9, as the code has it: for vectors of one size and a positive
    arc-length the estimate is defined and non-negative, and it is zero
    exactly when the states coincide and, unless the reference force has
    norm zero, the load factors coincide too. *)
Theorem errorEstimate_nonneg_zero
    (Force Uc Uf : gsVector) (lc lf dLi : R) :
  length Uc = length Uf -> 0 < dLi ->
  exists e, errorEstimate Force (Uc, lc) Uf lf dLi = Some e /\
            0 <= e /\
            (e = 0 <-> Uc = Uf /\ (lc = lf \/ norm Force = 0)).
Proof.
  intros Hlen HdL. unfold errorEstimate. simpl.
  destruct (vsub_same_size Uc Uf Hlen) as (d & Hd & _). rewrite Hd.
  eexists. split; [reflexivity|].
  pose proof (Rabs_pos (lc - lf)) as Habs.
  pose proof (norm_nonneg Force) as HF.
  pose proof (norm_nonneg d) as Hnd.
  pose proof (Rmult_le_pos _ _ Habs HF) as Hprod.
  assert (0 < / dLi) as Hinv by (apply Rinv_0_lt_compat; exact HdL).
  split.
  - unfold Rdiv. apply Rmult_le_pos; lra.
  - split.
    + intros He. unfold Rdiv in He.
      apply Rmult_integral in He. destruct He as [He|He]; [|lra].
      assert (norm d = 0) as Hd0 by lra.
      assert (Rabs (lc - lf) * norm Force = 0) as Hl0 by lra.
      split.
      * apply (vsub_zero _ _ _ Hd). apply norm_zero. exact Hd0.
      * apply Rmult_integral in Hl0. destruct Hl0 as [Hl0|Hl0]; [|auto].
        left. destruct (Req_dec (lc - lf) 0) as [Hz|Hz]; [lra|].
        apply Rabs_no_R0 in Hz. contradiction.
    + intros [HU Hl]. subst Uf.
      assert (norm d = 0) as ->.
      { apply norm_zero. apply (vsub_zero _ _ _ Hd). reflexivity. }
      destruct Hl as [-> | ->].
      * rewrite Rminus_diag, Rabs_R0. unfold Rdiv. lra.
      * unfold Rdiv. lra.
Qed.

Lemma errorEstimate_nonneg_zero_witness :
  length [1; 2] = length [1; 2] /\ 0 < 1 / 2 /\
  exists e, errorEstimate [3; 4] ([1; 2], 1) [1; 2] 1 (1 / 2) = Some e /\
            0 <= e /\
            (e = 0 <-> [1; 2] = [1; 2] /\ ((1:R) = 1 \/ norm [3; 4] = 0)).
Proof.
  split; [reflexivity|]. split; [lra|].
  apply (errorEstimate_nonneg_zero [3; 4] [1; 2] [1; 2] 1 1 (1 / 2));
    [reflexivity | lra].
Defined.

(** C9 as stated fails for a reference force of norm zero: the estimate
    is zero although the load factors differ. *)
Lemma errorEstimate_zero_force :
  errorEstimate [0] ([0], 1) [0] 0 1 = Some 0 /\
  ~ (([0], 1) : point) = ([0], 0).
Proof.
  split.
  - unfold errorEstimate. simpl. f_equal. unfold norm. simpl.
    replace (0 * 0 + 0) with 0 by lra.
    replace ((0 - 0) * (0 - 0) + 0) with 0 by lra. rewrite sqrt_0. lra.
  - intros [= Hne]. lra.
Qed.

(** ** Reasoning about outcomes *)

Section Properties.

Context {AL : Type} `{ArcLengthIterator AL}.

Lemma bind_Ok {A B : Type} (r : result (@state AL) A)
    (k : A -> result (@state AL) B) (b : B) :
  bind r k = Ok b -> exists a, r = Ok a /\ k a = Ok b.
Proof. destruct r as [a|f s]; simpl; [eauto | discriminate]. Qed.

Lemma at_Ok {A : Type} (st : @state AL) (v : list A) (i : nat) (x : A) :
  at_ st v i = Ok x -> v !! i = Some x.
Proof. unfold at_. destruct (v !! i); congruence. Qed.

Lemma subscript_Ok {A : Type} (st : @state AL) (v : list A) (i : nat) (x : A) :
  subscript st v i = Ok x -> v !! i = Some x.
Proof. unfold subscript. destruct (v !! i); congruence. Qed.

Lemma post_bind {A B : Type} (r : result (@state AL) A)
    (k : A -> result (@state AL) B) (Q1 : A -> Prop) (Q2 : B -> Prop)
    (E : failure -> @state AL -> Prop) :
  post r Q1 E -> (forall a, Q1 a -> post (k a) Q2 E) -> post (bind r k) Q2 E.
Proof. destruct r as [a|f s]; simpl; auto. Qed.

Lemma post_at {A B : Type} (st : @state AL) (v : list A) (i : nat)
    (k : A -> result (@state AL) B) (Q : B -> Prop)
    (E : failure -> @state AL -> Prop) :
  E OutOfRange st -> (forall x, v !! i = Some x -> post (k x) Q E) ->
  post (bind (at_ st v i) k) Q E.
Proof. unfold at_. destruct (v !! i); simpl; auto. Qed.

Lemma post_subscript {A B : Type} (st : @state AL) (v : list A) (i : nat)
    (k : A -> result (@state AL) B) (Q : B -> Prop)
    (E : failure -> @state AL -> Prop) :
  E Undefined st -> (forall x, v !! i = Some x -> post (k x) Q E) ->
  post (bind (subscript st v i) k) Q E.
Proof. unfold subscript. destruct (v !! i); simpl; auto. Qed.

Lemma post_state_of (r : result (@state AL) (@state AL))
    (P : @state AL -> Prop) :
  post r P (fun _ => P) <-> P (state_of r).
Proof. destruct r; simpl; tauto. Qed.

(** *** The store only grows *)

Lemma extends_refl (st : @state AL) : extends st st.
Proof. intros l. reflexivity. Qed.

Lemma extends_trans (st1 st2 st3 : @state AL) :
  extends st1 st2 -> extends st2 st3 -> extends st1 st3.
Proof. intros H12 H23 l. etransitivity; [apply H12 | apply H23]. Qed.

Lemma extends_same (st st' : @state AL) :
  solutions st' = solutions st -> extends st st'.
Proof. intros Heq l. unfold level_points. rewrite Heq. reflexivity. Qed.

Lemma level_points_push (st : @state AL) (l : nat) (lv ext : list point)
    (l' : nat) :
  solutions st !! l = Some lv ->
  level_points (set_solutions (<[l := lv ++ ext]> (solutions st)) st) l' =
  if decide (l' = l) then lv ++ ext else level_points st l'.
Proof.
  intros Hl. unfold level_points. simpl.
  destruct (decide (l' = l)) as [->|Hne].
  - rewrite list_lookup_insert_eq; [reflexivity|].
    apply lookup_lt_is_Some. eauto.
  - rewrite list_lookup_insert_ne by congruence. reflexivity.
Qed.

Lemma extends_push (st : @state AL) (l : nat) (lv ext : list point) :
  solutions st !! l = Some lv ->
  extends st (set_solutions (<[l := lv ++ ext]> (solutions st)) st).
Proof.
  intros Hl l'. rewrite (level_points_push _ _ _ _ _ Hl).
  destruct (decide (l' = l)) as [->|Hne]; [|reflexivity].
  unfold level_points. rewrite Hl. simpl. apply prefix_app_r. reflexivity.
Qed.

Lemma level_points_grow (st : @state AL) (n l : nat) :
  level_points (set_solutions (solutions st ++ repeat [] n) st) l =
  level_points st l.
Proof.
  unfold level_points. simpl.
  destruct (decide (l < length (solutions st))%nat) as [Hlt|Hge].
  - rewrite lookup_app_l by exact Hlt. reflexivity.
  - rewrite lookup_app_r by lia.
    rewrite (lookup_ge_None_2 (solutions st)) by lia. simpl.
    destruct (repeat [] n !! (l - length (solutions st))%nat) as [x|] eqn:E;
      [|reflexivity].
    apply list_elem_of_lookup_2, list_elem_of_In, repeat_spec in E.
    subst. reflexivity.
Qed.

Lemma level_points_resize (st : @state AL) (n l : nat) :
  (length (solutions st) <= n)%nat ->
  level_points (set_solutions (resize [] n (solutions st)) st) l =
  level_points st l.
Proof.
  intros Hn. unfold resize. rewrite firstn_all2 by exact Hn.
  apply level_points_grow.
Qed.

(** The first guard of the refinement loop never discards a level. *)
Lemma solutions_guard_grows (n level : nat) :
  (pred_size_t n <? Z.of_nat level)%Z = true -> (n <= level + 1)%nat.
Proof.
  intros Hlt. apply Z.ltb_lt in Hlt. unfold pred_size_t in Hlt.
  destruct n; lia.
Qed.

End Properties.

(** ** Every operation keeps what is stored *)

Section Frame.

Context {AL : Type} `{ArcLengthIterator AL}.

Variable st0 : @state AL.

Local Ltac keep :=
  solve [ assumption
        | split; [assumption | discriminate]
        | eapply extends_trans; [eassumption|];
          first [ apply extends_same; reflexivity
                | apply extends_push; eassumption ] ].

Lemma push_solution_frame (l : nat) (pt : point) (st : @state AL) :
  extends st0 st ->
  post (push_solution l pt st) (extends st0) (halted st0).
Proof.
  intros Hst. unfold push_solution.
  apply post_subscript; [keep|]. intros lv Hlv. simpl.
  eapply extends_trans; [exact Hst|]. apply (extends_push st). exact Hlv.
Qed.

Lemma stepAndStore_frame (l : nat) (st : @state AL) :
  extends st0 st ->
  post (stepAndStore l st) (extends st0) (halted st0).
Proof.
  intros Hst. unfold stepAndStore.
  destruct (converged (arcLength (set_arcLength (step (arcLength st)) st)))
    eqn:Hc.
  - apply push_solution_frame. exact Hst.
  - split; [exact Hst | intros _; exact Hc].
Qed.

Lemma level0Steps_frame (k : nat) (st : @state AL) :
  extends st0 st ->
  post (level0Steps k st) (extends st0) (halted st0).
Proof.
  revert st. induction k as [|k IH]; intros st Hst; simpl; [exact Hst|].
  eapply post_bind; [apply stepAndStore_frame; exact Hst|].
  intros st1 Hst1. apply IH. exact Hst1.
Qed.

Lemma storeError_frame (Force : gsVector) (dLi : R) (le p : nat)
    (coarse : point) (st : @state AL) :
  extends st0 st ->
  post (storeError Force dLi le p coarse st) (extends st0) (halted st0).
Proof.
  intros Hst. unfold storeError.
  destruct (errorEstimate _ _ _ _ _) as [e|]; [|keep].
  apply post_subscript; [keep|]. intros row Hrow.
  apply post_at; [keep|]. intros x Hx. exact Hst.
Qed.

Lemma uniformInterval_frame (Force : gsVector) (dLi : R) (level p : nat)
    (st : @state AL) :
  extends st0 st ->
  post (uniformInterval Force dLi level p st) (extends st0) (halted st0).
Proof.
  intros Hst. unfold uniformInterval.
  apply post_subscript; [keep|]. intros prev Hprev.
  apply post_at; [keep|]. intros old Hold.
  apply post_at; [keep|]. intros guess Hguess.
  eapply post_bind; [apply stepAndStore_frame; exact Hst|]. intros st1 Hst1.
  eapply post_bind; [apply stepAndStore_frame; exact Hst1|]. intros st2 Hst2.
  apply post_subscript; [keep|]. intros prev2 Hprev2.
  apply post_at; [keep|]. intros coarse Hcoarse.
  eapply post_bind; [apply storeError_frame; exact Hst2|]. intros st3 Hst3.
  apply post_subscript; [keep|]. intros row Hrow.
  apply post_at; [keep|]. intros e He.
  destruct (Rgt_dec e ptol); [|exact Hst3].
  apply post_subscript; [keep|]. intros cur Hcur. exact Hst3.
Qed.

Lemma intervalLoop_frame (Force : gsVector) (dLi : R) (level n p : nat)
    (st : @state AL) :
  extends st0 st ->
  post (intervalLoop Force dLi level n p st) (extends st0) (halted st0).
Proof.
  revert p st. induction n as [|n IH]; intros p st Hst; simpl; [exact Hst|].
  eapply post_bind; [apply uniformInterval_frame; exact Hst|].
  intros st1 Hst1. apply IH. exact Hst1.
Qed.

Lemma extends_grow (st : @state AL) (n : nat) :
  extends st (set_solutions (solutions st ++ repeat [] n) st).
Proof. intros l. rewrite level_points_grow. reflexivity. Qed.

Lemma uniformLevel_frame (U0 : gsVector) (L0 : R) (Force : gsVector)
    (dL : R) (level : nat) (st : @state AL) :
  extends st0 st ->
  post (uniformLevel U0 L0 Force dL level st) (extends st0) (halted st0).
Proof.
  intros Hst. unfold uniformLevel.
  apply post_subscript; [keep|]. intros prev Hprev.
  apply post_subscript; [keep|]. intros row Hrow.
  eapply post_bind; [apply push_solution_frame; exact Hst|]. intros st1 Hst1.
  eapply post_bind; [apply intervalLoop_frame; exact Hst1|]. intros st2 Hst2.
  simpl. eapply extends_trans; [exact Hst2|]. apply (extends_grow st2 1).
Qed.

Lemma uniformLevels_frame (U0 : gsVector) (L0 : R) (Force : gsVector)
    (dL : R) (n level : nat) (st : @state AL) :
  extends st0 st ->
  post (uniformLevels U0 L0 Force dL n level st) (extends st0) (halted st0).
Proof.
  revert level st. induction n as [|n IH]; intros level st Hst; simpl;
    [exact Hst|].
  eapply post_bind; [apply uniformLevel_frame; exact Hst|].
  intros st1 Hst1. apply IH. exact Hst1.
Qed.

Lemma stepAndRecord_frame (level : nat) (st : @state AL) :
  extends st0 st ->
  post (stepAndRecord level st) (extends st0) (halted st0).
Proof.
  intros Hst. unfold stepAndRecord.
  eapply post_bind; [apply stepAndStore_frame; exact Hst|]. intros st1 Hst1.
  apply post_subscript; [keep|]. intros lv Hlv.
  apply post_at; [keep|]. intros x Hx. exact Hst1.
Qed.

Lemma extends_ensureLevels (level : nat) (st : @state AL) :
  extends st (ensureLevels level st).
Proof.
  unfold ensureLevels.
  assert (extends st
    (if (pred_size_t (length (solutions st)) <? Z.of_nat level)%Z
     then set_solutions (resize [] (level + 1) (solutions st)) st
     else st)) as Hfirst.
  { destruct (pred_size_t (length (solutions st)) <? Z.of_nat level)%Z eqn:Hg;
      [|apply extends_refl].
    intros l. rewrite level_points_resize; [reflexivity|].
    apply solutions_guard_grows. exact Hg. }
  cbv zeta.
  destruct (pred_size_t (length (errors _)) <? pred_size_t level)%Z;
    exact Hfirst.
Qed.

Lemma refineTask_frame (Force : gsVector) (dL : R) (t : task)
    (st : @state AL) :
  extends st0 st ->
  post (refineTask Force dL t st) (extends st0) (halted st0).
Proof.
  intros Hst. destruct t as [[level reflevel] pindex]. unfold refineTask.
  pose proof (extends_ensureLevels level (set_refIdx (tail (refIdx st)) st))
    as Hg.
  cbv zeta.
  set (stg := ensureLevels level _) in *.
  assert (extends st0 stg) as Hstg.
  { eapply extends_trans; [exact Hst|]. exact Hg. }
  clearbody stg. clear Hg Hst.
  apply post_subscript; [keep|]. intros src Hsrc.
  apply post_at; [keep|]. intros old Hold.
  eapply post_bind; [apply push_solution_frame; exact Hstg|]. intros st1 Hst1.
  apply post_subscript; [keep|]. intros src1 Hsrc1.
  apply post_at; [keep|]. intros guess Hguess.
  eapply post_bind; [apply stepAndRecord_frame; exact Hst1|]. intros st2 Hst2.
  eapply post_bind; [apply stepAndRecord_frame; exact Hst2|]. intros st3 Hst3.
  apply post_subscript; [keep|]. intros cmp Hcmp.
  apply post_at; [keep|]. intros coarse Hcoarse.
  eapply post_bind; [apply storeError_frame; exact Hst3|]. intros st4 Hst4.
  apply post_subscript; [keep|]. intros row Hrow.
  apply post_at; [keep|]. intros e He.
  destruct (Rgt_dec e ptol); exact Hst4.
Qed.

Lemma refineLoop_frame (Force : gsVector) (dL : R) (fuel : nat)
    (st : @state AL) (n : nat) (r : result (@state AL) (@state AL)) :
  extends st0 st ->
  refineLoop Force dL fuel st = (n, Some r) ->
  post r (extends st0) (halted st0).
Proof.
  revert st n r. induction fuel as [|fuel IH]; intros st n r Hst; simpl.
  - destruct (refIdx st); [|discriminate]. intros [= <- <-]. exact Hst.
  - destruct (refIdx st) as [|t q]; [intros [= <- <-]; exact Hst|].
    pose proof (refineTask_frame Force dL t st Hst) as Ht.
    destruct (refineTask Force dL t st) as [st1|f s]; simpl in Ht.
    + destruct (refineLoop Force dL fuel st1) as [n1 r1] eqn:Hloop.
      simpl. intros [= <- Hr]. subst r1. eapply IH; eassumption.
    + intros [= <- <-]. exact Ht.
Qed.

End Frame.

(** ** What a finished operation has done *)

Section Finished.

Context {AL : Type} `{ArcLengthIterator AL}.

Lemma push_solution_Ok (l : nat) (pt : point) (st st' : @state AL) :
  push_solution l pt st = Ok st' ->
  exists lv, solutions st !! l = Some lv /\
             st' = set_solutions (<[l := lv ++ [pt]]> (solutions st)) st.
Proof.
  unfold push_solution. intros Hp.
  apply bind_Ok in Hp as (lv & Hlv & Hp). apply subscript_Ok in Hlv.
  injection Hp as <-. eauto.
Qed.

Lemma stepAndStore_Ok (l : nat) (st st' : @state AL) :
  stepAndStore l st = Ok st' ->
  let a := step (arcLength st) in
  exists lv, solutions st !! l = Some lv /\ converged a = true /\
             st' = set_solutions
                     (<[l := lv ++ [(solutionU a, solutionL a)]]> (solutions st))
                     (set_arcLength a st).
Proof.
  unfold stepAndStore. simpl.
  destruct (converged (step (arcLength st))) eqn:Hc; [|discriminate].
  intros Hp. apply push_solution_Ok in Hp as (lv & Hlv & ->). eauto.
Qed.

Lemma stepAndRecord_Ok (level : nat) (st st' : @state AL) :
  stepAndRecord level st = Ok st' ->
  let a := step (arcLength st) in
  exists lv, solutions st !! (level + 1)%nat = Some lv /\
             converged a = true /\
             solutions st' =
               <[(level + 1)%nat := lv ++ [(solutionU a, solutionL a)]]>
                 (solutions st) /\
             arcLength st' = a /\ errors st' = errors st /\
             refIdx st' = refIdx st /\
             (length (solutions st) - 1 < length lv + 1)%nat.
Proof.
  unfold stepAndRecord. intros Hr.
  apply bind_Ok in Hr as (st1 & Hs & Hr).
  apply stepAndStore_Ok in Hs as (lv & Hlv & Hc & ->).
  apply bind_Ok in Hr as (lv1 & Hlv1 & Hr). apply subscript_Ok in Hlv1.
  apply bind_Ok in Hr as (x & Hx & Hr). apply at_Ok in Hx.
  injection Hr as <-. simpl in Hlv1, Hx.
  rewrite list_lookup_insert_eq in Hlv1 by (apply lookup_lt_is_Some; eauto).
  injection Hlv1 as <-. apply lookup_lt_Some in Hx.
  rewrite length_insert in Hx. rewrite length_app in Hx. simpl in Hx.
  simpl. exists lv. repeat split; assumption.
Qed.

Lemma storeError_Ok (Force : gsVector) (dLi : R) (le p : nat)
    (coarse : point) (st st' : @state AL) :
  storeError Force dLi le p coarse st = Ok st' ->
  exists e row,
    errorEstimate Force coarse (solutionU (arcLength st))
      (solutionL (arcLength st)) dLi = Some e /\
    errors st !! le = Some row /\ (p < length row)%nat /\
    st' = set_errors (<[le := <[p := e]> row]> (errors st)) st.
Proof.
  unfold storeError. intros Hs.
  destruct (errorEstimate _ _ _ _ _) as [e|]; [|discriminate].
  apply bind_Ok in Hs as (row & Hrow & Hs). apply subscript_Ok in Hrow.
  apply bind_Ok in Hs as (x & Hx & Hs). apply at_Ok in Hx.
  injection Hs as <-. exists e, row. repeat split; try assumption.
  apply lookup_lt_is_Some. eauto.
Qed.

Lemma uniformInterval_Ok (Force : gsVector) (dLi : R) (level p : nat)
    (st st' : @state AL) :
  uniformInterval Force dLi level p st = Ok st' ->
  exists prev old guess lv prev2 coarse e row,
    solutions st !! (level - 1)%nat = Some prev /\
    prev !! p = Some old /\ prev !! (p + 1)%nat = Some guess /\
    solutions st !! level = Some lv /\
    let a1 := step (prepared old guess (arcLength st)) in
    let a2 := step a1 in
    converged a1 = true /\ converged a2 = true /\
    solutions st' =
      <[level := lv ++ [(solutionU a1, solutionL a1);
                        (solutionU a2, solutionL a2)]]> (solutions st) /\
    arcLength st' = a2 /\
    solutions st' !! (level - 1)%nat = Some prev2 /\
    prev2 !! (p + 1)%nat = Some coarse /\
    errorEstimate Force coarse (solutionU a2) (solutionL a2) dLi = Some e /\
    errors st !! (level - 1)%nat = Some row /\ (p < length row)%nat /\
    errors st' = <[(level - 1)%nat := <[p := e]> row]> (errors st) /\
    refIdx st' =
      (if Rgt_dec e ptol
       then refIdx st ++ [(level + 1, level - 1, p);
                          (level + 1, level, length lv)]%nat
       else refIdx st).
Proof.
  unfold uniformInterval. intros Hu.
  apply bind_Ok in Hu as (prev & Hprev & Hu). apply subscript_Ok in Hprev.
  apply bind_Ok in Hu as (old & Hold & Hu). apply at_Ok in Hold.
  apply bind_Ok in Hu as (guess & Hguess & Hu). apply at_Ok in Hguess.
  apply bind_Ok in Hu as (st1 & Hs1 & Hu).
  apply stepAndStore_Ok in Hs1 as (lv & Hlv & Hc1 & ->).
  apply bind_Ok in Hu as (st2 & Hs2 & Hu).
  apply stepAndStore_Ok in Hs2 as (lv2 & Hlv2 & Hc2 & ->).
  simpl in Hlv, Hc1, Hlv2, Hc2.
  rewrite list_lookup_insert_eq in Hlv2
    by (apply lookup_lt_is_Some; eauto).
  injection Hlv2 as <-.
  apply bind_Ok in Hu as (prev2 & Hprev2 & Hu). apply subscript_Ok in Hprev2.
  apply bind_Ok in Hu as (coarse & Hcoarse & Hu). apply at_Ok in Hcoarse.
  apply bind_Ok in Hu as (st3 & Hs3 & Hu).
  apply storeError_Ok in Hs3 as (e & row & He & Hrow & Hp & ->).
  apply bind_Ok in Hu as (row' & Hrow' & Hu). apply subscript_Ok in Hrow'.
  apply bind_Ok in Hu as (e' & He' & Hu). apply at_Ok in He'.
  simpl in Hprev2, Hcoarse, He, Hrow, Hrow', He'.
  rewrite list_insert_insert_eq in Hprev2.
  rewrite <- app_assoc in Hprev2. simpl in Hprev2.
  rewrite list_lookup_insert_eq in Hrow'
    by (apply lookup_lt_is_Some; eauto).
  injection Hrow' as <-.
  rewrite list_lookup_insert_eq in He' by exact Hp.
  injection He' as <-.
  exists prev, old, guess, lv, prev2, coarse, e, row.
  assert (solutions st' =
            <[level := lv ++ [(solutionU (step (prepared old guess (arcLength st))),
                               solutionL (step (prepared old guess (arcLength st))));
                              (solutionU (step (step (prepared old guess (arcLength st)))),
                               solutionL (step (step (prepared old guess (arcLength st)))))]]>
              (solutions st) /\
          arcLength st' = step (step (prepared old guess (arcLength st))) /\
          errors st' = <[(level - 1)%nat := <[p := e]> row]> (errors st) /\
          refIdx st' =
            (if Rgt_dec e ptol
             then refIdx st ++ [(level + 1, level - 1, p);
                                (level + 1, level, length lv)]%nat
             else refIdx st)) as (Hsol & Hal & Herr & Href).
  { destruct (Rgt_dec e ptol).
    - apply bind_Ok in Hu as (cur & Hcur & Hu). apply subscript_Ok in Hcur.
      simpl in Hcur. rewrite list_insert_insert_eq in Hcur.
      rewrite list_lookup_insert_eq in Hcur
        by (apply lookup_lt_is_Some; eauto).
      injection Hcur as <-. injection Hu as <-. simpl.
      rewrite list_insert_insert_eq, <- app_assoc. simpl.
      repeat split. do 4 f_equal. rewrite !length_app. simpl. lia.
    - injection Hu as <-. simpl.
      rewrite list_insert_insert_eq, <- app_assoc. simpl. repeat split. }
  cbv zeta. rewrite Hsol. repeat split; assumption.
Qed.

Lemma ensureLevels_other (level : nat) (st : @state AL) :
  arcLength (ensureLevels level st) = arcLength st /\
  refIdx (ensureLevels level st) = refIdx st /\
  points (ensureLevels level st) = points st.
Proof.
  unfold ensureLevels. cbv zeta.
  destruct (pred_size_t (length (solutions st)) <? Z.of_nat level)%Z;
    destruct (pred_size_t (length (errors _)) <? pred_size_t level)%Z;
    simpl; auto.
Qed.

Lemma ensureLevels_level_points (level : nat) (st : @state AL) (l : nat) :
  level_points (ensureLevels level st) l = level_points st l.
Proof.
  unfold ensureLevels. cbv zeta.
  assert (level_points
    (if (pred_size_t (length (solutions st)) <? Z.of_nat level)%Z
     then set_solutions (resize [] (level + 1) (solutions st)) st
     else st) l = level_points st l) as Hfirst.
  { destruct (pred_size_t (length (solutions st)) <? Z.of_nat level)%Z eqn:Hg;
      [|reflexivity].
    apply level_points_resize, solutions_guard_grows. exact Hg. }
  destruct (pred_size_t (length (errors _)) <? pred_size_t level)%Z;
    exact Hfirst.
Qed.

Lemma refineTask_Ok (Force : gsVector) (dL : R) (level reflevel pindex : nat)
    (st st' : @state AL) :
  refineTask Force dL (level, reflevel, pindex) st = Ok st' ->
  let stg := ensureLevels level (set_refIdx (tail (refIdx st)) st) in
  exists src old lv src1 guess cmp coarse e row,
    solutions stg !! reflevel = Some src /\ src !! pindex = Some old /\
    solutions stg !! (level + 1)%nat = Some lv /\
    <[(level + 1)%nat := lv ++ [old]]> (solutions stg) !! reflevel
      = Some src1 /\
    src1 !! (pindex + 1)%nat = Some guess /\
    let a1 := step (setLength (dL / 2 ^ level)
                      (prepared old guess (arcLength st))) in
    let a2 := step a1 in
    converged a1 = true /\ converged a2 = true /\
    solutions st' =
      <[(level + 1)%nat := lv ++ [old; (solutionU a1, solutionL a1);
                                  (solutionU a2, solutionL a2)]]>
        (solutions stg) /\
    arcLength st' = a2 /\
    solutions st' !! level = Some cmp /\
    cmp !! (pindex + 1)%nat = Some coarse /\
    errorEstimate Force coarse (solutionU a2) (solutionL a2)
      (dL / 2 ^ level) = Some e /\
    errors stg !! level = Some row /\ (pindex < length row)%nat /\
    errors st' = <[level := <[pindex := e]> row]> (errors stg) /\
    refIdx st' = tail (refIdx st) /\
    (length (solutions stg) - 1 < length lv + 2)%nat.
Proof.
  unfold refineTask. cbv zeta.
  pose proof (ensureLevels_other level (set_refIdx (tail (refIdx st)) st))
    as (Hal & Hq & _).
  simpl in Hal, Hq.
  set (stg := ensureLevels level _) in *. clearbody stg.
  intros Hu.
  apply bind_Ok in Hu as (src & Hsrc & Hu). apply subscript_Ok in Hsrc.
  apply bind_Ok in Hu as (old & Hold & Hu). apply at_Ok in Hold.
  apply bind_Ok in Hu as (st1 & Hs1 & Hu).
  apply push_solution_Ok in Hs1 as (lv & Hlv & ->). simpl in Hlv.
  apply bind_Ok in Hu as (src1 & Hsrc1 & Hu). apply subscript_Ok in Hsrc1.
  apply bind_Ok in Hu as (guess & Hguess & Hu). apply at_Ok in Hguess.
  simpl in Hsrc1.
  apply bind_Ok in Hu as (st2 & Hs2 & Hu).
  apply stepAndRecord_Ok in Hs2
    as (lv2 & Hlv2 & Hc1 & Hsol2 & Hal2 & He2 & Hq2 & Hat).
  simpl in Hlv2, Hc1, Hsol2, Hal2, He2, Hq2, Hat.
  rewrite length_insert in Hat.
  rewrite list_lookup_insert_eq in Hlv2
    by (apply lookup_lt_is_Some; eauto).
  injection Hlv2 as <-. rewrite length_app in Hat. simpl in Hat.
  rewrite list_insert_insert_eq, <- app_assoc in Hsol2. simpl in Hsol2.
  apply bind_Ok in Hu as (st3 & Hs3 & Hu).
  apply stepAndRecord_Ok in Hs3
    as (lv3 & Hlv3 & Hc2 & Hsol3 & Hal3 & He3 & Hq3 & _).
  cbv zeta in Hlv3, Hc2, Hsol3, Hal3.
  rewrite Hal2 in Hc2, Hsol3, Hal3. rewrite Hsol2 in Hlv3, Hsol3.
  rewrite list_lookup_insert_eq in Hlv3
    by (apply lookup_lt_is_Some; eauto).
  injection Hlv3 as <-.
  rewrite list_insert_insert_eq, <- app_assoc in Hsol3. simpl in Hsol3.
  apply bind_Ok in Hu as (cmp & Hcmp & Hu). apply subscript_Ok in Hcmp.
  apply bind_Ok in Hu as (coarse & Hcoarse & Hu). apply at_Ok in Hcoarse.
  apply bind_Ok in Hu as (st4 & Hs4 & Hu).
  apply storeError_Ok in Hs4 as (e & row & He & Hrow & Hp & ->).
  apply bind_Ok in Hu as (row' & _ & Hu).
  apply bind_Ok in Hu as (e' & _ & Hu).
  assert (st' = set_errors (<[level := <[pindex := e]> row]> (errors st3)) st3)
    as -> by (destruct (Rgt_dec e' ptol); congruence).
  simpl. rewrite Hal in *. rewrite Hal3 in He.
  exists src, old, lv, src1, guess, cmp, coarse, e, row.
  rewrite Hsol3. rewrite <- Hsol3 at 1.
  repeat split; try assumption; try congruence; lia.
Qed.

Lemma length_resize {A : Type} (d : A) (n : nat) (v : list A) :
  length (resize d n v) = n.
Proof.
  unfold resize. rewrite length_app, length_take, repeat_length. lia.
Qed.

(** The guards of lines 488-499 stop one short of the indices used at
    lines 507 and 534: they make [solutions[level]] and [errors[level-1]]
    exist, not [solutions[level+1]] and [errors[level]]. *)
Lemma ensureLevels_one_short (level : nat) (st : @state AL) :
  (length (solutions st) <= level + 1)%nat ->
  (length (errors st) <= level)%nat ->
  solutions (ensureLevels level st) !! (level + 1)%nat = None /\
  errors (ensureLevels level st) !! level = None.
Proof.
  intros Hsol Herr. unfold ensureLevels. cbv zeta.
  destruct (pred_size_t (length (solutions st)) <? Z.of_nat level)%Z;
    destruct (pred_size_t (length (errors _)) <? pred_size_t level)%Z;
    simpl; split; apply lookup_ge_None_2;
    rewrite ?length_resize; lia.
Qed.

(** A task of the refinement loop that writes to a level without points,
    other than level 1, does not finish: after its first step that level
    holds two points, and line 530 asks for the point whose index is the
    number of levels minus one. *)
Lemma refineTask_empty_level (Force : gsVector) (dL : R)
    (level reflevel pindex : nat) (st st' : @state AL) :
  (1 <= level)%nat -> level_points st (level + 1) = [] ->
  refineTask Force dL (level, reflevel, pindex) st <> Ok st'.
Proof.
  intros Hlevel Hnil Hu. apply refineTask_Ok in Hu. cbv zeta in Hu.
  destruct Hu as (src & old & lv & src1 & guess & cmp & coarse & e & row & Hu).
  destruct Hu as (_ & _ & Hlv & Hrest).
  assert ((length (solutions
             (ensureLevels level (set_refIdx (tail (refIdx st)) st))) - 1
           < length lv + 2)%nat) as Hat by apply Hrest.
  pose proof (ensureLevels_level_points level
                (set_refIdx (tail (refIdx st)) st) (level + 1)) as Hlp.
  unfold level_points in Hlp at 1. rewrite Hlv in Hlp. simpl in Hlp.
  change (level_points (set_refIdx (tail (refIdx st)) st) (level + 1))
    with (level_points st (level + 1)) in Hlp.
  rewrite Hnil in Hlp. subst lv. simpl in Hat.
  apply lookup_lt_Some in Hlv. lia.
Qed.

End Finished.

(** ** The head of a level *)

Section Heads.

Context {AL : Type} `{ArcLengthIterator AL}.

Lemma extends_lookup (st st' : @state AL) (l i : nat) (pt : point) :
  extends st st' -> level_points st l !! i = Some pt ->
  level_points st' l !! i = Some pt.
Proof. intros He Hl. eapply prefix_lookup_Some; [exact Hl | apply He]. Qed.

Lemma extends_nonempty (st st' : @state AL) (l : nat) :
  extends st st' -> level_points st l <> [] -> level_points st' l <> [].
Proof.
  intros He Hne Hnil. destruct (He l) as [ext Hext].
  rewrite Hnil in Hext. symmetry in Hext.
  apply app_eq_nil in Hext as [Hext _]. contradiction.
Qed.

Lemma post_and {A : Type} (r : result (@state AL) A) (Q1 Q2 : A -> Prop)
    (E1 E2 : failure -> @state AL -> Prop) :
  post r Q1 E1 -> post r Q2 E2 ->
  post r (fun a => Q1 a /\ Q2 a) (fun f s => E1 f s /\ E2 f s).
Proof. destruct r; simpl; auto. Qed.

Lemma post_weaken {A : Type} (r : result (@state AL) A) (Q1 Q2 : A -> Prop)
    (E1 E2 : failure -> @state AL -> Prop) :
  post r Q1 E1 -> (forall a, Q1 a -> Q2 a) -> (forall f s, E1 f s -> E2 f s) ->
  post r Q2 E2.
Proof. destruct r; simpl; auto. Qed.

Variable ref : point.

Lemma heads_push (st : @state AL) (l : nat) (lv : list point) (pt : point) :
  solutions st !! l = Some lv -> (lv <> [] \/ pt = ref) ->
  heads ref st ->
  heads ref (set_solutions (<[l := lv ++ [pt]]> (solutions st)) st).
Proof.
  intros Hl Hor Hh l' q. rewrite (level_points_push _ _ _ _ _ Hl).
  destruct (decide (l' = l)) as [->|Hne]; [|apply Hh].
  destruct lv as [|x lv]; simpl.
  - intros [= <-]. destruct Hor as [Hor|Hor]; [contradiction | exact Hor].
  - intros [= <-]. apply (Hh l). unfold level_points. rewrite Hl. reflexivity.
Qed.

Lemma push_solution_heads (l : nat) (pt : point) (st : @state AL) :
  heads ref st -> (level_points st l <> [] \/ pt = ref) ->
  post (push_solution l pt st) (heads ref) (fun _ => heads ref).
Proof.
  intros Hh Hor. unfold push_solution.
  apply post_subscript; [exact Hh|]. intros lv Hlv. simpl.
  apply heads_push; try assumption.
  unfold level_points in Hor. rewrite Hlv in Hor. exact Hor.
Qed.

(** A postcondition on the heads, joined with what the frame lemmas give. *)
Lemma rooted_by_frame (k : nat) (st : @state AL)
    (r : result (@state AL) (@state AL)) :
  level_points st k <> [] ->
  post r (heads ref) (fun _ => heads ref) ->
  post r (extends st) (halted st) ->
  post r (rooted ref k) (fun _ => heads ref).
Proof.
  intros Hne Hh Hf. destruct r as [a|f s]; simpl in *; [|exact Hh].
  split; [exact Hh | eapply extends_nonempty; eassumption].
Qed.

Lemma stepAndStore_heads (k : nat) (st : @state AL) :
  rooted ref k st ->
  post (stepAndStore k st) (rooted ref k) (fun _ => heads ref).
Proof.
  intros [Hh Hne].
  apply (rooted_by_frame k st); [exact Hne | |
    apply stepAndStore_frame, extends_refl].
  unfold stepAndStore.
  destruct (converged _); [|exact Hh].
  apply push_solution_heads; [exact Hh | left; exact Hne].
Qed.

Lemma level0Steps_heads (k : nat) (st : @state AL) :
  rooted ref 0 st ->
  post (level0Steps k st) (rooted ref 0) (fun _ => heads ref).
Proof.
  revert st. induction k as [|k IH]; intros st Hst; simpl; [exact Hst|].
  eapply post_bind; [apply stepAndStore_heads; exact Hst|].
  intros st1 Hst1. apply IH. exact Hst1.
Qed.

Lemma storeError_heads (Force : gsVector) (dLi : R) (le p : nat)
    (coarse : point) (k : nat) (st : @state AL) :
  rooted ref k st ->
  post (storeError Force dLi le p coarse st) (rooted ref k)
    (fun _ => heads ref).
Proof.
  intros Hst. unfold storeError.
  destruct (errorEstimate _ _ _ _ _) as [e|]; [|exact (proj1 Hst)].
  apply post_subscript; [exact (proj1 Hst)|]. intros row Hrow.
  apply post_at; [exact (proj1 Hst)|]. intros x Hx. exact Hst.
Qed.

Lemma uniformInterval_heads (Force : gsVector) (dLi : R) (level p : nat)
    (st : @state AL) :
  rooted ref level st ->
  post (uniformInterval Force dLi level p st) (rooted ref level)
    (fun _ => heads ref).
Proof.
  intros Hst. unfold uniformInterval.
  apply post_subscript; [exact (proj1 Hst)|]. intros prev Hprev.
  apply post_at; [exact (proj1 Hst)|]. intros old Hold.
  apply post_at; [exact (proj1 Hst)|]. intros guess Hguess.
  eapply post_bind; [apply stepAndStore_heads; exact Hst|]. intros st1 Hst1.
  eapply post_bind; [apply stepAndStore_heads; exact Hst1|]. intros st2 Hst2.
  apply post_subscript; [exact (proj1 Hst2)|]. intros prev2 Hprev2.
  apply post_at; [exact (proj1 Hst2)|]. intros coarse Hcoarse.
  eapply post_bind; [apply storeError_heads; exact Hst2|]. intros st3 Hst3.
  apply post_subscript; [exact (proj1 Hst3)|]. intros row Hrow.
  apply post_at; [exact (proj1 Hst3)|]. intros e He.
  destruct (Rgt_dec e ptol); [|exact Hst3].
  apply post_subscript; [exact (proj1 Hst3)|]. intros cur Hcur. exact Hst3.
Qed.

Lemma intervalLoop_heads (Force : gsVector) (dLi : R) (level n p : nat)
    (st : @state AL) :
  rooted ref level st ->
  post (intervalLoop Force dLi level n p st) (rooted ref level)
    (fun _ => heads ref).
Proof.
  revert p st. induction n as [|n IH]; intros p st Hst; simpl; [exact Hst|].
  eapply post_bind; [apply uniformInterval_heads; exact Hst|].
  intros st1 Hst1. apply IH. exact Hst1.
Qed.

Lemma push_solution_rooted (l : nat) (pt : point) (st : @state AL) :
  heads ref st -> (level_points st l <> [] \/ pt = ref) ->
  post (push_solution l pt st)
    (fun st1 => rooted ref l st1 /\ extends st st1) (fun _ => heads ref).
Proof.
  intros Hh Hor. unfold push_solution.
  apply post_subscript; [exact Hh|]. intros lv Hlv. simpl.
  split; [split|].
  - apply heads_push; try assumption.
    unfold level_points in Hor. rewrite Hlv in Hor. exact Hor.
  - rewrite (level_points_push st _ _ _ _ Hlv).
    rewrite decide_True by reflexivity. intros Hnil.
    apply app_eq_nil in Hnil as [_ Hnil]. discriminate.
  - apply extends_push. exact Hlv.
Qed.

Lemma grounded_next (k : nat) (st st' : @state AL) :
  grounded ref k st -> extends st st' -> rooted ref k st' ->
  grounded ref (S k) st'.
Proof.
  intros [_ Hbelow] Hext [Hh Hk]. split; [exact Hh|].
  intros l Hl. destruct (decide (l = k)) as [->|Hne]; [exact Hk|].
  apply (extends_nonempty st); [exact Hext|]. apply Hbelow. lia.
Qed.

End Heads.

Section HeadsOfRun.

Context {AL : Type} `{ArcLengthIterator AL}.

Lemma uniformLevel_heads (U0 : gsVector) (L0 : R) (Force : gsVector)
    (dL : R) (level : nat) (st : @state AL) :
  grounded (U0, L0) level st ->
  post (uniformLevel U0 L0 Force dL level st)
    (grounded (U0, L0) (S level)) (fun _ => heads (U0, L0)).
Proof.
  intros Hst. pose proof Hst as [Hh Hbelow]. unfold uniformLevel.
  apply post_subscript; [exact Hh|]. intros prev Hprev.
  apply post_subscript; [exact Hh|]. intros row Hrow.
  eapply post_bind.
  { apply (push_solution_rooted (U0, L0) level (U0, L0) (set_errors _ st)).
    - exact Hh.
    - right. reflexivity. }
  intros st1 [Hroot1 Hext1].
  eapply post_bind.
  { eapply post_weaken;
      [ apply post_and;
        [ apply (intervalLoop_heads (U0, L0)); exact Hroot1
        | apply (intervalLoop_frame st); exact Hext1 ]
      | intros a Ha; exact Ha
      | intros f s [Hs _]; exact Hs ]. }

  intros st2 [Hroot2 Hext2]. simpl.
  destruct Hroot2 as [Hh2 Hk2].
  apply (grounded_next (U0, L0) level st); [exact Hst | |].
  - eapply extends_trans; [exact Hext2|]. apply (extends_grow st2 1).
  - split.
    + intros l pt. rewrite (level_points_grow st2 1). apply Hh2.
    + rewrite (level_points_grow st2 1). exact Hk2.
Qed.

Lemma uniformLevels_heads (U0 : gsVector) (L0 : R) (Force : gsVector)
    (dL : R) (n level : nat) (st : @state AL) :
  grounded (U0, L0) level st ->
  post (uniformLevels U0 L0 Force dL n level st)
    (grounded (U0, L0) (level + n)) (fun _ => heads (U0, L0)).
Proof.
  revert level st. induction n as [|n IH]; intros level st Hst; simpl.
  - rewrite Nat.add_0_r. exact Hst.
  - eapply post_bind; [apply uniformLevel_heads; exact Hst|].
    intros st1 Hst1. replace (level + S n)%nat with (S level + n)%nat by lia.
    apply IH. exact Hst1.
Qed.

Lemma level0_heads (Force : gsVector) (step0 maxLevel : nat) (al : AL) :
  post (level0 Force step0 maxLevel al)
    (grounded (setZero (length Force), 0) 1)
    (fun _ => heads (setZero (length Force), 0)).
Proof.
  unfold level0. cbv zeta.
  set (st := State _ _ _ _ _).
  assert (heads (setZero (length Force), 0) st) as Hh.
  { intros l pt. unfold level_points. subst st. simpl.
    destruct (repeat [] (maxLevel + 1) !! l) as [x|] eqn:E; simpl;
      [|discriminate].
    apply list_elem_of_lookup_2, list_elem_of_In, repeat_spec in E.
    subst. discriminate. }
  eapply post_bind.
  { apply (push_solution_rooted (setZero (length Force), 0) 0);
      [exact Hh | right; reflexivity]. }
  intros st1 [Hroot1 _].
  eapply post_weaken.
  - apply level0Steps_heads. exact Hroot1.
  - intros a [Ha Hne]. split; [exact Ha|]. intros l Hl.
    replace l with 0%nat by lia. exact Hne.
  - intros f s Hs. exact Hs.
Qed.

Lemma build_heads (Force : gsVector) (dL : R) (step0 maxLevel : nat)
    (al : AL) :
  post (build Force dL step0 maxLevel al)
    (grounded (setZero (length Force), 0) (maxLevel + 1))
    (fun _ => heads (setZero (length Force), 0)).
Proof.
  unfold build.
  eapply post_bind; [apply level0_heads|]. intros st1 Hst1.
  eapply post_bind.
  { apply uniformLevels_heads. exact Hst1. }
  intros st2 Hst2. simpl.
  replace (maxLevel + 1)%nat with (1 + maxLevel)%nat by lia. exact Hst2.
Qed.

End HeadsOfRun.

(** ** The concrete runs, evaluated *)

Lemma norm_1 (x : R) : norm [x] = Rabs x.
Proof. unfold norm. simpl. rewrite Rplus_0_r. apply sqrt_Rsqr_abs. Qed.

Ltac real_arith :=
  unfold ptol, est; rewrite ?norm_1; simpl pow; unfold Rabs;
  repeat (destruct (Rcase_abs _)); lra.

Ltac decide_ptol :=
  match goal with
  | |- context [Rgt_dec ?e ptol] =>
      let Hd := fresh "Hd" in
      destruct (Rgt_dec e ptol) as [Hd|Hd];
      [ try (exfalso; clear -Hd; revert Hd; real_arith)
      | try (exfalso; clear -Hd; apply Hd; real_arith) ]; clear Hd
  end.

Ltac reduce_run :=
  lazy -[Rgt_dec norm Rabs IZR Rdiv pow Rminus Rplus Rmult Ropp Rinv ptol].

Ltac run := reduce_run; repeat (decide_ptol; reduce_run); reflexivity.

Lemma build3 : build [1] (1 / 2) 1 3 script3 = Ok built3.
Proof. run. Qed.

Lemma refine3a : refineTask [1] (1 / 2) (2, 0, 0)%nat built3 = Ok refined3a.
Proof. run. Qed.

Lemma refine3b : refineTask [1] (1 / 2) (2, 1, 1)%nat refined3a = Ok refined3b.
Proof. run. Qed.

Lemma main3 : main [1] (1 / 2) 1 3 script3 = (2%nat, Some (Ok refined3b)).
Proof.
  unfold main. rewrite build3.
  change (length (refIdx built3)) with 2%nat.
  cbn [refineLoop built3 refIdx]. rewrite refine3a.
  cbn [refineLoop refined3a refIdx]. rewrite refine3b.
  reflexivity.
Qed.

Lemma build2 : build [1] (1 / 2) 2 2 script2 = Ok built2.
Proof. run. Qed.

Lemma refine2 :
  refineTask [1] (1 / 2) (2, 0, 1)%nat built2 = Fatal OutOfRange thrown2.
Proof. run. Qed.

Lemma main2 :
  main [1] (1 / 2) 2 2 script2 = (1%nat, Some (Fatal OutOfRange thrown2)).
Proof.
  unfold main. rewrite build2.
  change (length (refIdx built2)) with 2%nat.
  cbn [refineLoop built2 refIdx]. rewrite refine2. reflexivity.
Qed.

Lemma interval1 :
  uniformInterval [1] (1 / 2 / 2 ^ 1) 1 0 seeded1 = Ok walked1.
Proof. run. Qed.

Lemma build1 : build [1] (1 / 2) 1 1 script1 = Ok built1.
Proof. run. Qed.

Lemma refine1 :
  refineTask [1] (1 / 2) (2, 0, 0)%nat built1 = Fatal Undefined undefined1.
Proof. run. Qed.

Lemma main1 :
  main [1] (1 / 2) 1 1 script1 = (1%nat, Some (Fatal Undefined undefined1)).
Proof.
  unfold main. rewrite build1.
  change (length (refIdx built1)) with 2%nat.
  cbn [refineLoop built1 refIdx]. rewrite refine1. reflexivity.
Qed.

Lemma main0 : main [1] (1 / 2) 10 0 script0 = (0%nat, Some (Ok walked0)).
Proof. run. Qed.

(** ** The refinement loop ends *)

Section Termination.

Context {AL : Type} `{ArcLengthIterator AL}.

Lemma refineTask_pops (Force : gsVector) (dL : R) (t : task)
    (st st' : @state AL) :
  refineTask Force dL t st = Ok st' -> refIdx st' = tail (refIdx st).
Proof.
  destruct t as [[level reflevel] pindex]. intros Ht.
  apply refineTask_Ok in Ht. cbv zeta in Ht.
  destruct Ht as (src & old & lv & src1 & guess & cmp & coarse & e & row & Ht).
  apply Ht.
Qed.

Lemma refineLoop_fuel (Force : gsVector) (dL : R) (fuel : nat)
    (st : @state AL) :
  (length (refIdx st) <= fuel)%nat ->
  exists n r,
    refineLoop Force dL fuel st = (n, Some r) /\
    (n <= length (refIdx st))%nat /\
    (forall st', r = Ok st' -> n = length (refIdx st) /\ refIdx st' = []).
Proof.
  revert st. induction fuel as [|fuel IH]; intros st Hlen; simpl.
  - destruct (refIdx st) as [|t q] eqn:Hq; [|simpl in Hlen; lia].
    exists 0%nat, (Ok st). split; [reflexivity|]. split; [simpl; lia|].
    intros st' [= <-]. split; [reflexivity | exact Hq].
  - destruct (refIdx st) as [|t q] eqn:Hq.
    + exists 0%nat, (Ok st). split; [reflexivity|]. split; [simpl; lia|].
      intros st' [= <-]. split; [reflexivity | exact Hq].
    + destruct (refineTask Force dL t st) as [st1|f s] eqn:Ht.
      * apply refineTask_pops in Ht. rewrite Hq in Ht. simpl in Ht.
        destruct (IH st1) as (n & r & Hloop & Hn & Hok).
        { rewrite Ht. simpl in Hlen. lia. }
        rewrite Hloop. simpl. exists (S n), r.
        rewrite Ht in Hn, Hok. split; [reflexivity|]. split; [lia|].
        intros st' Hr. destruct (Hok _ Hr) as [-> Hempty].
        split; [reflexivity | exact Hempty].
      * exists 1%nat, (Fatal f s). split; [reflexivity|].
        split; [simpl; lia|]. intros st' Hr. discriminate Hr.
Qed.

Lemma refineLoop_inQueueOrder (Force : gsVector) (dL : R) (fuel : nat)
    (st : @state AL) :
  (length (refIdx st) <= fuel)%nat ->
  refineLoop Force dL fuel st
  = ((inQueueOrder Force dL (refIdx st) st).1,
     Some (inQueueOrder Force dL (refIdx st) st).2).
Proof.
  revert st. induction fuel as [|fuel IH]; intros st Hlen; simpl.
  - destruct (refIdx st) as [|t q]; [reflexivity | simpl in Hlen; lia].
  - destruct (refIdx st) as [|t q] eqn:Hq; [reflexivity|]. simpl.
    destruct (refineTask Force dL t st) as [st1|f s] eqn:Ht; [|reflexivity].
    apply refineTask_pops in Ht. rewrite Hq in Ht. simpl in Ht.
    rewrite IH by (rewrite Ht; simpl in Hlen; lia).
    rewrite Ht. reflexivity.
Qed.

Lemma inQueueOrder_Fatal (Force : gsVector) (dL : R) (ts : list task)
    (st : @state AL) (n : nat) (f : failure) (s : @state AL) :
  inQueueOrder Force dL ts st = (n, Fatal f s) ->
  (1 <= n)%nat /\
  exists t s0,
    ts !! (n - 1)%nat = Some t /\
    inQueueOrder Force dL (take (n - 1) ts) st = ((n - 1)%nat, Ok s0) /\
    refineTask Force dL t s0 = Fatal f s.
Proof.
  revert st n. induction ts as [|t ts IH]; intros st n; simpl;
    [discriminate|].
  destruct (refineTask Force dL t st) as [st1|f1 s1] eqn:Ht.
  - destruct (inQueueOrder Force dL ts st1) as [m r] eqn:Hrest. simpl.
    intros [= <- ->].
    destruct (IH _ _ Hrest) as (Hm & t' & s0 & Ht' & Hdone & Hfail).
    split; [lia|]. exists t', s0.
    replace (S m - 1)%nat with (S (m - 1)) by lia.
    simpl. rewrite Ht, Hdone. auto.
  - intros [= <- <- <-]. split; [lia|]. exists t, st. simpl. auto.
Qed.

(** C10: a task of the refinement loop leaves the queue without its head
    and with nothing added.  The loop, given as many rounds as there are
    tasks when it starts, always ends, after at most that many rounds,
    whatever the errors.  Its rounds are the tasks of the queue it starts
    with, in their order, each on the state the one before has left:
    all of them, with an empty queue at the end, when every task
    finishes, and otherwise up to and including the first task that ends
    fatally. *)
Theorem refineLoop_terminates (Force : gsVector) (dL : R) (st : @state AL) :
  (forall t st', refineTask Force dL t st = Ok st' ->
                 refIdx st' = tail (refIdx st)) /\
  exists n r,
    refineLoop Force dL (length (refIdx st)) st = (n, Some r) /\
    (n <= length (refIdx st))%nat /\
    (forall st', r = Ok st' -> n = length (refIdx st) /\ refIdx st' = []) /\
    (n, r) = inQueueOrder Force dL (refIdx st) st /\
    (forall f s, r = Fatal f s ->
       (1 <= n)%nat /\
       exists t s0,
         refIdx st !! (n - 1)%nat = Some t /\
         inQueueOrder Force dL (take (n - 1) (refIdx st)) st
           = ((n - 1)%nat, Ok s0) /\
         refineTask Force dL t s0 = Fatal f s).
Proof.
  split.
  - intros t st'. apply refineTask_pops.
  - destruct (refineLoop_fuel Force dL (length (refIdx st)) st)
      as (n & r & Hloop & Hn & Hok); [lia|].
    pose proof (refineLoop_inQueueOrder Force dL (length (refIdx st)) st
                  ltac:(lia)) as Horder.
    rewrite Hloop in Horder. injection Horder as Hn1 Hr1.
    assert ((n, r) = inQueueOrder Force dL (refIdx st) st) as Heq.
    { destruct (inQueueOrder Force dL (refIdx st) st) as [m r'].
      simpl in Hn1, Hr1. congruence. }
    exists n, r. split; [exact Hloop|]. split; [exact Hn|].
    split; [exact Hok|]. split; [exact Heq|].
    intros f s ->. apply (inQueueOrder_Fatal Force dL (refIdx st) st).
    symmetry. exact Heq.
Qed.

Lemma main_ends (Force : gsVector) (dL : R) (step0 maxLevel : nat) (al : AL) :
  exists n r, main Force dL step0 maxLevel al = (n, Some r).
Proof.
  unfold main. destruct (build Force dL step0 maxLevel al) as [st|f s].
  - destruct (refineLoop_fuel Force dL (length (refIdx st)) st)
      as (n & r & Hloop & _); [lia|]. eauto.
  - eauto.
Qed.

End Termination.

Lemma refineLoop_terminates_witness :
  refIdx refined3a = tail (refIdx built3) /\
  exists n r,
    refineLoop [1] (1 / 2) (length (refIdx built3)) built3 = (n, Some r) /\
    (n <= length (refIdx built3))%nat /\
    (forall st', r = Ok st' -> n = length (refIdx built3) /\ refIdx st' = []) /\
    (n, r) = inQueueOrder [1] (1 / 2) (refIdx built3) built3 /\
    (forall f s, r = Fatal f s ->
       (1 <= n)%nat /\
       exists t s0,
         refIdx built3 !! (n - 1)%nat = Some t /\
         inQueueOrder [1] (1 / 2) (take (n - 1) (refIdx built3)) built3
           = ((n - 1)%nat, Ok s0) /\
         refineTask [1] (1 / 2) t s0 = Fatal f s).
Proof.
  destruct (refineLoop_terminates [1] (1 / 2) built3) as [Hpop Hloop].
  split; [|exact Hloop].
  exact (Hpop (2, 0, 0)%nat refined3a refine3a).
Defined.

Lemma build3d : build [1] (1 / 2) 1 3 script3d = Ok built3d.
Proof. run. Qed.

Lemma refine3d :
  refineTask [1] (1 / 2) (2, 0, 0)%nat built3d = Fatal NotConverged diverged3.
Proof. run. Qed.

(** C10 as stated fails for a run in which a task ends fatally: two tasks
    are queued when the loop starts, the first step of the first task
    does not converge, and the loop ends in its first round. *)
Lemma refineLoop_stops_early :
  build [1] (1 / 2) 1 3 script3d = Ok built3d /\
  length (refIdx built3d) = 2%nat /\
  main [1] (1 / 2) 1 3 script3d = (1%nat, Some (Fatal NotConverged diverged3)).
Proof.
  split; [exact build3d|]. split; [reflexivity|].
  unfold main. rewrite build3d.
  change (length (refIdx built3d)) with 2%nat.
  cbn [refineLoop built3d built3 refIdx]. rewrite refine3d. reflexivity.
Qed.

Section NotConverged.

Context {AL : Type} `{ArcLengthIterator AL}.

(** X8: a run that ends in [NotConverged] ends at an iterator that reports
    no convergence: nothing but the tests of lines 384, 430 and 524 raises
    that error. *)
Lemma main_not_converged (Force : gsVector) (dL : R) (step0 maxLevel : nat)
    (al : AL) (n : nat) (s : @state AL) :
  main Force dL step0 maxLevel al = (n, Some (Fatal NotConverged s)) ->
  converged (arcLength s) = false.
Proof.
  unfold main.
  assert (post (build Force dL step0 maxLevel al) (fun _ => True)
            (fun f s => f = NotConverged -> converged (arcLength s) = false))
    as Hb.
  { unfold build, level0. cbv zeta. set (sti := State _ _ _ _ _).
    eapply post_bind with (Q1 := extends sti).
    - eapply post_weaken with (Q1 := extends sti) (E1 := halted sti).
      + eapply post_bind;
          [ apply (push_solution_frame sti), extends_refl
          | intros st1 Hst1; apply level0Steps_frame; exact Hst1 ].
      + intros a Ha. exact Ha.
      + intros f s0 [_ Hs0]. exact Hs0.
    - intros st1 Hst1.
      eapply post_bind with (Q1 := extends sti).
      + eapply post_weaken;
          [ apply (uniformLevels_frame sti); exact Hst1
          | intros a Ha; exact Ha
          | intros f s0 [_ Hs0]; exact Hs0 ].
      + intros st2 _. exact I. }
  destruct (build Force dL step0 maxLevel al) as [st|f s0]; simpl in Hb.
  - intros Hloop.
    pose proof (refineLoop_frame st Force dL _ st n _ (extends_refl st) Hloop)
      as [_ Hs].
    apply Hs. reflexivity.
  - intros [= _ -> ->]. apply Hb. reflexivity.
Qed.

End NotConverged.

(** ** A step that does not converge *)

Section Divergence.

Context {AL : Type} `{ArcLengthIterator AL}.

(** C6: when [step()] leaves the iterator not converged, each of the three
    step sites ends fatally at once, whatever code follows it, and the
    state at that moment holds the containers exactly as they were before
    the step. *)
Theorem diverged_step_is_fatal (l : nat) (st : @state AL) :
  converged (step (arcLength st)) = false ->
  let st1 := set_arcLength (step (arcLength st)) st in
  (forall (k : @state AL -> result (@state AL) (@state AL)),
     bind (stepAndStore l st) k = Fatal NotConverged st1) /\
  (forall (k : @state AL -> result (@state AL) (@state AL)),
     bind (stepAndRecord l st) k = Fatal NotConverged st1) /\
  level0Steps 1 st = Fatal NotConverged st1 /\
  solutions st1 = solutions st /\ points st1 = points st /\
  errors st1 = errors st /\ refIdx st1 = refIdx st.
Proof.
  intros Hc. cbv zeta.
  assert (stepAndStore l st
          = Fatal NotConverged (set_arcLength (step (arcLength st)) st))
    as Hs.
  { unfold stepAndStore. cbv zeta. simpl. rewrite Hc. reflexivity. }
  assert (stepAndStore 0 st
          = Fatal NotConverged (set_arcLength (step (arcLength st)) st))
    as Hs0.
  { unfold stepAndStore. cbv zeta. simpl. rewrite Hc. reflexivity. }
  assert (stepAndStore (l + 1) st
          = Fatal NotConverged (set_arcLength (step (arcLength st)) st))
    as Hs1.
  { unfold stepAndStore. cbv zeta. simpl. rewrite Hc. reflexivity. }
  repeat split.
  - intros k. rewrite Hs. reflexivity.
  - intros k. unfold stepAndRecord. rewrite Hs1. reflexivity.
  - simpl. rewrite Hs0. reflexivity.
Qed.

End Divergence.

Lemma diverged_step_is_fatal_witness :
  converged (step (arcLength stalled)) = false /\
  stepAndStore 1 stalled =
    Fatal NotConverged (set_arcLength [(false, ([7], 9))] stalled) /\
  solutions (set_arcLength [(false, ([7], 9))] stalled) = solutions stalled.
Proof.
  split; [reflexivity|].
  pose proof (diverged_step_is_fatal 1 stalled eq_refl)
    as (Hstore & _ & _ & Hsol & _).
  split; [|exact Hsol].
  exact (Hstore (fun s => Ok s)).
Defined.

(** ** Level 0 *)

Section LevelZero.

Context {AL : Type} `{ArcLengthIterator AL}.

Lemma level0Steps_Ok (k : nat) (st : @state AL) (lv : list point) :
  solutions st !! 0%nat = Some lv ->
  (forall j, (j < k)%nat ->
             converged (Nat.iter (S j) step (arcLength st)) = true) ->
  level0Steps k st =
    Ok (set_solutions
          (<[0%nat := lv ++ ((fun j => (solutionU (Nat.iter j step (arcLength st)),
                                        solutionL (Nat.iter j step (arcLength st))))
                               <$> seq 1 k)]> (solutions st))
          (set_arcLength (Nat.iter k step (arcLength st)) st)).
Proof.
  revert st lv. induction k as [|k IH]; intros st lv Hlv Hconv.
  - simpl. rewrite app_nil_r.
    rewrite list_insert_id by exact Hlv. destruct st; reflexivity.
  - cbn [level0Steps]. unfold stepAndStore. cbv zeta. simpl.
    pose proof (Hconv 0%nat ltac:(lia)) as Hc0. simpl in Hc0. rewrite Hc0.
    unfold push_solution, subscript. simpl.
    rewrite Hlv. simpl.
    set (pt := (solutionU (step (arcLength st)),
                solutionL (step (arcLength st)))).
    set (st1 := State _ _ _ _ _).
    rewrite (IH st1 (lv ++ [pt])).
    + subst st1. cbn [solutions points refIdx errors arcLength
                      set_solutions set_arcLength].
      rewrite list_insert_insert_eq, <- app_assoc, <- Nat.iter_succ_r.
      do 3 f_equal. cbn [app]. change (seq 1 (S k)) with (1%nat :: seq 2 k).
      do 2 f_equal. generalize 1%nat. clear.
      induction k as [|k IH]; intros start; simpl; [reflexivity|].
      rewrite <- Nat.iter_succ_r. f_equal. apply IH.
    + subst st1. simpl. apply list_lookup_insert_eq.
      apply lookup_lt_is_Some. eauto.
    + intros j Hj. subst st1. simpl. rewrite <- Nat.iter_succ_r.
      apply Hconv. lia.
Qed.

Lemma level0_Ok (Force : gsVector) (step0 maxLevel : nat) (al : AL) :
  (forall j, (j < step0)%nat ->
             converged (Nat.iter (S j) step (setIndicator 0 al)) = true) ->
  level0 Force step0 maxLevel al =
    Ok (State (((setZero (length Force), 0)
                :: ((fun j => (solutionU (Nat.iter j step (setIndicator 0 al)),
                               solutionL (Nat.iter j step (setIndicator 0 al))))
                      <$> seq 1 step0))
               :: repeat [] maxLevel)
          [] [] (repeat [] maxLevel)
          (Nat.iter step0 step (setIndicator 0 al))).
Proof.
  intros Hconv. unfold level0. cbv zeta.
  unfold push_solution, subscript. rewrite Nat.add_1_r. simpl.
  set (st1 := State _ _ _ _ _).
  rewrite (level0Steps_Ok step0 st1 [(setZero (length Force), 0)]);
    [reflexivity | reflexivity | exact Hconv].
Qed.

(** C8: with [dL = 0.5], [step = 10] and [maxLevel = 0], and ten steps
    that converge, the run ends normally without a round of the
    refinement loop.  Level 0 then holds 11 points: the reference point
    followed by the results of the ten steps, each step taken from the
    iterator as the step before has left it; no level above 0 holds a
    point, and the iterator is the one after the tenth step. *)
Theorem level0_eleven_points (Force : gsVector) (al : AL) :
  (forall j, (j < 10)%nat ->
             converged (Nat.iter (S j) step (setIndicator 0 al)) = true) ->
  exists st,
    main Force (1 / 2) 10 0 al = (0%nat, Some (Ok st)) /\
    length (level_points st 0) = 11%nat /\
    level_points st 0 !! 0%nat = Some (setZero (length Force), 0) /\
    (forall l, (1 <= l)%nat -> level_points st l = []) /\
    level_points st 0 =
      (setZero (length Force), 0)
      :: ((fun k => (solutionU (Nat.iter k step (setIndicator 0 al)),
                     solutionL (Nat.iter k step (setIndicator 0 al))))
            <$> seq 1 10) /\
    arcLength st = Nat.iter 10 step (setIndicator 0 al).
Proof.
  intros Hconv. unfold main, build.
  rewrite (level0_Ok Force 10 0 al Hconv).
  cbn [bind uniformLevels repeat].
  eexists. split; [reflexivity|]. unfold level_points.
  split; [reflexivity|]. split; [reflexivity|].
  split; [intros [|l] Hl; [lia | reflexivity]|].
  split; reflexivity.
Qed.

End LevelZero.

Lemma level0_eleven_points_witness :
  (forall j, (j < 10)%nat ->
             converged (Nat.iter (S j) step (setIndicator 0 script0)) = true) /\
  exists st,
    main [1] (1 / 2) 10 0 script0 = (0%nat, Some (Ok st)) /\
    length (level_points st 0) = 11%nat /\
    level_points st 0 !! 0%nat = Some (setZero (length [1]), 0) /\
    (forall l, (1 <= l)%nat -> level_points st l = []) /\
    level_points st 0 =
      (setZero (length [1]), 0)
      :: ((fun k => (solutionU (Nat.iter k step (setIndicator 0 script0)),
                     solutionL (Nat.iter k step (setIndicator 0 script0))))
            <$> seq 1 10) /\
    arcLength st = Nat.iter 10 step (setIndicator 0 script0).
Proof.
  assert (forall j, (j < 10)%nat ->
            converged (Nat.iter (S j) step (setIndicator 0 script0)) = true)
    as Hconv.
  { intros j Hj.
    do 10 (destruct j as [|j]; [reflexivity|]). lia. }
  split; [exact Hconv|].
  exact (level0_eleven_points [1] script0 Hconv).
Defined.

(** ** Stored points stay as they are *)

Section AppendOnly.

Context {AL : Type} `{ArcLengthIterator AL}.

Lemma perform_frame (Force : gsVector) (dL : R) (op : operation)
    (st : @state AL) :
  extends st (state_of (perform Force dL op st)).
Proof.
  apply post_state_of.
  eapply post_weaken with (E1 := halted st).
  - destruct op as [l pt| |U0 L0 level|dLi level p|maxLevel|t]; simpl.
    + apply push_solution_frame, extends_refl.
    + apply stepAndStore_frame, extends_refl.
    + apply uniformLevel_frame, extends_refl.
    + apply uniformInterval_frame, extends_refl.
    + apply extends_same. reflexivity.
    + apply refineTask_frame, extends_refl.
  - intros a Ha. exact Ha.
  - intros f s [Hs _]. exact Hs.
Qed.

Lemma later_extends (Force : gsVector) (dL : R) (st st' : @state AL) :
  later Force dL st st' -> extends st st'.
Proof.
  induction 1 as [st|st op st1 st2 Hop _ IH|st op f st1 Hop].
  - apply extends_refl.
  - eapply extends_trans; [|exact IH].
    pose proof (perform_frame Force dL op st) as Hf.
    rewrite Hop in Hf. exact Hf.
  - pose proof (perform_frame Force dL op st) as Hf.
    rewrite Hop in Hf. exact Hf.
Qed.

Lemma error_at_stored (st : @state AL) (l p : nat) (e : R) (row : list R)
    (errs : list (list R)) :
  errs !! l = Some row -> (p < length row)%nat ->
  errors st = <[l := <[p := e]> row]> errs ->
  error_at st l p = Some e.
Proof.
  intros Hrow Hp Herr. unfold error_at. rewrite Herr.
  rewrite list_lookup_insert_eq by (apply lookup_lt_is_Some; eauto).
  apply list_lookup_insert_eq. exact Hp.
Qed.

Lemma uniformInterval_compares (Force : gsVector) (dLi : R) (level p : nat)
    (pt : point) (st st' : @state AL) :
  (1 <= level)%nat ->
  level_points st (level - 1) !! (p + 1)%nat = Some pt ->
  uniformInterval Force dLi level p st = Ok st' ->
  exists e,
    error_at st' (level - 1) p = Some e /\
    errorEstimate Force pt (solutionU (arcLength st'))
      (solutionL (arcLength st')) dLi = Some e.
Proof.
  intros Hlevel Hpt Hu. apply uniformInterval_Ok in Hu.
  destruct Hu as (prev & old & guess & lv & prev2 & coarse & e & row & Hu).
  cbv zeta in Hu.
  destruct Hu as (Hprev & _ & _ & _ & _ & _ & Hsol & Hal & Hprev2 & Hcoarse
                  & He & Hrow & Hp & Herr & _).
  exists e. split; [eapply error_at_stored; eassumption|].
  rewrite Hsol in Hprev2. rewrite list_lookup_insert_ne in Hprev2 by lia.
  unfold level_points in Hpt. rewrite Hprev2 in Hpt. simpl in Hpt.
  rewrite Hcoarse in Hpt. injection Hpt as <-. rewrite Hal. exact He.
Qed.

Lemma refineTask_compares (Force : gsVector) (dL : R)
    (level reflevel pindex : nat) (pt : point) (st st' : @state AL) :
  level_points st level !! (pindex + 1)%nat = Some pt ->
  refineTask Force dL (level, reflevel, pindex) st = Ok st' ->
  exists e,
    error_at st' level pindex = Some e /\
    errorEstimate Force pt (solutionU (arcLength st'))
      (solutionL (arcLength st')) (dL / 2 ^ level) = Some e.
Proof.
  intros Hpt Hu. apply refineTask_Ok in Hu. cbv zeta in Hu.
  destruct Hu as (src & old & lv & src1 & guess & cmp & coarse & e & row & Hu).
  destruct Hu as (_ & _ & _ & _ & _ & _ & _ & Hsol & Hal & Hcmp & Hcoarse
                  & He & Hrow & Hp & Herr & _).
  exists e. split; [eapply error_at_stored; eassumption|].
  rewrite Hsol in Hcmp. rewrite list_lookup_insert_ne in Hcmp by lia.
  pose proof (ensureLevels_level_points level
                (set_refIdx (tail (refIdx st)) st) level) as Hlp.
  unfold level_points in Hlp at 1. rewrite Hcmp in Hlp. simpl in Hlp.
  change (level_points (set_refIdx (tail (refIdx st)) st) level)
    with (level_points st level) in Hlp.
  rewrite <- Hlp in Hpt. rewrite Hcoarse in Hpt. injection Hpt as <-.
  rewrite Hal. exact He.
Qed.

(** C7: whatever operations of the run follow, a point stored at a level
    and index is still there, unchanged; and an error computed later, in a
    uniform interval or in a task of the refinement loop, is the estimate
    against the point as it was first stored. *)
Theorem stored_points_persist (Force : gsVector) (dL : R)
    (st st' : @state AL) :
  later Force dL st st' ->
  (forall l i pt, level_points st l !! i = Some pt ->
                  level_points st' l !! i = Some pt) /\
  (forall dLi level p pt st'',
     (1 <= level)%nat ->
     level_points st (level - 1) !! (p + 1)%nat = Some pt ->
     uniformInterval Force dLi level p st' = Ok st'' ->
     exists e,
       error_at st'' (level - 1) p = Some e /\
       errorEstimate Force pt (solutionU (arcLength st''))
         (solutionL (arcLength st'')) dLi = Some e) /\
  (forall level reflevel pindex pt st'',
     level_points st level !! (pindex + 1)%nat = Some pt ->
     refineTask Force dL (level, reflevel, pindex) st' = Ok st'' ->
     exists e,
       error_at st'' level pindex = Some e /\
       errorEstimate Force pt (solutionU (arcLength st''))
         (solutionL (arcLength st'')) (dL / 2 ^ level) = Some e).
Proof.
  intros Hlater. apply later_extends in Hlater.
  split; [|split].
  - intros l i pt. apply extends_lookup. exact Hlater.
  - intros dLi level p pt st'' Hlevel Hpt.
    apply uniformInterval_compares; [exact Hlevel|].
    eapply extends_lookup; eassumption.
  - intros level reflevel pindex pt st'' Hpt.
    apply refineTask_compares. eapply extends_lookup; eassumption.
Qed.

End AppendOnly.

Lemma stored_points_persist_witness :
  later [1] (1 / 2) built3 refined3a /\
  level_points refined3a 3 !! 8%nat = Some ([0], 2) /\
  exists e,
    error_at refined3b 2 1 = Some e /\
    errorEstimate [1] ([0], 1) (solutionU (arcLength refined3b))
      (solutionL (arcLength refined3b)) (1 / 2 / 2 ^ 2) = Some e.
Proof.
  assert (later [1] (1 / 2) built3 refined3a) as Hlater.
  { apply (later_op [1] (1 / 2) built3 (OpRefine (2, 0, 0)%nat)
             refined3a refined3a); [exact refine3a | apply later_now]. }
  split; [exact Hlater|].
  destruct (stored_points_persist [1] (1 / 2) built3 refined3a Hlater)
    as (Hkeep & _ & Hrefine).
  split.
  - apply Hkeep. reflexivity.
  - apply (Hrefine 2%nat 1%nat 1%nat ([0], 1) refined3b);
      [reflexivity | exact refine3b].
Defined.

(** ** What one interval or task does to the store and to the queue *)

Section Tasks.

Context {AL : Type} `{ArcLengthIterator AL}.

Lemma level_points_of_push (st st' : @state AL) (sols : list (list point))
    (l : nat) (lv ext : list point) :
  sols !! l = Some lv -> solutions st' = <[l := lv ++ ext]> sols ->
  (forall k, default [] (sols !! k) = level_points st k) ->
  level_points st' l = level_points st l ++ ext /\
  (forall k, k <> l -> level_points st' k = level_points st k).
Proof.
  intros Hl Hsol Hsame. unfold level_points at 1 3. rewrite Hsol. split.
  - rewrite list_lookup_insert_eq by (apply lookup_lt_is_Some; eauto).
    simpl. rewrite <- Hsame, Hl. reflexivity.
  - intros k Hk. rewrite list_lookup_insert_ne by congruence. apply Hsame.
Qed.

(** C2, as the code has it: a finished interval of a uniform level has
    made exactly two steps, both converged, and has appended their two
    results to its level and nothing to any other; a finished task of the
    refinement loop has made exactly two steps, both converged, and has
    appended three points to one level (the one after its first
    component) and nothing to any other: a copy of its start point, then
    the two step results. *)
Theorem task_steps_and_points (Force : gsVector) (dL : R)
    (st st' : @state AL) :
  (forall dLi level p,
     uniformInterval Force dLi level p st = Ok st' ->
     exists old guess,
       let a1 := step (prepared old guess (arcLength st)) in
       let a2 := step a1 in
       converged a1 = true /\ converged a2 = true /\ arcLength st' = a2 /\
       level_points st' level =
         level_points st level ++ [(solutionU a1, solutionL a1);
                                   (solutionU a2, solutionL a2)] /\
       forall l, l <> level -> level_points st' l = level_points st l) /\
  (forall level reflevel pindex,
     refineTask Force dL (level, reflevel, pindex) st = Ok st' ->
     exists old guess,
       level_points st reflevel !! pindex = Some old /\
       let a1 := step (setLength (dL / 2 ^ level)
                         (prepared old guess (arcLength st))) in
       let a2 := step a1 in
       converged a1 = true /\ converged a2 = true /\ arcLength st' = a2 /\
       level_points st' (level + 1) =
         level_points st (level + 1) ++ [old; (solutionU a1, solutionL a1);
                                         (solutionU a2, solutionL a2)] /\
       forall l, l <> (level + 1)%nat ->
                 level_points st' l = level_points st l).
Proof.
  split.
  - intros dLi level p Hu. apply uniformInterval_Ok in Hu.
    destruct Hu as (prev & old & guess & lv & prev2 & coarse & e & row & Hu).
    cbv zeta in Hu.
    destruct Hu as (_ & _ & _ & Hlv & Hc1 & Hc2 & Hsol & Hal & _).
    exists old, guess. cbv zeta.
    split; [exact Hc1|]. split; [exact Hc2|]. split; [exact Hal|].
    apply (level_points_of_push st st' (solutions st) level lv);
      [exact Hlv | exact Hsol | reflexivity].
  - intros level reflevel pindex Hu. apply refineTask_Ok in Hu.
    cbv zeta in Hu.
    destruct Hu as (src & old & lv & src1 & guess & cmp & coarse & e & row
                    & Hu).
    destruct Hu as (Hsrc & Hold & Hlv & _ & _ & Hc1 & Hc2 & Hsol & Hal & _).
    pose proof (ensureLevels_level_points level
                  (set_refIdx (tail (refIdx st)) st)) as Hlp.
    exists old, guess. cbv zeta.
    split.
    { specialize (Hlp reflevel). unfold level_points in Hlp at 1.
      rewrite Hsrc in Hlp. simpl in Hlp.
      change (level_points (set_refIdx (tail (refIdx st)) st) reflevel)
        with (level_points st reflevel) in Hlp.
      rewrite <- Hlp. exact Hold. }
    split; [exact Hc1|]. split; [exact Hc2|]. split; [exact Hal|].
    apply (level_points_of_push st st'
             (solutions (ensureLevels level
                           (set_refIdx (tail (refIdx st)) st)))
             (level + 1) lv);
      [exact Hlv | exact Hsol | exact Hlp].
Qed.

(** C3, as the code has it: a finished interval of a uniform level whose
    stored error exceeds [ptol] has added exactly two tasks at the end of
    the queue, [(level+1, level-1, p)] and [(level+1, level, m)] with [m]
    the index of the first of the two points it appended, and has left the
    queue alone otherwise; a finished task of the refinement loop has left
    the queue without its head and with nothing added, whatever its
    error. *)
Theorem enqueue_rule (Force : gsVector) (dL : R) (st st' : @state AL) :
  (forall dLi level p,
     uniformInterval Force dLi level p st = Ok st' ->
     exists e,
       error_at st' (level - 1) p = Some e /\
       length (level_points st' level)
         = (length (level_points st level) + 2)%nat /\
       (e > ptol ->
        refIdx st' =
          refIdx st ++ [(level + 1, level - 1, p);
                        (level + 1, level,
                         length (level_points st level))]%nat) /\
       (e <= ptol -> refIdx st' = refIdx st)) /\
  (forall t, refineTask Force dL t st = Ok st' ->
             refIdx st' = tail (refIdx st)).
Proof.
  split.
  - intros dLi level p Hu. apply uniformInterval_Ok in Hu.
    destruct Hu as (prev & old & guess & lv & prev2 & coarse & e & row & Hu).
    cbv zeta in Hu.
    destruct Hu as (_ & _ & _ & Hlv & _ & _ & Hsol & _ & _ & _ & _
                    & Hrow & Hp & Herr & Hq).
    exists e. split; [eapply error_at_stored; eassumption|].
    destruct (level_points_of_push st st' (solutions st) level lv _
                Hlv Hsol (fun k => eq_refl)) as [Hnew _].
    assert (level_points st level = lv) as Hlevel.
    { unfold level_points. rewrite Hlv. reflexivity. }
    split; [rewrite Hnew, length_app; reflexivity|].
    rewrite Hlevel. split.
    + intros Hgt. destruct (Rgt_dec e ptol); [exact Hq | contradiction].
    + intros Hle. destruct (Rgt_dec e ptol) as [Hgt|_]; [|exact Hq].
      exfalso. unfold Rgt in Hgt. lra.
  - intros t. apply refineTask_pops.
Qed.

End Tasks.

Lemma task_steps_and_points_witness :
  (uniformInterval [1] (1 / 2 / 2 ^ 1) 1 0 seeded1 = Ok walked1 /\
   level_points walked1 1 = level_points seeded1 1 ++ loaded [1; 2] /\
   level_points walked1 0 = level_points seeded1 0) /\
  (refineTask [1] (1 / 2) (2, 0, 0)%nat built3 = Ok refined3a /\
   level_points refined3a 3 = level_points built3 3 ++ loaded [0; 0; 1] /\
   level_points refined3a 2 = level_points built3 2).
Proof.
  split.
  - split; [exact interval1|].
    destruct (proj1 (task_steps_and_points [1] (1 / 2) seeded1 walked1)
                (1 / 2 / 2 ^ 1) 1%nat 0%nat interval1)
      as (old & guess & _ & _ & _ & Hnew & Hother).
    split; [reflexivity|]. apply Hother. discriminate.
  - split; [exact refine3a|].
    destruct (proj2 (task_steps_and_points [1] (1 / 2) built3 refined3a)
                2%nat 0%nat 0%nat refine3a)
      as (old & guess & _ & _ & _ & _ & Hnew & Hother).
    split; [reflexivity|]. apply Hother. discriminate.
Defined.

(** C2 as stated fails for a task of the refinement loop: the finished
    task [(2,0,0)] of the run with [maxLevel = 3] has appended nothing to
    its level 2 and three points to level 3. *)
Lemma refine_appends_three :
  build [1] (1 / 2) 1 3 script3 = Ok built3 /\
  refIdx built3 = [(2, 0, 0); (2, 1, 1)]%nat /\
  refineTask [1] (1 / 2) (2, 0, 0)%nat built3 = Ok refined3a /\
  level_points refined3a 2 = level_points built3 2 /\
  level_points refined3a 3 = level_points built3 3 ++ loaded [0; 0; 1].
Proof.
  split; [exact build3|]. split; [reflexivity|].
  split; [exact refine3a|]. split; reflexivity.
Qed.

Lemma enqueue_rule_witness :
  (uniformInterval [1] (1 / 2 / 2 ^ 1) 1 0 seeded1 = Ok walked1 /\
   exists e,
     error_at walked1 (1 - 1) 0 = Some e /\
     length (level_points walked1 1)
       = (length (level_points seeded1 1) + 2)%nat /\
     (e > ptol ->
      refIdx walked1 =
        refIdx seeded1 ++ [(1 + 1, 1 - 1, 0);
                           (1 + 1, 1, length (level_points seeded1 1))]%nat) /\
     (e <= ptol -> refIdx walked1 = refIdx seeded1)) /\
  (refineTask [1] (1 / 2) (2, 0, 0)%nat built3 = Ok refined3a /\
   refIdx refined3a = tail (refIdx built3)).
Proof.
  split.
  - split; [exact interval1|].
    exact (proj1 (enqueue_rule [1] (1 / 2) seeded1 walked1)
             (1 / 2 / 2 ^ 1) 1%nat 0%nat interval1).
  - split; [exact refine3a|].
    exact (proj2 (enqueue_rule [1] (1 / 2) built3 refined3a)
             (2, 0, 0)%nat refine3a).
Defined.

(** C3 as stated fails for a task of the refinement loop: the finished
    task [(2,0,0)] of the run with [maxLevel = 3] stored an error above
    [ptol] and added no task to the queue. *)
Lemma refine_enqueues_nothing :
  build [1] (1 / 2) 1 3 script3 = Ok built3 /\
  refIdx built3 = [(2, 0, 0); (2, 1, 1)]%nat /\
  refineTask [1] (1 / 2) (2, 0, 0)%nat built3 = Ok refined3a /\
  (exists e, error_at refined3a 2 0 = Some e /\ e > ptol) /\
  refIdx refined3a = [(2, 1, 1)]%nat.
Proof.
  split; [exact build3|]. split; [reflexivity|].
  split; [exact refine3a|]. split; [|reflexivity].
  exists (est 3 1 2). split; [reflexivity|]. real_arith.
Qed.

(** ** The point at index 0 *)

Section FirstPoint.

Context {AL : Type} `{ArcLengthIterator AL}.

Lemma main_heads (Force : gsVector) (dL : R) (step0 maxLevel : nat) (al : AL)
    (n : nat) (r : result (@state AL) (@state AL)) :
  main Force dL step0 maxLevel al = (n, Some r) ->
  forall l pt, (l <= maxLevel)%nat ->
               level_points (state_of r) l !! 0%nat = Some pt ->
               pt = (setZero (length Force), 0).
Proof.
  unfold main. intros Hmain l pt Hl Hpt.
  pose proof (build_heads Force dL step0 maxLevel al) as Hb.
  destruct (build Force dL step0 maxLevel al) as [st|f s]; simpl in Hb.
  - destruct Hb as [Hh Hfull].
    pose proof (refineLoop_frame st Force dL _ st n r (extends_refl st) Hmain)
      as Hr.
    assert (extends st (state_of r)) as Hext.
    { destruct r as [a|f s]; simpl in *; [exact Hr | apply Hr]. }
    specialize (Hfull l ltac:(lia)).
    destruct (level_points st l) as [|x tl] eqn:Hlv; [contradiction|].
    assert (level_points st l !! 0%nat = Some x) as Hx
      by (rewrite Hlv; reflexivity).
    pose proof (extends_lookup _ _ _ _ _ Hext Hx) as Hx'.
    rewrite Hx' in Hpt. injection Hpt as <-. exact (Hh l x Hx).
  - injection Hmain as _ <-. simpl in Hpt. exact (Hb l pt Hpt).
Qed.

Lemma push_solution_first (l : nat) (pt : point) (st : @state AL) :
  level_points st l = [] ->
  post (push_solution l pt st)
    (fun s => level_points s l !! 0%nat = Some pt /\ extends st s)
    (fun _ s => level_points s l = []).
Proof.
  intros Hnil. unfold push_solution.
  apply post_subscript; [exact Hnil|]. intros lv Hlv. simpl.
  split; [|apply extends_push; exact Hlv].
  rewrite (level_points_push st _ _ _ _ Hlv).
  rewrite decide_True by reflexivity.
  unfold level_points in Hnil. rewrite Hlv in Hnil. simpl in Hnil.
  rewrite Hnil. reflexivity.
Qed.

Lemma refineTask_first_point (Force : gsVector) (dL : R)
    (level reflevel pindex : nat) (st : @state AL) (pt : point) :
  level_points st (level + 1) = [] ->
  level_points (state_of (refineTask Force dL (level, reflevel, pindex) st))
    (level + 1) !! 0%nat = Some pt ->
  level_points st reflevel !! pindex = Some pt.
Proof.
  intros Hnil.
  set (P := fun s : @state AL =>
              level_points s (level + 1) !! 0%nat = Some pt ->
              level_points st reflevel !! pindex = Some pt).
  apply (proj1 (post_state_of _ P)).
  unfold refineTask. cbv zeta.
  pose proof (ensureLevels_level_points level
                (set_refIdx (tail (refIdx st)) st)) as Hlp.
  set (stg := ensureLevels level _) in *.
  change (forall l, level_points stg l = level_points st l) in Hlp.
  clearbody stg.
  assert (P stg) as Hvoid.
  { intros Hpt. rewrite Hlp, Hnil in Hpt. discriminate. }
  apply post_subscript; [exact Hvoid|]. intros src Hsrc.
  apply post_at; [exact Hvoid|]. intros old Hold.
  assert (level_points st reflevel !! pindex = Some old) as Hstart.
  { rewrite <- Hlp. unfold level_points. rewrite Hsrc. exact Hold. }
  eapply post_bind.
  { eapply post_weaken with (E2 := fun _ => P).
    - apply (push_solution_first (level + 1) old
               (set_arcLength _ stg)).
      change (level_points stg (level + 1) = []). rewrite Hlp. exact Hnil.
    - intros a Ha. exact Ha.
    - intros f s Hs Hpt. rewrite Hs in Hpt. discriminate. }
  intros st1 [Hfirst _].
  assert (forall s, extends st1 s -> P s) as Hkeep.
  { intros s Hs Hpt.
    rewrite (extends_lookup _ _ _ _ _ Hs Hfirst) in Hpt.
    injection Hpt as <-. exact Hstart. }
  assert (forall f s, halted st1 f s -> P s) as Hfatal.
  { intros f s [Hs _]. apply Hkeep. exact Hs. }
  pose proof (extends_refl st1) as Hst1.
  apply post_subscript; [apply Hkeep; exact Hst1|]. intros src1 Hsrc1.
  apply post_at; [apply Hkeep; exact Hst1|]. intros guess Hguess.
  eapply post_bind.
  { eapply post_weaken;
      [ apply (stepAndRecord_frame st1); exact Hst1
      | intros a Ha; exact Ha | exact Hfatal ]. }
  intros st2 Hst2.
  eapply post_bind.
  { eapply post_weaken;
      [ apply (stepAndRecord_frame st1); exact Hst2
      | intros a Ha; exact Ha | exact Hfatal ]. }
  intros st3 Hst3.
  apply post_subscript; [apply Hkeep; exact Hst3|]. intros cmp Hcmp.
  apply post_at; [apply Hkeep; exact Hst3|]. intros coarse Hcoarse.
  eapply post_bind.
  { eapply post_weaken;
      [ apply (storeError_frame st1); exact Hst3
      | intros a Ha; exact Ha | exact Hfatal ]. }
  intros st4 Hst4.
  apply post_subscript; [apply Hkeep; exact Hst4|]. intros row Hrow.
  apply post_at; [apply Hkeep; exact Hst4|]. intros e He.
  destruct (Rgt_dec e ptol); apply Hkeep; exact Hst4.
Qed.

(** C5, as the code has it: however the run ends, each of the levels
    [0..maxLevel] that holds a point holds the reference point at index
    0; a level without points that a task of the refinement loop writes
    to gets at index 0 a copy of the start point of that task. *)
Theorem level_heads (Force : gsVector) (dL : R) (step0 maxLevel : nat)
    (al : AL) (n : nat) (r : result (@state AL) (@state AL)) :
  main Force dL step0 maxLevel al = (n, Some r) ->
  (forall l pt, (l <= maxLevel)%nat ->
                level_points (state_of r) l !! 0%nat = Some pt ->
                pt = (setZero (length Force), 0)) /\
  (forall level reflevel pindex st pt,
     level_points st (level + 1) = [] ->
     level_points
       (state_of (refineTask Force dL (level, reflevel, pindex) st))
       (level + 1) !! 0%nat = Some pt ->
     level_points st reflevel !! pindex = Some pt).
Proof.
  intros Hmain. split.
  - apply (main_heads Force dL step0 maxLevel al n r Hmain).
  - intros level reflevel pindex st pt. apply refineTask_first_point.
Qed.

End FirstPoint.

Lemma level_heads_witness :
  main [1] (1 / 2) 2 2 script2 = (1%nat, Some (Fatal OutOfRange thrown2)) /\
  (forall l pt, (l <= 2)%nat ->
                level_points thrown2 l !! 0%nat = Some pt ->
                pt = (setZero (length [1]), 0)) /\
  level_points built2 0 !! 1%nat = Some ([0], 1).
Proof.
  split; [exact main2|].
  destruct (level_heads [1] (1 / 2) 2 2 script2 1
              (Fatal OutOfRange thrown2) main2) as [Hlow Hnew].
  split; [exact Hlow|].
  apply (Hnew 2%nat 0%nat 1%nat built2 ([0], 1)); [reflexivity|].
  rewrite refine2. reflexivity.
Defined.

(** C5 as stated fails for a level that the refinement loop is the first
    to write to: in the run with [maxLevel = 2] and [step = 2] the task
    [(2,0,1)] puts its start point, with load factor 1, at index 0 of
    level 3. *)
Lemma refined_level_head :
  main [1] (1 / 2) 2 2 script2 = (1%nat, Some (Fatal OutOfRange thrown2)) /\
  level_points built2 3 = [] /\
  level_points thrown2 3 !! 0%nat = Some ([0], 1) /\
  ([0], 1) <> (setZero (length [1]), 0).
Proof.
  split; [exact main2|]. split; [reflexivity|]. split; [reflexivity|].
  intros [= Hone]. lra.
Qed.

(** ** The refinement loop on concrete runs *)

(** C1 on the run with [maxLevel = 3] and [step = 1], which reaches line
    534: for the task [(2,0,0)] the estimate of the coarse endpoint (level
    0, index 1) against the second fine result at [dL/2^2] is 0, but the
    entry [errors[0][0]] keeps its value 4 from the uniform level 1; the
    task writes 16, the estimate against point 1 of level 2, over the
    entry [errors[2][0]], which was 0. *)
Theorem refine_error_slot :
  main [1] (1 / 2) 1 3 script3 = (2%nat, Some (Ok refined3b)) /\
  build [1] (1 / 2) 1 3 script3 = Ok built3 /\
  refineTask [1] (1 / 2) (2, 0, 0)%nat built3 = Ok refined3a /\
  (exists coarse e,
     level_points built3 0 !! 1%nat = Some coarse /\
     errorEstimate [1] coarse (solutionU (arcLength refined3a))
       (solutionL (arcLength refined3a)) (1 / 2 / 2 ^ 2) = Some e /\
     e = 0) /\
  error_at refined3a 0 0 = error_at built3 0 0 /\
  (exists e, error_at refined3a 0 0 = Some e /\ e = 4) /\
  (exists e, error_at built3 2 0 = Some e /\ e = 0) /\
  (exists e, error_at refined3a 2 0 = Some e /\ e = 16) /\
  level_points built3 2 !! 1%nat = Some ([0], 3).
Proof.
  split; [exact main3|]. split; [exact build3|]. split; [exact refine3a|].
  split.
  { exists ([0], 1), (est 1 1 2). split; [reflexivity|].
    split; [reflexivity|]. real_arith. }
  split; [reflexivity|].
  split; [exists (est 1 2 1); split; [reflexivity | real_arith]|].
  split; [exists (est 3 3 3); split; [reflexivity | real_arith]|].
  split; [exists (est 3 1 2); split; [reflexivity | real_arith]|].
  reflexivity.
Qed.

(** C4 on two runs.  With [maxLevel = 1] the task [(2,0,0)] uses
    [solutions[3]] at line 507 while [solutions] has three levels.  With
    [maxLevel = 2] the task [(2,0,1)] calls [solutions[3].at(4)] at line
    530 while level 3 has two points. *)
Theorem refine_out_of_bounds :
  (main [1] (1 / 2) 1 1 script1 = (1%nat, Some (Fatal Undefined undefined1)) /\
   refIdx built1 = [(2, 0, 0); (2, 1, 1)]%nat /\
   length (solutions undefined1) = 3%nat) /\
  (main [1] (1 / 2) 2 2 script2 = (1%nat, Some (Fatal OutOfRange thrown2)) /\
   refIdx built2 = [(2, 0, 1); (2, 1, 3)]%nat /\
   length (level_points thrown2 3) = 2%nat /\
   (length (solutions thrown2) - 1)%nat = 4%nat).
Proof.
  split.
  - split; [exact main1|]. split; reflexivity.
  - split; [exact main2|]. repeat split; reflexivity.
Qed.

(** ** The uniform phase as a whole *)

Section UniformPhase.

Context {AL : Type} `{ArcLengthIterator AL}.

Lemma level0Steps_shape (k : nat) (st st' : @state AL) (lv : list point) :
  solutions st !! 0%nat = Some lv ->
  level0Steps k st = Ok st' ->
  exists new,
    length new = k /\
    solutions st' = <[0%nat := lv ++ new]> (solutions st) /\
    errors st' = errors st /\ refIdx st' = refIdx st.
Proof.
  revert st lv. induction k as [|k IH]; intros st lv Hlv; simpl.
  - intros [= <-]. exists []. rewrite app_nil_r.
    rewrite list_insert_id by exact Hlv. auto.
  - intros Hrun. apply bind_Ok in Hrun as (st1 & Hs & Hrun).
    apply stepAndStore_Ok in Hs as (lv0 & Hlv0 & _ & ->).
    rewrite Hlv in Hlv0. injection Hlv0 as <-.
    eapply IH in Hrun as (new & Hlen & Hsol & Herr & Hq).
    2:{ simpl. apply list_lookup_insert_eq. apply lookup_lt_is_Some. eauto. }
    simpl in Hsol, Herr, Hq.
    rewrite list_insert_insert_eq, <- app_assoc in Hsol.
    eexists. split; [|split; [exact Hsol | split; assumption]].
    simpl. lia.
Qed.

Lemma intervalLoop_Ok (Force : gsVector) (dLi : R) (level : nat) :
  (1 <= level)%nat ->
  forall (n p : nat) (st st' : @state AL) (lv : list point) (row : list R),
    solutions st !! level = Some lv -> length lv = (2 * p + 1)%nat ->
    errors st !! (level - 1)%nat = Some row ->
    intervalLoop Force dLi level n p st = Ok st' ->
    exists new row',
      length new = (2 * n)%nat /\
      solutions st' = <[level := lv ++ new]> (solutions st) /\
      length row' = length row /\
      (forall q, (q < p)%nat -> row' !! q = row !! q) /\
      errors st' = <[(level - 1)%nat := row']> (errors st) /\
      refIdx st' = refIdx st ++ flat_map (flagged_tasks row' level) (seq p n).
Proof.
  intros Hlevel. induction n as [|n IH]; intros p st st' lv row Hlv Hlen Hrow;
    simpl.
  - intros [= <-]. exists [], row. rewrite !app_nil_r.
    rewrite !list_insert_id by assumption. auto 10.
  - intros Hrun. apply bind_Ok in Hrun as (st1 & Hu & Hrun).
    apply uniformInterval_Ok in Hu.
    destruct Hu as (prev & old & guess & lv0 & prev2 & coarse & e & row0
                    & Hu).
    cbv zeta in Hu.
    destruct Hu as (_ & _ & _ & Hlv0 & _ & _ & Hsol1 & _ & _ & _ & _
                    & Hrow0 & Hp & Herr1 & Hq1).
    rewrite Hlv in Hlv0. injection Hlv0 as <-.
    rewrite Hrow in Hrow0. injection Hrow0 as <-.
    eapply (IH (S p)) in Hrun as (new & row' & Hnew & Hsol & Hrl & Hold
                                  & Herr & Hq).
    2:{ rewrite Hsol1. apply list_lookup_insert_eq.
        apply lookup_lt_is_Some. eauto. }
    2:{ rewrite length_app. simpl. lia. }
    2:{ rewrite Herr1. apply list_lookup_insert_eq.
        apply lookup_lt_is_Some. eauto. }
    rewrite Hsol1, list_insert_insert_eq, <- app_assoc in Hsol.
    rewrite Herr1, list_insert_insert_eq in Herr.
    rewrite length_insert in Hrl.
    eexists _, row'. split; [|split; [exact Hsol|]].
    { rewrite length_app. simpl. lia. }
    split; [exact Hrl|]. split.
    { intros q Hq'. rewrite Hold by lia.
      apply list_lookup_insert_ne. lia. }
    split; [exact Herr|].
    rewrite Hq, Hq1. simpl.
    assert (row' !! p = Some e) as Hrp.
    { rewrite Hold by lia. apply list_lookup_insert_eq. exact Hp. }
    unfold flagged_tasks at 2. rewrite Hrp, Hlen.
    destruct (Rgt_dec e ptol); [|reflexivity].
    rewrite <- app_assoc. reflexivity.
Qed.

Lemma uniformLevel_Ok (U0 : gsVector) (L0 : R) (Force : gsVector) (dL : R)
    (level : nat) (st st' : @state AL) (prev : list point) :
  (1 <= level)%nat ->
  solutions st !! (level - 1)%nat = Some prev ->
  solutions st !! level = Some [] ->
  uniformLevel U0 L0 Force dL level st = Ok st' ->
  exists new row',
    prev <> [] /\
    length new = (2 * (length prev - 1))%nat /\
    solutions st' = <[level := (U0, L0) :: new]> (solutions st) ++ [[]] /\
    length row' = length prev /\
    errors st' = <[(level - 1)%nat := row']> (errors st) /\
    refIdx st' =
      refIdx st ++ flat_map (flagged_tasks row' level) (seq 0 (length prev - 1)).
Proof.
  intros Hlevel Hprev Hempty. unfold uniformLevel. intros Hrun.
  apply bind_Ok in Hrun as (prev0 & Hprev0 & Hrun).
  apply subscript_Ok in Hprev0. rewrite Hprev in Hprev0.
  injection Hprev0 as <-.
  apply bind_Ok in Hrun as (row & Hrow & Hrun). apply subscript_Ok in Hrow.
  apply bind_Ok in Hrun as (st1 & Hpush & Hrun).
  apply push_solution_Ok in Hpush as (lv & Hlv & ->). simpl in Hlv.
  rewrite Hempty in Hlv. injection Hlv as <-.
  apply bind_Ok in Hrun as (st2 & Hloop & Hrun). injection Hrun as <-.
  assert (prev <> [] /\
          Z.to_nat (pred_size_t (length prev)) = (length prev - 1)%nat)
    as [Hne Hcount].
  { destruct prev as [|x prev];
      [|split; [discriminate | cbn [length pred_size_t]; lia]].
    exfalso. cbn [length pred_size_t] in Hloop.
    remember (Z.to_nat (2 ^ 64 - 1)) as big eqn:Hbig.
    destruct big as [|n]; [lia|].
    cbn [intervalLoop] in Hloop. apply bind_Ok in Hloop as (st3 & Hu & _).
    apply uniformInterval_Ok in Hu.
    destruct Hu as (prev1 & old & guess & lv0 & prev2 & coarse & e & row0
                    & Hu).
    destruct Hu as (Hprev1 & Hold & _). simpl in Hprev1.
    rewrite list_lookup_insert_ne in Hprev1 by lia.
    rewrite Hprev in Hprev1. injection Hprev1 as <-. discriminate Hold. }
  rewrite Hcount in Hloop.
  eapply (intervalLoop_Ok Force _ level Hlevel) in Hloop
    as (new & row' & Hnew & Hsol & Hrl & _ & Herr & Hq).
  2:{ simpl. apply list_lookup_insert_eq. apply lookup_lt_is_Some. eauto. }
  2:{ reflexivity. }
  2:{ simpl. apply list_lookup_insert_eq. apply lookup_lt_is_Some. eauto. }
  simpl in Hsol, Herr, Hq.
  rewrite list_insert_insert_eq in Hsol.
  rewrite list_insert_insert_eq in Herr.
  rewrite length_resize in Hrl.
  exists new, row'. simpl. rewrite Hsol, Herr, Hq. auto 10.
Qed.

Lemma level_points_lookup (st : @state AL) (l : nat) :
  level_points st l <> [] -> solutions st !! l = Some (level_points st l).
Proof.
  unfold level_points. destruct (solutions st !! l); simpl; congruence.
Qed.

Lemma queued_ext (step0 : nat) (errs errs' : list (list R)) (m : nat) :
  (forall l, (l < m)%nat -> errs' !! l = errs !! l) ->
  queued step0 errs' m = queued step0 errs m.
Proof.
  intros Hsame. unfold queued. rewrite !flat_map_concat_map. f_equal.
  apply map_ext_in. intros level Hin. apply in_seq in Hin.
  unfold level_tasks. rewrite Hsame by lia. reflexivity.
Qed.

Lemma queued_next (step0 : nat) (errs : list (list R)) (m : nat) :
  queued step0 errs (S m) =
  queued step0 errs m ++ level_tasks errs (step0 * 2 ^ m) (S m).
Proof.
  unfold queued. rewrite seq_S, flat_map_app. simpl.
  rewrite app_nil_r, Nat.sub_0_r. reflexivity.
Qed.

Lemma uniformLevel_shaped (U0 : gsVector) (L0 : R) (Force : gsVector)
    (dL : R) (step0 maxLevel k : nat) (st st' : @state AL) :
  (1 <= k <= maxLevel)%nat -> shaped step0 maxLevel k st ->
  uniformLevel U0 L0 Force dL k st = Ok st' ->
  shaped step0 maxLevel (S k) st'.
Proof.
  intros [Hk HkM] (Hlen & Hel & Hsizes & Hempty & Hrows & Hq) Hrun.
  destruct k as [|k]; [lia|].
  assert (solutions st !! k = Some (level_points st k)) as Hprev.
  { apply level_points_lookup. intros Hnil.
    specialize (Hsizes k ltac:(lia)). rewrite Hnil in Hsizes.
    simpl in Hsizes. lia. }
  assert (solutions st !! S k = Some []) as Hcur.
  { specialize (Hempty (S k) ltac:(lia)). unfold level_points in Hempty.
    destruct (solutions st !! S k) as [lv|] eqn:Hlv.
    - simpl in Hempty. congruence.
    - apply lookup_ge_None_1 in Hlv. lia. }
  replace k with (S k - 1)%nat in Hprev by lia.
  destruct (uniformLevel_Ok U0 L0 Force dL (S k) st st' _ Hk Hprev Hcur Hrun)
    as (new & row' & _ & Hnew & Hsol & Hrl & Herr & Hq').
  replace (S k - 1)%nat with k in * by lia.
  pose proof (Hsizes k ltac:(lia)) as Hsk.
  rewrite Hsk in Hnew. rewrite Hsk in Hrl. rewrite Hsk in Hq'.
  replace (step0 * 2 ^ k + 1 - 1)%nat with (step0 * 2 ^ k)%nat
    in Hnew, Hq' by lia.
  assert (forall l, level_points st' l =
            if decide (l = S k) then (U0, L0) :: new else level_points st l)
    as Hlp.
  { intros l. unfold level_points. rewrite Hsol.
    destruct (decide (l = S k)) as [->|Hne].
    - rewrite lookup_app_l by (rewrite length_insert; lia).
      rewrite list_lookup_insert_eq by lia. reflexivity.
    - destruct (decide (l < length (solutions st))%nat) as [Hlt|Hge].
      + rewrite lookup_app_l by (rewrite length_insert; lia).
        rewrite list_lookup_insert_ne by congruence. reflexivity.
      + rewrite lookup_app_r by (rewrite length_insert; lia).
        rewrite length_insert.
        rewrite (lookup_ge_None_2 (solutions st)) by lia.
        destruct (l - length (solutions st))%nat as [|d]; reflexivity. }
  assert ((k < length (errors st))%nat) as Hklt by lia.
  split; [|split; [|split; [|split; [|split]]]].
  - rewrite Hsol, length_app, length_insert. simpl. lia.
  - rewrite Herr, length_insert. exact Hel.
  - intros l Hl. rewrite Hlp. destruct (decide (l = S k)) as [->|Hne].
    + simpl. rewrite Hnew. simpl. lia.
    + apply Hsizes. lia.
  - intros l Hl. rewrite Hlp. rewrite decide_False by lia.
    apply Hempty. lia.
  - intros l Hl. rewrite Herr. destruct (decide (l = k)) as [->|Hne].
    + exists row'. rewrite list_lookup_insert_eq by exact Hklt. auto.
    + rewrite list_lookup_insert_ne by congruence. apply Hrows. lia.
  - replace (S (S k) - 1)%nat with (S k) by lia.
    rewrite queued_next, Hq', Hq. f_equal.
    + replace (S k - 1)%nat with k by lia. rewrite Herr. symmetry.
      apply queued_ext. intros l Hl.
      apply list_lookup_insert_ne. lia.
    + unfold level_tasks. replace (S k - 1)%nat with k by lia.
      rewrite Herr, list_lookup_insert_eq by exact Hklt. reflexivity.
Qed.

Lemma uniformLevels_shaped (U0 : gsVector) (L0 : R) (Force : gsVector)
    (dL : R) (step0 maxLevel n k : nat) (st st' : @state AL) :
  (1 <= k)%nat -> (k + n <= maxLevel + 1)%nat -> shaped step0 maxLevel k st ->
  uniformLevels U0 L0 Force dL n k st = Ok st' ->
  shaped step0 maxLevel (k + n) st'.
Proof.
  revert k st. induction n as [|n IH]; intros k st Hk Hkn Hst; simpl.
  - intros [= <-]. rewrite Nat.add_0_r. exact Hst.
  - intros Hrun. apply bind_Ok in Hrun as (st1 & Hl & Hrun).
    replace (k + S n)%nat with (S k + n)%nat by lia.
    apply (IH (S k) st1); [lia | lia | | exact Hrun].
    eapply uniformLevel_shaped; [|exact Hst | exact Hl]. lia.
Qed.

Lemma level0_shaped (Force : gsVector) (step0 maxLevel : nat) (al : AL)
    (st0 : @state AL) :
  level0 Force step0 maxLevel al = Ok st0 ->
  shaped step0 maxLevel 1 st0 /\ errors st0 = repeat [] maxLevel.
Proof.
  intros H0. unfold level0 in H0. cbv zeta in H0.
  apply bind_Ok in H0 as (sti & Hpush & H0).
  apply push_solution_Ok in Hpush as (lv & Hlv & ->). simpl in Hlv.
  rewrite Nat.add_1_r in Hlv. simpl in Hlv. injection Hlv as <-.
  eapply level0Steps_shape in H0 as (new & Hnew & Hsol & Herr & Hq).
  2:{ simpl. rewrite Nat.add_1_r. reflexivity. }
  simpl in Hsol, Herr, Hq. rewrite Nat.add_1_r in Hsol. simpl in Hsol.
  split; [|exact Herr].
  unfold shaped, level_points.
  rewrite Hsol, Herr, Hq. simpl.
  split; [rewrite repeat_length; lia|].
  split; [apply repeat_length|].
  split.
  { intros l Hl. replace l with 0%nat by lia. simpl.
    rewrite Hnew. lia. }
  split.
  { intros [|l] Hl; [lia|]. simpl.
    destruct (repeat [] maxLevel !! l) as [x|] eqn:E; [|reflexivity].
    apply list_elem_of_lookup_2, list_elem_of_In, repeat_spec in E.
    subst. reflexivity. }
  split; [intros l Hl; lia | reflexivity].
Qed.

Lemma build_shaped (Force : gsVector) (dL : R) (step0 maxLevel : nat)
    (al : AL) (st : @state AL) :
  build Force dL step0 maxLevel al = Ok st ->
  shaped step0 maxLevel (maxLevel + 1) st.
Proof.
  unfold build. intros Hrun.
  apply bind_Ok in Hrun as (st0 & H0 & Hrun).
  apply bind_Ok in Hrun as (st1 & H1 & Hrun). injection Hrun as <-.
  apply level0_shaped in H0 as [Hst0 _].
  replace (maxLevel + 1)%nat with (1 + maxLevel)%nat by lia.
  assert (shaped step0 maxLevel (1 + maxLevel) st1) as Hst1.
  { eapply uniformLevels_shaped; [| |exact Hst0 | exact H1]; lia. }
  exact Hst1.
Qed.

End UniformPhase.

Section UniformPhaseResults.

Context {AL : Type} `{ArcLengthIterator AL}.

Lemma queued_task_shape (step0 : nat) (errs : list (list R)) (m : nat)
    (t : task) :
  In t (queued step0 errs m) ->
  exists lvl q,
    (1 <= lvl <= m)%nat /\ (q < step0 * 2 ^ (lvl - 1))%nat /\
    (t = (lvl + 1, lvl - 1, q)%nat \/ t = (lvl + 1, lvl, 2 * q + 1)%nat).
Proof.
  unfold queued, level_tasks. intros Hin.
  apply in_flat_map in Hin as (lvl & Hlvl & Hin). apply in_seq in Hlvl.
  apply in_flat_map in Hin as (q & Hq & Hin). apply in_seq in Hq.
  exists lvl, q. split; [lia|]. split; [lia|].
  unfold flagged_tasks in Hin.
  destruct (default [] (errs !! (lvl - 1)%nat) !! q) as [e|];
    [|contradiction].
  destruct (Rgt_dec e ptol); [|contradiction].
  simpl in Hin. destruct Hin as [<-|[<-|[]]]; auto.
Qed.

Lemma queued_task_source (Force : gsVector) (dL : R) (step0 maxLevel : nat)
    (al : AL) (st : @state AL) (level reflevel pindex : nat) :
  build Force dL step0 maxLevel al = Ok st ->
  In (level, reflevel, pindex) (refIdx st) ->
  (2 <= level <= maxLevel + 1)%nat /\
  (reflevel + 2 = level \/ reflevel + 1 = level)%nat /\
  (pindex + 1 < length (level_points st reflevel))%nat.
Proof.
  intros Hb Hin. apply build_shaped in Hb.
  destruct Hb as (_ & _ & Hsizes & _ & _ & Hq).
  rewrite Hq in Hin. replace (maxLevel + 1 - 1)%nat with maxLevel in Hin by lia.
  apply queued_task_shape in Hin as (lvl & q & Hlvl & Hqlt & Ht).
  destruct lvl as [|k]; [lia|].
  replace (S k - 1)%nat with k in * by lia.
  destruct Ht as [[= -> -> ->]|[= -> -> ->]].
  - split; [lia|]. split; [left; lia|].
    rewrite (Hsizes k) by lia. lia.
  - split; [lia|]. split; [right; lia|].
    rewrite (Hsizes (S k)) by lia. rewrite Nat.pow_succ_r'. lia.
Qed.

(** X1: when the uniform phase ends normally, [solutions] has
    [2 * maxLevel + 1] levels, level [l <= maxLevel] holds
    [step * 2^l + 1] points, the levels above [maxLevel] hold none, and
    [errors] has [maxLevel] rows, row [l] with one entry per point of
    level [l]. *)
Theorem build_level_sizes (Force : gsVector) (dL : R) (step0 maxLevel : nat)
    (al : AL) (st : @state AL) :
  build Force dL step0 maxLevel al = Ok st ->
  length (solutions st) = (2 * maxLevel + 1)%nat /\
  length (errors st) = maxLevel /\
  (forall l, (l <= maxLevel)%nat ->
             length (level_points st l) = (step0 * 2 ^ l + 1)%nat) /\
  (forall l, (maxLevel < l)%nat -> level_points st l = []) /\
  (forall l, (l < maxLevel)%nat ->
             exists row, errors st !! l = Some row /\
                         length row = length (level_points st l)).
Proof.
  intros Hb. apply build_shaped in Hb.
  destruct Hb as (Hlen & Hel & Hsizes & Hempty & Hrows & _).
  split; [lia|]. split; [exact Hel|]. split.
  { intros l Hl. apply Hsizes. lia. }
  split.
  { intros l Hl. apply Hempty. lia. }
  intros l Hl. destruct (Hrows l ltac:(lia)) as (row & Hrow & Hrl).
  exists row. split; [exact Hrow|]. rewrite Hrl. symmetry. apply Hsizes. lia.
Qed.

(** X2: when the uniform phase ends normally, the queue holds, by level
    and then by interval, the two tasks [(l+1, l-1, q)] and
    [(l+1, l, 2q+1)] for exactly the intervals [q] of the levels
    [l-1 < maxLevel] whose entry in the error table exceeds [ptol], and
    nothing else. *)
Theorem build_queue (Force : gsVector) (dL : R) (step0 maxLevel : nat)
    (al : AL) (st : @state AL) :
  build Force dL step0 maxLevel al = Ok st ->
  refIdx st = queued step0 (errors st) maxLevel.
Proof.
  intros Hb. apply build_shaped in Hb.
  destruct Hb as (_ & _ & _ & _ & _ & Hq).
  rewrite Hq. f_equal. lia.
Qed.

(** X3: every task that the uniform phase has queued names a start point
    and a next point that exist: its level is between 2 and
    [maxLevel + 1], its start level is one or two below, and its start
    index is not the last index of the start level. *)
Theorem queued_tasks_have_sources (Force : gsVector) (dL : R)
    (step0 maxLevel : nat) (al : AL) (st : @state AL)
    (level reflevel pindex : nat) :
  build Force dL step0 maxLevel al = Ok st ->
  In (level, reflevel, pindex) (refIdx st) ->
  (2 <= level <= maxLevel + 1)%nat /\
  (reflevel + 2 = level \/ reflevel + 1 = level)%nat /\
  is_Some (level_points st reflevel !! pindex) /\
  is_Some (level_points st reflevel !! (pindex + 1)%nat).
Proof.
  intros Hb Hin.
  destruct (queued_task_source _ _ _ _ _ _ _ _ _ Hb Hin) as (Hl & Hr & Hp).
  split; [exact Hl|]. split; [exact Hr|].
  split; apply lookup_lt_is_Some; lia.
Qed.

(** X4: with [maxLevel <= 2] (2 is the default) a run whose uniform phase
    queues a task ends fatally in the first round of the refinement
    loop: that task writes to a level above [maxLevel], which holds no
    point. *)
Theorem small_maxLevel_never_refines (Force : gsVector) (dL : R)
    (step0 maxLevel : nat) (al : AL) (stb : @state AL) :
  (maxLevel <= 2)%nat ->
  build Force dL step0 maxLevel al = Ok stb ->
  refIdx stb <> [] ->
  exists f s, main Force dL step0 maxLevel al = (1%nat, Some (Fatal f s)).
Proof.
  intros HM Hb Hne. unfold main. rewrite Hb.
  destruct (refIdx stb) as [|t q] eqn:Hq; [contradiction|].
  cbn [length refineLoop]. rewrite Hq.
  destruct (refineTask Force dL t stb) as [st1|f s] eqn:Ht; [|eauto].
  exfalso. destruct t as [[level reflevel] pindex].
  assert (In (level, reflevel, pindex) (refIdx stb)) as Hin
    by (rewrite Hq; left; reflexivity).
  destruct (queued_task_source _ _ _ _ _ _ _ _ _ Hb Hin) as (Hl & _ & _).
  apply build_shaped in Hb. destruct Hb as (_ & _ & _ & Hempty & _).
  apply (refineTask_empty_level Force dL level reflevel pindex stb st1);
    [lia | apply Hempty; lia | exact Ht].
Qed.

End UniformPhaseResults.

Lemma build_level_sizes_witness :
  build [1] (1 / 2) 1 3 script3 = Ok built3 /\
  length (solutions built3) = (2 * 3 + 1)%nat /\
  length (level_points built3 3) = (1 * 2 ^ 3 + 1)%nat /\
  level_points built3 4 = [].
Proof.
  split; [exact build3|].
  destruct (build_level_sizes [1] (1 / 2) 1 3 script3 built3 build3)
    as (Hlen & _ & Hsizes & Hempty & _).
  split; [exact Hlen|]. split; [apply Hsizes; lia | apply Hempty; lia].
Defined.

Lemma build_queue_witness :
  build [1] (1 / 2) 2 2 script2 = Ok built2 /\
  refIdx built2 = queued 2 (errors built2) 2.
Proof.
  split; [exact build2|].
  exact (build_queue [1] (1 / 2) 2 2 script2 built2 build2).
Defined.

Lemma queued_tasks_have_sources_witness :
  build [1] (1 / 2) 2 2 script2 = Ok built2 /\
  In (2, 1, 3)%nat (refIdx built2) /\
  is_Some (level_points built2 1 !! 3%nat) /\
  is_Some (level_points built2 1 !! (3 + 1)%nat).
Proof.
  split; [exact build2|].
  assert (In (2, 1, 3)%nat (refIdx built2)) as Hin
    by (right; left; reflexivity).
  split; [exact Hin|].
  exact (proj2 (proj2 (queued_tasks_have_sources [1] (1 / 2) 2 2 script2
                         built2 2 1 3 build2 Hin))).
Defined.

Lemma small_maxLevel_never_refines_witness :
  (2 <= 2)%nat /\
  build [1] (1 / 2) 2 2 script2 = Ok built2 /\
  refIdx built2 <> [] /\
  exists f s, main [1] (1 / 2) 2 2 script2 = (1%nat, Some (Fatal f s)).
Proof.
  assert (refIdx built2 <> []) as Hne by discriminate.
  split; [lia|]. split; [exact build2|]. split; [exact Hne|].
  exact (small_maxLevel_never_refines [1] (1 / 2) 2 2 script2 built2
           (le_n 2) build2 Hne).
Defined.

Lemma main_stall :
  main [1] (1 / 2) 2 0 script_stall
  = (0%nat, Some (Fatal NotConverged stalled0)).
Proof. run. Qed.

Lemma main_not_converged_witness :
  main [1] (1 / 2) 2 0 script_stall
    = (0%nat, Some (Fatal NotConverged stalled0)) /\
  converged (arcLength stalled0) = false.
Proof.
  split; [exact main_stall|].
  exact (main_not_converged [1] (1 / 2) 2 0 script_stall 0 stalled0 main_stall).
Defined.

(** ** The allocation guards of the refinement loop *)

Section Allocation.

Context {AL : Type} `{ArcLengthIterator AL}.

Lemma resize_grow {A : Type} (d : A) (n : nat) (v : list A) :
  (length v <= n)%nat -> resize d n v = v ++ repeat d (n - length v).
Proof. intros Hn. unfold resize. rewrite firstn_all2 by exact Hn. reflexivity. Qed.

(** X5: for containers that are not empty and a task level of at least 1,
    the guards of lines 488-499 leave [solutions] with
    [max(size, level+1)] levels and [errors] with [max(size, level)] rows,
    keep what was there and add only empty levels and rows.  So a store
    of at most [level+1] levels still has no level [level+1], and a table
    of at most [level] rows no row [level]. *)
Theorem ensureLevels_allocates (level : nat) (st : @state AL) :
  solutions st <> [] -> errors st <> [] -> (1 <= level)%nat ->
  exists n m,
    solutions (ensureLevels level st) = solutions st ++ repeat [] n /\
    errors (ensureLevels level st) = errors st ++ repeat [] m /\
    (length (solutions st) + n)%nat
      = Nat.max (length (solutions st)) (level + 1) /\
    (length (errors st) + m)%nat = Nat.max (length (errors st)) level.
Proof.
  intros Hs He Hlevel.
  exists (Nat.max (length (solutions st)) (level + 1)
          - length (solutions st))%nat,
         (Nat.max (length (errors st)) level - length (errors st))%nat.
  split; [|split; [|lia]].
  - unfold ensureLevels. cbv zeta.
    assert ((if (pred_size_t (length (solutions st)) <? Z.of_nat level)%Z
             then resize [] (level + 1) (solutions st) else solutions st)
            = solutions st
              ++ repeat [] (Nat.max (length (solutions st)) (level + 1)
                            - length (solutions st))) as Hgrow.
    { destruct (solutions st) as [|s0 sols]; [contradiction|].
      cbn [length pred_size_t].
      destruct (Z.of_nat (S (length sols)) - 1 <? Z.of_nat level)%Z eqn:Hg;
        [apply Z.ltb_lt in Hg | apply Z.ltb_ge in Hg].
      - rewrite resize_grow by (cbn [length]; lia). f_equal. f_equal.
        cbn [length]. lia.
      - replace (Nat.max (S (length sols)) (level + 1) - S (length sols))%nat
          with 0%nat by lia.
        cbn [repeat]. rewrite app_nil_r. reflexivity. }
    rewrite <- Hgrow. clear Hgrow.
    destruct (pred_size_t (length (solutions st)) <? Z.of_nat level)%Z;
      destruct (pred_size_t _ <? pred_size_t level)%Z; reflexivity.
  - unfold ensureLevels. cbv zeta.
    assert ((if (pred_size_t (length (errors st)) <? pred_size_t level)%Z
             then resize [] level (errors st) else errors st)
            = errors st
              ++ repeat [] (Nat.max (length (errors st)) level
                            - length (errors st))) as Hgrow.
    { destruct (errors st) as [|e0 errs]; [contradiction|].
      destruct level as [|k]; [lia|].
      cbn [length pred_size_t].
      destruct (Z.of_nat (S (length errs)) - 1 <? Z.of_nat (S k) - 1)%Z
        eqn:Hg; [apply Z.ltb_lt in Hg | apply Z.ltb_ge in Hg].
      - rewrite resize_grow by (cbn [length]; lia). f_equal. f_equal.
        cbn [length]. lia.
      - replace (Nat.max (S (length errs)) (S k) - S (length errs))%nat
          with 0%nat by lia.
        cbn [repeat]. rewrite app_nil_r. reflexivity. }
    rewrite <- Hgrow. clear Hgrow.
    destruct (pred_size_t (length (solutions st)) <? Z.of_nat level)%Z;
      unfold set_solutions; cbn [errors];
      destruct (pred_size_t (length (errors st)) <? pred_size_t level)%Z;
      reflexivity.
Qed.

(** X6: the guards of lines 488-499 are idempotent: applied again for the
    same level they change nothing. *)
Theorem ensureLevels_idempotent (level : nat) (st : @state AL) :
  ensureLevels level (ensureLevels level st) = ensureLevels level st.
Proof.
  unfold ensureLevels. cbv zeta.
  destruct (pred_size_t (length (solutions st)) <? Z.of_nat level)%Z eqn:Hg1;
    simpl.
  - destruct (pred_size_t (length (errors st)) <? pred_size_t level)%Z
      eqn:Hg2; simpl; rewrite ?length_resize.
    + assert ((pred_size_t (level + 1) <? Z.of_nat level)%Z = false) as ->.
      { apply Z.ltb_ge. rewrite Nat.add_1_r. cbn [pred_size_t]. lia. }
      simpl. rewrite length_resize, Z.ltb_irrefl. reflexivity.
    + assert ((pred_size_t (level + 1) <? Z.of_nat level)%Z = false) as ->.
      { apply Z.ltb_ge. rewrite Nat.add_1_r. cbn [pred_size_t]. lia. }
      simpl. rewrite Hg2. reflexivity.
  - destruct (pred_size_t (length (errors st)) <? pred_size_t level)%Z
      eqn:Hg2; simpl; rewrite ?Hg1; simpl.
    + rewrite length_resize, Z.ltb_irrefl. reflexivity.
    + rewrite Hg2. reflexivity.
Qed.

(** X7: on an empty container the guards allocate nothing, for every
    level below 2^64 - 1: the unsigned [size()-1] wraps to 2^64 - 1, which
    is not below the level. *)
Theorem ensureLevels_wraps (level : nat) (st : @state AL) :
  (Z.of_nat level < 2 ^ 64 - 1)%Z ->
  (solutions st = [] -> solutions (ensureLevels level st) = []) /\
  (errors st = [] -> errors (ensureLevels level st) = []).
Proof.
  intros Hlevel. unfold ensureLevels. cbv zeta. split.
  - intros Hs. rewrite Hs. cbn [length pred_size_t].
    assert ((2 ^ 64 - 1 <? Z.of_nat level)%Z = false) as ->
      by (apply Z.ltb_ge; lia).
    destruct (pred_size_t (length (errors st)) <? pred_size_t level)%Z;
      simpl; exact Hs.
  - intros He.
    destruct (pred_size_t (length (solutions st)) <? Z.of_nat level)%Z;
      simpl; rewrite He; cbn [length pred_size_t].
    + assert ((2 ^ 64 - 1 <? pred_size_t level)%Z = false) as ->.
      { apply Z.ltb_ge. destruct level; cbn [pred_size_t]; lia. }
      simpl. exact He.
    + assert ((2 ^ 64 - 1 <? pred_size_t level)%Z = false) as ->.
      { apply Z.ltb_ge. destruct level; cbn [pred_size_t]; lia. }
      exact He.
Qed.

End Allocation.

Lemma ensureLevels_allocates_witness :
  solutions built1 <> [] /\ errors built1 <> [] /\ (1 <= 2)%nat /\
  exists n m,
    solutions (ensureLevels 2 built1) = solutions built1 ++ repeat [] n /\
    errors (ensureLevels 2 built1) = errors built1 ++ repeat [] m /\
    (length (solutions built1) + n)%nat
      = Nat.max (length (solutions built1)) (2 + 1) /\
    (length (errors built1) + m)%nat = Nat.max (length (errors built1)) 2.
Proof.
  assert (solutions built1 <> []) as Hs by discriminate.
  assert (errors built1 <> []) as He by discriminate.
  split; [exact Hs|]. split; [exact He|]. split; [lia|].
  apply (ensureLevels_allocates 2 built1 Hs He). lia.
Defined.

Lemma ensureLevels_wraps_witness :
  (Z.of_nat 3 < 2 ^ 64 - 1)%Z /\
  (solutions walked0 = [] -> solutions (ensureLevels 3 walked0) = []) /\
  (errors walked0 = [] -> errors (ensureLevels 3 walked0) = []) /\
  errors (ensureLevels 3 walked0) = [].
Proof.
  assert (Z.of_nat 3 < 2 ^ 64 - 1)%Z as Hlt by (vm_compute; reflexivity).
  split; [exact Hlt|].
  destruct (ensureLevels_wraps 3 walked0 Hlt) as [Hs He].
  split; [exact Hs|]. split; [exact He|]. apply He. reflexivity.
Defined.

(** ** A task whose target level holds no point *)

Ltac state_cbn :=
  cbn [bind app set_solutions set_points set_refIdx set_errors set_arcLength
       solutions points refIdx errors arcLength].

Section EmptyTarget.

Context {AL : Type} `{ArcLengthIterator AL}.

Lemma ensureLevels_solutions_kept (level : nat) (st : @state AL) :
  (level + 1 <= length (solutions st))%nat ->
  solutions (ensureLevels level st) = solutions st.
Proof.
  intros Hlen. unfold ensureLevels. cbv zeta.
  assert ((pred_size_t (length (solutions st)) <? Z.of_nat level)%Z = false)
    as ->.
  { apply Z.ltb_ge. destruct (length (solutions st)); [lia|].
    cbn [pred_size_t]. lia. }
  destruct (pred_size_t (length (errors st)) <? pred_size_t level)%Z;
    reflexivity.
Qed.

Lemma level_points_Some (st : @state AL) (l i : nat) (pt : point) :
  level_points st l !! i = Some pt ->
  exists lv, solutions st !! l = Some lv /\ lv !! i = Some pt.
Proof.
  unfold level_points. destruct (solutions st !! l) as [lv|]; simpl.
  - intros Hi. exists lv. auto.
  - intros Hi. rewrite lookup_nil in Hi. discriminate.
Qed.

(** X9: a task (level, reflevel, pindex), [level >= 1], whose target level
    [level+1] exists and holds no point, whose start point and next point
    exist and whose first step converges, ends at line 530 with the
    exception of [.at()]: the target level then holds two points, the
    start point and the result of the first step, and the index asked for
    is the number of levels minus one, at least 2.  Nothing is recorded in
    [points], and the task has left the queue. *)
Theorem refineTask_empty_target (Force : gsVector) (dL : R)
    (level reflevel pindex : nat) (st : @state AL) (old guess : point) :
  (1 <= level)%nat ->
  (level + 2 <= length (solutions st))%nat ->
  level_points st (level + 1) = [] ->
  level_points st reflevel !! pindex = Some old ->
  level_points st reflevel !! (pindex + 1)%nat = Some guess ->
  converged (step (setLength (dL / 2 ^ level)
                     (prepared old guess (arcLength st)))) = true ->
  exists s,
    refineTask Force dL (level, reflevel, pindex) st = Fatal OutOfRange s /\
    level_points s (level + 1)
      = [old; (solutionU (arcLength s), solutionL (arcLength s))] /\
    arcLength s = step (setLength (dL / 2 ^ level)
                          (prepared old guess (arcLength st))) /\
    (forall l, l <> (level + 1)%nat -> level_points s l = level_points st l) /\
    points s = points st /\ refIdx s = tail (refIdx st).
Proof.
  intros Hlevel Hlen Hnil Hold Hguess Hconv.
  apply level_points_Some in Hold as (src & Hsrc & Hold).
  apply level_points_Some in Hguess as (src' & Hsrc' & Hguess).
  rewrite Hsrc in Hsrc'. injection Hsrc' as <-.
  assert (solutions st !! (level + 1)%nat = Some []) as Htgt.
  { destruct (lookup_lt_is_Some_2 (solutions st) (level + 1)) as [lv Hlv];
      [lia|].
    unfold level_points in Hnil. rewrite Hlv in Hnil. simpl in Hnil.
    congruence. }
  assert (reflevel <> (level + 1)%nat) as Hne.
  { intros ->. rewrite Hsrc in Htgt. injection Htgt as ->.
    rewrite lookup_nil in Hold. discriminate. }
  unfold refineTask. cbv zeta.
  pose proof (ensureLevels_other level (set_refIdx (tail (refIdx st)) st))
    as (Hal & Hq & Hpts).
  pose proof (ensureLevels_solutions_kept level
                (set_refIdx (tail (refIdx st)) st)) as Hsol.
  simpl in Hal, Hq, Hpts, Hsol. specialize (Hsol ltac:(lia)).
  destruct (ensureLevels level (set_refIdx (tail (refIdx st)) st))
    as [sols pts q errs a].
  simpl in Hal, Hq, Hpts, Hsol. subst sols pts q a.
  unfold subscript at 1. state_cbn. rewrite Hsrc. state_cbn.
  unfold at_ at 1. rewrite Hold. state_cbn.
  unfold push_solution, subscript at 1. state_cbn.
  rewrite Htgt. state_cbn.
  unfold subscript at 1.
  rewrite list_lookup_insert_ne by congruence. rewrite Hsrc. state_cbn.
  unfold at_ at 1. rewrite Hguess. state_cbn.
  fold (prepared old guess (arcLength st)).
  unfold stepAndRecord at 1, stepAndStore at 1.
  cbv zeta. state_cbn. rewrite Hconv.
  unfold push_solution, subscript at 1. state_cbn.
  rewrite list_lookup_insert_eq by lia. state_cbn.
  rewrite list_insert_insert_eq.
  unfold subscript at 1.
  rewrite list_lookup_insert_eq by lia. state_cbn.
  unfold at_ at 1. rewrite length_insert.
  rewrite (lookup_ge_None_2 _ (length (solutions st) - 1))
    by (simpl; lia).
  state_cbn.
  eexists. split; [reflexivity|].
  unfold level_points. state_cbn.
  rewrite list_lookup_insert_eq by lia.
  repeat split; try reflexivity.
  intros l Hl. rewrite list_lookup_insert_ne by congruence. reflexivity.
Qed.

End EmptyTarget.

Lemma refineTask_empty_target_witness :
  level_points built2 (2 + 1) = [] /\
  exists s,
    refineTask [1] (1 / 2) (2, 0, 1)%nat built2 = Fatal OutOfRange s /\
    level_points s (2 + 1)
      = [([0], 1); (solutionU (arcLength s), solutionL (arcLength s))] /\
    arcLength s = step (setLength (1 / 2 / 2 ^ 2)
                          (prepared ([0], 1) ([0], 2) (arcLength built2))) /\
    (forall l, l <> (2 + 1)%nat -> level_points s l = level_points built2 l) /\
    points s = points built2 /\ refIdx s = tail (refIdx built2).
Proof.
  split; [reflexivity|].
  apply (refineTask_empty_target [1] (1 / 2) 2 0 1 built2 ([0], 1) ([0], 2)).
  - lia.
  - simpl. lia.
  - reflexivity.
  - reflexivity.
  - reflexivity.
  - reflexivity.
Defined.

(** ** What a finished task records in [points] *)

Section Recorded.

Context {AL : Type} `{ArcLengthIterator AL}.

Lemma stepAndRecord_points (level : nat) (st st' : @state AL) :
  stepAndRecord level st = Ok st' ->
  exists lv,
    solutions st !! (level + 1)%nat = Some lv /\
    points st' =
      points st ++ [(level + 1, (level + 1, length lv + 1,
                                 length (solutions st) - 1))]%nat /\
    level_points st' (level + 1) !! length lv
      = Some (solutionU (step (arcLength st)),
              solutionL (step (arcLength st))) /\
    length (level_points st' (level + 1)) = (length lv + 1)%nat /\
    length (solutions st') = length (solutions st).
Proof.
  unfold stepAndRecord. intros Hr.
  apply bind_Ok in Hr as (st1 & Hs & Hr).
  apply stepAndStore_Ok in Hs as (lv & Hlv & Hc & ->).
  apply bind_Ok in Hr as (lv1 & Hlv1 & Hr). apply subscript_Ok in Hlv1.
  apply bind_Ok in Hr as (x & _ & Hr).
  injection Hr as <-. simpl in Hlv1.
  rewrite list_lookup_insert_eq in Hlv1 by (apply lookup_lt_is_Some; eauto).
  injection Hlv1 as <-.
  exists lv. unfold level_points. simpl.
  rewrite list_lookup_insert_eq by (apply lookup_lt_is_Some; eauto).
  simpl. rewrite !length_insert, length_app. simpl.
  rewrite lookup_app_r by lia. rewrite Nat.sub_diag. auto.
Qed.

Lemma refineTask_points (Force : gsVector) (dL : R)
    (level reflevel pindex : nat) (st st' : @state AL) :
  refineTask Force dL (level, reflevel, pindex) st = Ok st' ->
  let stg := ensureLevels level (set_refIdx (tail (refIdx st)) st) in
  exists lv,
    solutions stg !! (level + 1)%nat = Some lv /\
    points st' =
      points st ++ [(level + 1, (level + 1, length lv + 2,
                                 length (solutions stg) - 1));
                    (level + 1, (level + 1, length lv + 3,
                                 length (solutions stg) - 1))]%nat.
Proof.
  unfold refineTask. cbv zeta.
  pose proof (ensureLevels_other level (set_refIdx (tail (refIdx st)) st))
    as (_ & _ & Hpts).
  simpl in Hpts.
  set (stg := ensureLevels level _) in *. clearbody stg.
  intros Hu.
  apply bind_Ok in Hu as (src & _ & Hu).
  apply bind_Ok in Hu as (old & _ & Hu).
  apply bind_Ok in Hu as (st1 & Hs1 & Hu).
  apply push_solution_Ok in Hs1 as (lv & Hlv & ->). simpl in Hlv.
  apply bind_Ok in Hu as (src1 & _ & Hu).
  apply bind_Ok in Hu as (guess & _ & Hu).
  apply bind_Ok in Hu as (st2 & Hs2 & Hu).
  apply stepAndRecord_points in Hs2 as (lv2 & Hlv2 & Hp2 & _ & Hsz2 & Hn2).
  simpl in Hlv2, Hp2, Hn2.
  rewrite list_lookup_insert_eq in Hlv2 by (apply lookup_lt_is_Some; eauto).
  injection Hlv2 as <-. rewrite length_insert in Hp2, Hn2.
  rewrite length_app in Hp2, Hsz2. simpl in Hp2, Hsz2.
  apply bind_Ok in Hu as (st3 & Hs3 & Hu).
  apply stepAndRecord_points in Hs3 as (lv3 & Hlv3 & Hp3 & _ & _ & Hn3).
  assert (length lv3 = (length lv + 1 + 1)%nat) as Hl3.
  { unfold level_points in Hsz2. rewrite Hlv3 in Hsz2. exact Hsz2. }
  apply bind_Ok in Hu as (cmp & _ & Hu).
  apply bind_Ok in Hu as (coarse & _ & Hu).
  apply bind_Ok in Hu as (st4 & Hs4 & Hu).
  apply storeError_Ok in Hs4 as (e & row & _ & _ & _ & ->).
  apply bind_Ok in Hu as (row' & _ & Hu).
  apply bind_Ok in Hu as (e' & _ & Hu).
  assert (st' = set_errors (<[level := <[pindex := e]> row]> (errors st3)) st3)
    as -> by (destruct (Rgt_dec e' ptol); congruence).
  exists lv. split; [exact Hlv|].
  simpl. rewrite Hp3, Hp2, Hn2, Hl3, Hpts, <- app_assoc. simpl.
  replace (length lv + 1 + 1 + 1)%nat with (length lv + 3)%nat by lia.
  replace (length lv + 1 + 1)%nat with (length lv + 2)%nat by lia.
  reflexivity.
Qed.

(** X10: a task that finishes adds two entries to [points].  Both are
    addresses of the element of the target level whose index is the
    number of levels minus one: the first is taken when the level holds
    the start point and the result of the first step, the second one
    [push_back] later, from the level as the task leaves it.  That index
    is below the one of the second step's point, whose address is
    therefore not recorded; and the first address leads to the same
    place as the second only if the second [push_back] has not moved the
    elements of the level. *)
Theorem refineTask_records_twice (Force : gsVector) (dL : R)
    (level reflevel pindex : nat) (st st' : @state AL) :
  refineTask Force dL (level, reflevel, pindex) st = Ok st' ->
  exists idx n,
    points st' = points st ++ [(level + 1, (level + 1, n, idx));
                               (level + 1, (level + 1, S n, idx))]%nat /\
    idx = (length (solutions st') - 1)%nat /\
    (idx < n)%nat /\
    S n = length (level_points st' (level + 1)).
Proof.
  intros Hu. pose proof (refineTask_points _ _ _ _ _ _ _ Hu) as Hpts.
  apply refineTask_Ok in Hu. cbv zeta in Hu, Hpts.
  destruct Hpts as (lv' & Hlv' & Hpts).
  destruct Hu as (src & old & lv & src1 & guess & cmp & coarse & e & row & Hu).
  destruct Hu as (_ & _ & Hlv & _ & _ & _ & _ & Hsol & Hrest).
  assert ((length (solutions
             (ensureLevels level (set_refIdx (tail (refIdx st)) st))) - 1
           < length lv + 2)%nat) as Hat by apply Hrest.
  rewrite Hlv in Hlv'. injection Hlv' as <-.
  eexists _, (length lv + 2)%nat. split.
  { rewrite Hpts. repeat f_equal. lia. }
  unfold level_points. rewrite Hsol, length_insert.
  rewrite list_lookup_insert_eq by (apply lookup_lt_is_Some; eauto).
  split; [reflexivity|]. split; [exact Hat|].
  simpl. rewrite length_app. simpl. lia.
Qed.

End Recorded.

Lemma refineTask_records_twice_witness :
  refineTask [1] (1 / 2) (2, 0, 0)%nat built3 = Ok refined3a /\
  exists idx n,
    points refined3a = points built3 ++ [(2 + 1, (2 + 1, n, idx));
                                         (2 + 1, (2 + 1, S n, idx))]%nat /\
    idx = (length (solutions refined3a) - 1)%nat /\
    (idx < n)%nat /\
    S n = length (level_points refined3a (2 + 1)).
Proof.
  split; [exact refine3a|].
  exact (refineTask_records_twice [1] (1 / 2) 2 0 0 built3 refined3a refine3a).
Defined.

(** ** More on the error estimate *)

Lemma vsub_swap (a b : gsVector) :
  squaredNorm <$> vsub a b = squaredNorm <$> vsub b a.
Proof.
  revert b. induction a as [|x a IH]; intros [|y b]; simpl; try reflexivity.
  specialize (IH b).
  destruct (vsub a b) as [d|], (vsub b a) as [d'|]; simpl in *;
    try discriminate; [|reflexivity].
  injection IH as IH. f_equal. rewrite IH. lra.
Qed.

(** X11: the estimate of lines 437 and 534 does not depend on which of
    the two points is the stored one and which the iterator's: exchanging
    them gives the same value, and it is undefined for the same pairs. *)
Theorem errorEstimate_symmetric (Force Uc Uf : gsVector) (lc lf dLi : R) :
  errorEstimate Force (Uc, lc) Uf lf dLi
  = errorEstimate Force (Uf, lf) Uc lc dLi.
Proof.
  unfold errorEstimate. simpl.
  pose proof (vsub_swap Uc Uf) as Hs.
  destruct (vsub Uc Uf) as [d|], (vsub Uf Uc) as [d'|]; simpl in Hs;
    try discriminate; [|reflexivity].
  injection Hs as Hs. unfold norm. rewrite Hs.
  rewrite (Rabs_minus_sym lc lf). reflexivity.
Qed.

(** X12: the estimate is relative to the arc-length of the level: with
    the length [dL / 2^level] that lines 402 and 514 set, it is [2^level]
    times the estimate taken with [dL].  The same difference of two
    points weighs more against the tolerance the finer the level is. *)
Theorem errorEstimate_level_scaling (Force : gsVector) (coarse : point)
    (Uf : gsVector) (Lf dL : R) (level : nat) :
  dL <> 0 ->
  errorEstimate Force coarse Uf Lf (dL / 2 ^ level)
  = Rmult (2 ^ level) <$> errorEstimate Force coarse Uf Lf dL.
Proof.
  intros HdL. unfold errorEstimate.
  destruct (vsub coarse.1 Uf) as [d|]; simpl; [|reflexivity].
  f_equal. assert (2 ^ level <> 0) as Hpow by (apply pow_nonzero; lra).
  field. split; assumption.
Qed.

Lemma errorEstimate_level_scaling_witness :
  (1 / 2 <> 0) /\
  errorEstimate [1] ([0], 1) [0] 3 (1 / 2 / 2 ^ 2)
  = Rmult (2 ^ 2) <$> errorEstimate [1] ([0], 1) [0] 3 (1 / 2).
Proof.
  assert (1 / 2 <> 0) as Hne by lra.
  split; [exact Hne|].
  exact (errorEstimate_level_scaling [1] ([0], 1) [0] 3 (1 / 2) 2 Hne).
Defined.

(** ** Runs that finish *)

Section FinishedRuns.

Context {AL : Type} `{ArcLengthIterator AL}.

Lemma refineTask_levels (Force : gsVector) (dL : R)
    (level reflevel pindex : nat) (st st' : @state AL) (l : nat) :
  refineTask Force dL (level, reflevel, pindex) st = Ok st' ->
  l <> (level + 1)%nat -> level_points st' l = level_points st l.
Proof.
  intros Hu Hl. apply refineTask_Ok in Hu. cbv zeta in Hu.
  destruct Hu as (src & old & lv & src1 & guess & cmp & coarse & e & row & Hu).
  destruct Hu as (_ & _ & _ & _ & _ & _ & _ & Hsol & _).
  pose proof (ensureLevels_level_points level
                (set_refIdx (tail (refIdx st)) st) l) as Hlp.
  change (level_points (set_refIdx (tail (refIdx st)) st) l)
    with (level_points st l) in Hlp.
  rewrite <- Hlp. unfold level_points. rewrite Hsol.
  rewrite list_lookup_insert_ne by congruence. reflexivity.
Qed.

Lemma refineLoop_Ok_levels (Force : gsVector) (dL : R) (maxLevel fuel : nat)
    (s : @state AL) (n : nat) (st : @state AL) :
  (forall l, (maxLevel < l)%nat -> level_points s l = []) ->
  (forall level rl p, In (level, rl, p) (refIdx s) -> (1 <= level)%nat) ->
  refineLoop Force dL fuel s = (n, Some (Ok st)) ->
  forall level rl p, In (level, rl, p) (refIdx s) -> (level < maxLevel)%nat.
Proof.
  revert s n. induction fuel as [|fuel IH]; intros s n Hempty Hpos Hloop;
    simpl in Hloop.
  - destruct (refIdx s) as [|t q]; [|discriminate].
    intros level rl p [].
  - destruct (refIdx s) as [|t q] eqn:Hq; [intros level rl p []|].
    destruct (refineTask Force dL t s) as [s1|f s'] eqn:Ht;
      [|discriminate].
    destruct (refineLoop Force dL fuel s1) as [n1 r1] eqn:Hrest.
    simpl in Hloop. injection Hloop as _ ->.
    destruct t as [[tl trl] tp].
    assert ((tl < maxLevel)%nat) as Htl.
    { destruct (le_lt_dec maxLevel tl) as [Hge|Hlt]; [|exact Hlt].
      exfalso.
      apply (refineTask_empty_level Force dL tl trl tp s s1);
        [apply (Hpos tl trl tp); left; reflexivity
        | apply Hempty; lia | exact Ht]. }
    pose proof (refineTask_pops _ _ _ _ _ Ht) as Hpop.
    rewrite Hq in Hpop. simpl in Hpop.
    intros level rl p [Hin|Hin].
    + injection Hin as <- <- <-. exact Htl.
    + apply (IH s1 n1) with (rl := rl) (p := p).
      * intros l Hl.
        rewrite (refineTask_levels _ _ _ _ _ _ _ l Ht) by lia.
        apply Hempty. exact Hl.
      * intros level' rl' p' Hin'. rewrite Hpop in Hin'.
        apply (Hpos level' rl' p'). right. exact Hin'.
      * exact Hrest.
      * rewrite Hpop. exact Hin.
Qed.

(** X13: a run that finishes has queued no task for a level from
    [maxLevel] on, since such a task writes to a level above [maxLevel],
    which holds no point, and fails at line 530.  In terms of the error
    table: in a run that finishes, no interval of the two finest uniform
    levels has an estimate above the tolerance. *)
Theorem finished_run_is_coarse (Force : gsVector) (dL : R)
    (step0 maxLevel : nat) (al : AL) (stb : @state AL) (n : nat)
    (st : @state AL) :
  build Force dL step0 maxLevel al = Ok stb ->
  main Force dL step0 maxLevel al = (n, Some (Ok st)) ->
  (forall level reflevel pindex,
     In (level, reflevel, pindex) (refIdx stb) -> (level < maxLevel)%nat) /\
  (forall l q e,
     (maxLevel <= l + 2)%nat -> (l < maxLevel)%nat ->
     (q < step0 * 2 ^ l)%nat ->
     error_at stb l q = Some e -> ~ e > ptol).
Proof.
  intros Hb Hmain.
  assert (forall level reflevel pindex,
            In (level, reflevel, pindex) (refIdx stb) ->
            (level < maxLevel)%nat) as Htasks.
  { unfold main in Hmain. rewrite Hb in Hmain.
    pose proof (build_shaped _ _ _ _ _ _ Hb) as (_ & _ & _ & Hempty & _).
    apply (refineLoop_Ok_levels Force dL maxLevel (length (refIdx stb))
             stb n st).
    - intros l Hl. apply Hempty. lia.
    - intros level rl p Hin.
      destruct (queued_task_source _ _ _ _ _ _ _ _ _ Hb Hin) as (Hl & _).
      lia.
    - exact Hmain. }
  split; [exact Htasks|].
  intros l q e Hfine Hl Hq He Hgt.
  pose proof (build_shaped _ _ _ _ _ _ Hb) as (_ & _ & _ & _ & _ & Hqueue).
  assert (In (l + 2, l, q)%nat (refIdx stb)) as Hin.
  { rewrite Hqueue. unfold queued, level_tasks.
    apply in_flat_map. exists (l + 1)%nat. split; [apply in_seq; lia|].
    replace (l + 1 - 1)%nat with l by lia.
    apply in_flat_map. exists q. split; [apply in_seq; lia|].
    unfold flagged_tasks, error_at in *.
    destruct (errors stb !! l) as [row|]; [|discriminate]. simpl.
    rewrite He. destruct (Rgt_dec e ptol) as [_|Hn]; [|contradiction].
    left. replace (l + 1 + 1)%nat with (l + 2)%nat by lia.
    replace (l + 1 - 1)%nat with l by lia. reflexivity. }
  apply Htasks in Hin. lia.
Qed.

End FinishedRuns.

Lemma finished_run_is_coarse_witness :
  build [1] (1 / 2) 1 3 script3 = Ok built3 /\
  main [1] (1 / 2) 1 3 script3 = (2%nat, Some (Ok refined3b)) /\
  (forall level reflevel pindex,
     In (level, reflevel, pindex) (refIdx built3) -> (level < 3)%nat) /\
  (forall l q e,
     (3 <= l + 2)%nat -> (l < 3)%nat -> (q < 1 * 2 ^ l)%nat ->
     error_at built3 l q = Some e -> ~ e > ptol).
Proof.
  split; [exact build3|]. split; [exact main3|].
  exact (finished_run_is_coarse [1] (1 / 2) 1 3 script3 built3 2 refined3b
           build3 main3).
Defined.

(** ** What the uniform phase records in [points] *)

Section RecordedUniform.

Context {AL : Type} `{ArcLengthIterator AL}.

Lemma push_solution_points (l : nat) (pt : point) (st st' : @state AL) :
  push_solution l pt st = Ok st' -> points st' = points st.
Proof. intros Hp. apply push_solution_Ok in Hp as (lv & _ & ->). reflexivity. Qed.

Lemma stepAndStore_points (l : nat) (st st' : @state AL) :
  stepAndStore l st = Ok st' -> points st' = points st.
Proof.
  intros Hs. apply stepAndStore_Ok in Hs as (lv & _ & _ & ->). reflexivity.
Qed.

Lemma level0Steps_points (k : nat) (st st' : @state AL) :
  level0Steps k st = Ok st' -> points st' = points st.
Proof.
  revert st. induction k as [|k IH]; intros st Hl; simpl in Hl.
  - injection Hl as <-. reflexivity.
  - apply bind_Ok in Hl as (st1 & Hs & Hl).
    rewrite (IH _ Hl). apply (stepAndStore_points _ _ _ Hs).
Qed.

Lemma uniformInterval_points (Force : gsVector) (dLi : R) (level p : nat)
    (st st' : @state AL) :
  uniformInterval Force dLi level p st = Ok st' -> points st' = points st.
Proof.
  unfold uniformInterval. intros Hu.
  apply bind_Ok in Hu as (prev & _ & Hu).
  apply bind_Ok in Hu as (old & _ & Hu).
  apply bind_Ok in Hu as (guess & _ & Hu).
  apply bind_Ok in Hu as (st1 & Hs1 & Hu).
  apply stepAndStore_points in Hs1.
  apply bind_Ok in Hu as (st2 & Hs2 & Hu).
  apply stepAndStore_points in Hs2.
  apply bind_Ok in Hu as (prev2 & _ & Hu).
  apply bind_Ok in Hu as (coarse & _ & Hu).
  apply bind_Ok in Hu as (st3 & Hs3 & Hu).
  apply storeError_Ok in Hs3 as (e & row & _ & _ & _ & ->).
  apply bind_Ok in Hu as (row' & _ & Hu).
  apply bind_Ok in Hu as (e' & _ & Hu).
  simpl in Hs1.
  assert (points st' = points st2) as ->.
  { destruct (Rgt_dec e' ptol).
    - apply bind_Ok in Hu as (cur & _ & Hu). injection Hu as <-. reflexivity.
    - injection Hu as <-. reflexivity. }
  congruence.
Qed.

Lemma intervalLoop_points (Force : gsVector) (dLi : R) (level n p : nat)
    (st st' : @state AL) :
  intervalLoop Force dLi level n p st = Ok st' -> points st' = points st.
Proof.
  revert p st. induction n as [|n IH]; intros p st Hl; simpl in Hl.
  - injection Hl as <-. reflexivity.
  - apply bind_Ok in Hl as (st1 & Hs & Hl).
    rewrite (IH _ _ Hl). apply (uniformInterval_points _ _ _ _ _ _ Hs).
Qed.

Lemma uniformLevel_points (U0 : gsVector) (L0 : R) (Force : gsVector)
    (dL : R) (level : nat) (st st' : @state AL) :
  uniformLevel U0 L0 Force dL level st = Ok st' -> points st' = points st.
Proof.
  unfold uniformLevel. intros Hu.
  apply bind_Ok in Hu as (prev & _ & Hu).
  apply bind_Ok in Hu as (row & _ & Hu).
  apply bind_Ok in Hu as (st1 & Hs1 & Hu).
  apply push_solution_points in Hs1.
  apply bind_Ok in Hu as (st2 & Hs2 & Hu).
  apply intervalLoop_points in Hs2.
  injection Hu as <-. simpl in *. congruence.
Qed.

Lemma uniformLevels_points (U0 : gsVector) (L0 : R) (Force : gsVector)
    (dL : R) (n level : nat) (st st' : @state AL) :
  uniformLevels U0 L0 Force dL n level st = Ok st' -> points st' = points st.
Proof.
  revert level st. induction n as [|n IH]; intros level st Hl; simpl in Hl.
  - injection Hl as <-. reflexivity.
  - apply bind_Ok in Hl as (st1 & Hs & Hl).
    rewrite (IH _ _ Hl). apply (uniformLevel_points _ _ _ _ _ _ _ Hs).
Qed.

Lemma flat_map_ext_seq {A : Type} (f g : nat -> list A) (a n : nat) :
  (forall l, (a <= l < a + n)%nat -> f l = g l) ->
  flat_map f (seq a n) = flat_map g (seq a n).
Proof.
  revert a. induction n as [|n IH]; intros a Hfg; simpl; [reflexivity|].
  rewrite (Hfg a) by lia. f_equal. apply IH. intros l Hl. apply Hfg. lia.
Qed.

(** X14: when the uniform phase ends normally, [points] holds one entry
    for every point of the levels [0..maxLevel], level by level and in
    the order of the level, and nothing else: the addresses of the
    [step * 2^l + 1] points of level [l], taken from the level at that
    size. *)
Theorem build_points (Force : gsVector) (dL : R) (step0 maxLevel : nat)
    (al : AL) (st : @state AL) :
  build Force dL step0 maxLevel al = Ok st ->
  points st =
    flat_map (fun l => (fun p => (l, (l, step0 * 2 ^ l + 1, p))%nat)
                         <$> seq 0 (step0 * 2 ^ l + 1))
             (seq 0 (maxLevel + 1)).
Proof.
  intros Hb. pose proof (build_shaped _ _ _ _ _ _ Hb) as Hshape.
  destruct Hshape as (_ & _ & Hsizes & _).
  unfold build in Hb.
  apply bind_Ok in Hb as (st0 & H0 & Hb).
  apply bind_Ok in Hb as (st1 & H1 & Hb).
  injection Hb as <-.
  apply uniformLevels_points in H1.
  unfold level0 in H0. cbv zeta in H0.
  apply bind_Ok in H0 as (sti & Hi & H0).
  apply push_solution_points in Hi. apply level0Steps_points in H0.
  simpl in Hi. unfold storePoints. simpl.
  rewrite H1, H0, Hi. simpl.
  apply flat_map_ext_seq. intros l Hl.
  specialize (Hsizes l ltac:(lia)). unfold level_points in Hsizes.
  simpl in Hsizes. rewrite Hsizes. reflexivity.
Qed.

End RecordedUniform.

Lemma build_points_witness :
  build [1] (1 / 2) 2 2 script2 = Ok built2 /\
  points built2 =
    flat_map (fun l => (fun p => (l, (l, 2 * 2 ^ l + 1, p))%nat)
                         <$> seq 0 (2 * 2 ^ l + 1))
             (seq 0 (2 + 1)).
Proof.
  split; [exact build2|].
  exact (build_points [1] (1 / 2) 2 2 script2 built2 build2).
Defined.

(** ** The slot of an error row that no interval writes *)

Section LastSlot.

Context {AL : Type} `{ArcLengthIterator AL}.

Lemma lookup_repeat {A : Type} (x : A) (n q : nat) :
  (q < n)%nat -> repeat x n !! q = Some x.
Proof.
  revert q. induction n as [|n IH]; intros q Hq; [lia|].
  destruct q as [|q]; simpl; [reflexivity|]. apply IH. lia.
Qed.

Lemma intervalLoop_untouched (Force : gsVector) (dLi : R) (level : nat) :
  forall (n p : nat) (st st' : @state AL) (row : list R),
    errors st !! (level - 1)%nat = Some row ->
    intervalLoop Force dLi level n p st = Ok st' ->
    exists row',
      errors st' !! (level - 1)%nat = Some row' /\
      forall q, (p + n <= q)%nat -> row' !! q = row !! q.
Proof.
  induction n as [|n IH]; intros p st st' row Hrow; simpl.
  - intros [= <-]. exists row. auto.
  - intros Hrun. apply bind_Ok in Hrun as (st1 & Hu & Hrun).
    apply uniformInterval_Ok in Hu.
    destruct Hu as (prev & old & guess & lv0 & prev2 & coarse & e & row0
                    & Hu).
    cbv zeta in Hu.
    destruct Hu as (_ & _ & _ & _ & _ & _ & _ & _ & _ & _ & _
                    & Hrow0 & Hp & Herr1 & _).
    rewrite Hrow in Hrow0. injection Hrow0 as <-.
    eapply (IH (S p)) in Hrun as (row' & Hrow' & Htail).
    2:{ rewrite Herr1. apply list_lookup_insert_eq.
        apply lookup_lt_is_Some. eauto. }
    exists row'. split; [exact Hrow'|].
    intros q Hq. rewrite Htail by lia.
    apply list_lookup_insert_ne. lia.
Qed.

Lemma uniformLevel_row_tail (U0 : gsVector) (L0 : R) (Force : gsVector)
    (dL : R) (level : nat) (st st' : @state AL) (prev : list point) :
  (1 <= level)%nat ->
  solutions st !! (level - 1)%nat = Some prev ->
  solutions st !! level = Some [] ->
  errors st !! (level - 1)%nat = Some [] ->
  uniformLevel U0 L0 Force dL level st = Ok st' ->
  error_at st' (level - 1) (length prev - 1) = Some 0.
Proof.
  intros Hlevel Hprev Hempty Hrow0 Hrun.
  destruct (uniformLevel_Ok U0 L0 Force dL level st st' prev
              Hlevel Hprev Hempty Hrun) as (_ & _ & Hne & _).
  unfold uniformLevel in Hrun.
  apply bind_Ok in Hrun as (prev0 & Hprev0 & Hrun).
  apply subscript_Ok in Hprev0. rewrite Hprev in Hprev0.
  injection Hprev0 as <-.
  apply bind_Ok in Hrun as (row & Hrow & Hrun). apply subscript_Ok in Hrow.
  rewrite Hrow0 in Hrow. injection Hrow as <-.
  apply bind_Ok in Hrun as (st1 & Hpush & Hrun).
  apply push_solution_Ok in Hpush as (lv & _ & ->).
  apply bind_Ok in Hrun as (st2 & Hloop & Hrun). injection Hrun as <-.
  eapply intervalLoop_untouched in Hloop as (row' & Hrow' & Htail).
  2:{ simpl. apply list_lookup_insert_eq. apply lookup_lt_is_Some. eauto. }
  unfold error_at. simpl. rewrite Hrow'.
  assert ((0 + Z.to_nat (pred_size_t (length prev)) <= length prev - 1)%nat)
    as Hle.
  { destruct prev as [|x prev]; [contradiction|].
    cbn [length pred_size_t]. lia. }
  rewrite (Htail _ Hle). unfold resize. rewrite take_nil. simpl.
  rewrite Nat.sub_0_r. apply lookup_repeat.
  destruct prev; [contradiction | simpl; lia].
Qed.

Lemma uniformLevel_zeroed (U0 : gsVector) (L0 : R) (Force : gsVector)
    (dL : R) (step0 maxLevel k : nat) (st st' : @state AL) :
  (1 <= k <= maxLevel)%nat -> shaped step0 maxLevel k st ->
  (forall l, (k - 1 <= l < maxLevel)%nat -> errors st !! l = Some []) ->
  (forall l, (l + 1 < k)%nat -> error_at st l (step0 * 2 ^ l) = Some 0) ->
  uniformLevel U0 L0 Force dL k st = Ok st' ->
  (forall l, (k <= l < maxLevel)%nat -> errors st' !! l = Some []) /\
  (forall l, (l < k)%nat -> error_at st' l (step0 * 2 ^ l) = Some 0).
Proof.
  intros [Hk HkM] (Hlen & Hel & Hsizes & Hempty & Hrows & Hq) Hfresh Hzero
    Hrun.
  destruct k as [|k]; [lia|].
  assert (solutions st !! k = Some (level_points st k)) as Hprev.
  { apply level_points_lookup. intros Hnil.
    specialize (Hsizes k ltac:(lia)). rewrite Hnil in Hsizes.
    simpl in Hsizes. lia. }
  assert (solutions st !! S k = Some []) as Hcur.
  { specialize (Hempty (S k) ltac:(lia)). unfold level_points in Hempty.
    destruct (solutions st !! S k) as [lv|] eqn:Hlv.
    - simpl in Hempty. congruence.
    - apply lookup_ge_None_1 in Hlv. lia. }
  replace k with (S k - 1)%nat in Hprev by lia.
  pose proof (Hfresh k ltac:(lia)) as Hrow0.
  replace k with (S k - 1)%nat in Hrow0 at 1 by lia.
  pose proof (uniformLevel_row_tail U0 L0 Force dL (S k) st st' _
                Hk Hprev Hcur Hrow0 Hrun) as Hlast.
  destruct (uniformLevel_Ok U0 L0 Force dL (S k) st st' _ Hk Hprev Hcur Hrun)
    as (new & row' & _ & _ & _ & _ & Herr & _).
  replace (S k - 1)%nat with k in * by lia.
  rewrite (Hsizes k ltac:(lia)) in Hlast.
  replace (step0 * 2 ^ k + 1 - 1)%nat with (step0 * 2 ^ k)%nat in Hlast
    by lia.
  split.
  - intros l Hl. rewrite Herr.
    rewrite list_lookup_insert_ne by lia. apply Hfresh. lia.
  - intros l Hl. destruct (decide (l = k)) as [->|Hne]; [exact Hlast|].
    unfold error_at. rewrite Herr.
    rewrite list_lookup_insert_ne by congruence. apply Hzero. lia.
Qed.

Lemma uniformLevels_zeroed (U0 : gsVector) (L0 : R) (Force : gsVector)
    (dL : R) (step0 maxLevel n k : nat) (st st' : @state AL) :
  (1 <= k)%nat -> (k + n <= maxLevel + 1)%nat -> shaped step0 maxLevel k st ->
  (forall l, (k - 1 <= l < maxLevel)%nat -> errors st !! l = Some []) ->
  (forall l, (l + 1 < k)%nat -> error_at st l (step0 * 2 ^ l) = Some 0) ->
  uniformLevels U0 L0 Force dL n k st = Ok st' ->
  forall l, (l + 1 < k + n)%nat -> error_at st' l (step0 * 2 ^ l) = Some 0.
Proof.
  revert k st. induction n as [|n IH]; intros k st Hk Hkn Hst Hfresh Hzero;
    simpl.
  - intros [= <-] l Hl. apply Hzero. lia.
  - intros Hrun. apply bind_Ok in Hrun as (st1 & Hl & Hrun).
    destruct (uniformLevel_zeroed U0 L0 Force dL step0 maxLevel k st st1
                ltac:(lia) Hst Hfresh Hzero Hl) as [Hfresh1 Hzero1].
    intros l Hlt.
    apply (IH (S k) st1); [lia | lia | | | | exact Hrun | lia].
    + eapply uniformLevel_shaped; [|exact Hst | exact Hl]. lia.
    + intros l' Hl'. apply Hfresh1. lia.
    + intros l' Hl'. apply Hzero1. lia.
Qed.

(** X15: an error row has one slot per point of its level but only the
    slots of the intervals are ever written: when the uniform phase ends
    normally, the last slot of every row, the one with the index of the
    last point, still holds the zero that [resize] put there. *)
Theorem error_rows_last_slot (Force : gsVector) (dL : R)
    (step0 maxLevel : nat) (al : AL) (st : @state AL) (l : nat) :
  build Force dL step0 maxLevel al = Ok st ->
  (l < maxLevel)%nat ->
  length (level_points st l) = (step0 * 2 ^ l + 1)%nat /\
  error_at st l (step0 * 2 ^ l) = Some 0.
Proof.
  intros Hb Hl.
  pose proof (build_shaped _ _ _ _ _ _ Hb) as (_ & _ & Hsizes & _).
  split; [apply Hsizes; lia|].
  unfold build in Hb.
  apply bind_Ok in Hb as (st0 & H0 & Hb).
  apply bind_Ok in Hb as (st1 & H1 & Hb). injection Hb as <-.
  change (error_at (storePoints maxLevel st1) l (step0 * 2 ^ l))
    with (error_at st1 l (step0 * 2 ^ l)).
  apply level0_shaped in H0 as [Hst0 Herr0].
  apply (uniformLevels_zeroed (setZero (length Force)) 0 Force dL step0
           maxLevel maxLevel 1 st0 st1); try lia; try assumption.
  intros l' Hl'. rewrite Herr0. apply lookup_repeat. lia.
Qed.

End LastSlot.

Lemma error_rows_last_slot_witness :
  build [1] (1 / 2) 2 2 script2 = Ok built2 /\ (1 < 2)%nat /\
  length (level_points built2 1) = (2 * 2 ^ 1 + 1)%nat /\
  error_at built2 1 (2 * 2 ^ 1) = Some 0.
Proof.
  assert (1 < 2)%nat as Hl by lia.
  split; [exact build2|]. split; [exact Hl|].
  exact (error_rows_last_slot [1] (1 / 2) 2 2 script2 built2 1 build2 Hl).
Defined.

(** ** The residual handed to the iterator *)

Lemma vsub_length (a b d : gsVector) :
  vsub a b = Some d -> length a = length b /\ length d = length b.
Proof.
  revert b d. induction a as [|x a IH]; intros [|y b] d; simpl;
    try discriminate.
  - intros [= <-]. auto.
  - destruct (vsub a b) as [d'|] eqn:E; [|discriminate].
    intros [= <-]. destruct (IH _ _ E) as [Ha Hd]. simpl. split; congruence.
Qed.

Lemma vsub_lookup (a b d : gsVector) (i : nat) (x y : R) :
  vsub a b = Some d -> a !! i = Some x -> b !! i = Some y ->
  d !! i = Some (x - y).
Proof.
  revert b d i. induction a as [|x' a IH]; intros [|y' b] d i; simpl;
    try discriminate.
  destruct (vsub a b) as [d'|] eqn:E; [|discriminate].
  intros [= <-]. destruct i as [|i]; simpl.
  - intros [= ->] [= ->]. reflexivity.
  - apply IH. exact E.
Qed.

Lemma vsub_defined (a b : gsVector) :
  length a = length b -> is_Some (vsub a b).
Proof.
  revert b. induction a as [|x a IH]; intros [|y b] Hlen; simpl in *;
    try discriminate; [eauto|].
  injection Hlen as Hlen. destruct (IH b Hlen) as [d ->]. eauto.
Qed.

(** X16: the residual [-(rhs - force) - lam * force] is defined exactly
    when the assembled right-hand side and [force] have one size, has
    that size, and its entries are [(1 - lam) * force_i - rhs_i]: it
    vanishes where the right-hand side equals [(1 - lam) * force]. *)
Theorem ALResidual_formula (rhs : gsVector -> gsVector) (x : gsVector)
    (lam : R) (force : gsVector) :
  (is_Some (ALResidual rhs x lam force) <-> length (rhs x) = length force) /\
  forall r, ALResidual rhs x lam force = Some r ->
    length r = length force /\
    forall i g f, rhs x !! i = Some g -> force !! i = Some f ->
                  r !! i = Some ((1 - lam) * f - g).
Proof.
  unfold ALResidual. split.
  - split.
    + intros [r Hr]. destruct (vsub (rhs x) force) as [d|] eqn:Hd;
        [|discriminate].
      apply vsub_length in Hd. apply Hd.
    + intros Hlen. destruct (vsub_defined _ _ Hlen) as [d Hd]. rewrite Hd.
      apply vsub_defined. rewrite !length_fmap.
      apply vsub_length in Hd. apply Hd.
  - intros r Hr. destruct (vsub (rhs x) force) as [d|] eqn:Hd;
      [|discriminate].
    cbv zeta in Hr. split.
    + apply vsub_length in Hr. rewrite !length_fmap in Hr. apply Hr.
    + intros i g f Hg Hf.
      pose proof (vsub_lookup _ _ _ i g f Hd Hg Hf) as Hdi.
      rewrite (vsub_lookup _ _ _ i (- (g - f)) (lam * f) Hr).
      * f_equal. lra.
      * rewrite list_lookup_fmap, Hdi. reflexivity.
      * rewrite list_lookup_fmap, Hf. reflexivity.
Qed.

(** ** [addClamping] *)

(** X17: for a positive [offset] and a smallest knot interval [dknot0]
    of direction 0 in (0,1], every knot that [addClamping] inserts, in
    direction 0 or 1, lies strictly inside (0,1), at most [offset] and at
    most [dknot0 / 2] away from the end of the interval it is next to: 0
    for west and south, 1 for east and north.  The bound for direction 1
    is the one of direction 0 as well. *)
Theorem addClamping_knots (dknot0 offset : R) (sides : list boundary.boxSide)
    (u : R) (dir : nat) :
  0 < offset -> 0 < dknot0 <= 1 ->
  In (u, dir) (addClamping dknot0 offset sides).1 ->
  (dir = 0%nat \/ dir = 1%nat) /\
  ((0 < u <= dknot0 / 2 /\ u <= offset) \/
   (1 - dknot0 / 2 <= u < 1 /\ 1 - offset <= u)).
Proof.
  intros Hoff Hdk. induction sides as [|s sides IH]; simpl; [tauto|].
  pose proof (Rmin_l offset (dknot0 / 2)) as Hl.
  pose proof (Rmin_r offset (dknot0 / 2)) as Hr.
  assert (0 < Rmin offset (dknot0 / 2)) as Hpos
    by (apply Rmin_glb_lt; lra).
  destruct s; simpl; try exact IH; try tauto;
    (intros [[= <- <-]|Hin]; [|exact (IH Hin)]);
    (split; [auto|]); [left | right | left | right]; lra.
Qed.

Lemma addClamping_knots_witness :
  0 < 1 / 4 /\ 0 < 1 / 8 <= 1 /\
  In (1 - Rmin (1 / 4) (1 / 8 / 2), 1%nat)
     (addClamping (1 / 8) (1 / 4) [boundary.west; boundary.north]).1 /\
  ((1 = 0)%nat \/ (1 = 1)%nat) /\
  ((0 < 1 - Rmin (1 / 4) (1 / 8 / 2) <= 1 / 8 / 2 /\
    1 - Rmin (1 / 4) (1 / 8 / 2) <= 1 / 4) \/
   (1 - 1 / 8 / 2 <= 1 - Rmin (1 / 4) (1 / 8 / 2) < 1 /\
    1 - 1 / 4 <= 1 - Rmin (1 / 4) (1 / 8 / 2))).
Proof.
  assert (0 < 1 / 4) as Hoff by lra.
  assert (0 < 1 / 8 <= 1) as Hdk by lra.
  assert (In (1 - Rmin (1 / 4) (1 / 8 / 2), 1%nat)
            (addClamping (1 / 8) (1 / 4) [boundary.west; boundary.north]).1)
    as Hin by (simpl; auto).
  split; [exact Hoff|]. split; [exact Hdk|]. split; [exact Hin|].
  exact (addClamping_knots (1 / 8) (1 / 4) [boundary.west; boundary.north]
           _ _ Hoff Hdk Hin).
Defined.

(** X18: [addClamping] raises its error at the first side it does not
    know, after the knots for the sides before it have been inserted, one
    for each of west, east, south and north, and without looking at the
    sides behind it. *)
Theorem addClamping_unknown_side (dknot0 offset : R)
    (before after : list boundary.boxSide) :
  ~ In boundary.other before ->
  (addClamping dknot0 offset before).2 = true /\
  length (addClamping dknot0 offset before).1
    = length (List.filter clamps before) /\
  addClamping dknot0 offset (before ++ boundary.other :: after)
    = ((addClamping dknot0 offset before).1, false).
Proof.
  intros Hno. induction before as [|s before IH]; simpl; [auto|].
  destruct IH as (Hok & Hlen & Herr).
  { intros Hin. apply Hno. right. exact Hin. }
  rewrite Herr.
  destruct s; simpl; rewrite ?Hlen; auto.
  exfalso. apply Hno. left. reflexivity.
Qed.

Lemma addClamping_unknown_side_witness :
  ~ In boundary.other [boundary.east; boundary.none] /\
  (addClamping 1 1 [boundary.east; boundary.none]).2 = true /\
  length (addClamping 1 1 [boundary.east; boundary.none]).1
    = length (List.filter clamps [boundary.east; boundary.none]) /\
  addClamping 1 1 ([boundary.east; boundary.none]
                   ++ boundary.other :: [boundary.west])
    = ((addClamping 1 1 [boundary.east; boundary.none]).1, false).
Proof.
  assert (~ In boundary.other [boundary.east; boundary.none]) as Hno.
  { simpl. intros [Hin|[Hin|[]]]; discriminate Hin. }
  split; [exact Hno|].
  exact (addClamping_unknown_side 1 1 [boundary.east; boundary.none]
           [boundary.west] Hno).
Defined.

(** ** The control net of [FrustrumDomain] *)

Lemma flat_map_blocks {A : Type} (f : nat -> list A) (m : nat) :
  (forall k, length (f k) = m) ->
  forall n a k j, (k < n)%nat -> (j < m)%nat ->
    flat_map f (seq a n) !! (m * k + j)%nat = f (a + k)%nat !! j.
Proof.
  intros Hf. induction n as [|n IH]; intros a k j Hk Hj; [lia|].
  simpl. destruct k as [|k].
  - rewrite Nat.mul_0_r, Nat.add_0_r. simpl.
    apply lookup_app_l. rewrite Hf. exact Hj.
  - rewrite lookup_app_r by (rewrite Hf; nia).
    rewrite Hf. replace (m * S k + j - m)%nat with (m * k + j)%nat by nia.
    rewrite IH by lia. f_equal. f_equal. lia.
Qed.

Lemma flat_map_blocks_length {A : Type} (f : nat -> list A) (m : nat) :
  (forall k, length (f k) = m) ->
  forall n a, length (flat_map f (seq a n)) = (m * n)%nat.
Proof.
  intros Hf. induction n as [|n IH]; intros a; simpl; [lia|].
  rewrite length_app, Hf, IH. lia.
Qed.

Lemma ringCount_rings (n : Z) : (2 <= ringCount n)%nat.
Proof. unfold ringCount. destruct (n <? 0)%Z; lia. Qed.


(** ** The step output file *)

Lemma occurrences_app (c : ascii) (s t : string) :
  occurrences c (s +:+ t) = (occurrences c s + occurrences c t)%nat.
Proof. induction s as [|a s IH]; simpl; [reflexivity|]. rewrite IH. lia. Qed.

Lemma decimal_plain (c : ascii) (k : nat) :
  (c = comma \/ c = lf) -> occurrences c (decimal k) = 0%nat.
Proof.
  intros Hc. unfold decimal. generalize (Nat.to_uint k). intros d.
  induction d; simpl; try rewrite IHd; try reflexivity;
    destruct Hc as [-> | ->]; reflexivity.
Qed.

Lemma headerCells_commas (k : nat) : occurrences comma (headerCells k) = 3%nat.
Proof.
  unfold headerCells. rewrite !occurrences_app.
  rewrite !(decimal_plain comma) by auto. reflexivity.
Qed.

Lemma headerCells_lines (k : nat) : occurrences lf (headerCells k) = 0%nat.
Proof.
  unfold headerCells. rewrite !occurrences_app.
  rewrite !(decimal_plain lf) by auto. reflexivity.
Qed.

Lemma occurrences_cells (c : ascii) (f : nat -> string) (m : nat)
    (tl : string) (ks : list nat) :
  (forall k, occurrences c (f k) = m) ->
  occurrences c (foldr (fun k rest => f k +:+ rest) tl ks)
  = (m * length ks + occurrences c tl)%nat.
Proof.
  intros Hf. induction ks as [|k ks IH]; simpl; [lia|].
  rewrite occurrences_app, Hf, IH. lia.
Qed.

Lemma headerLine_commas (cols : nat) :
  occurrences comma (headerLine cols) = (3 * cols + 2)%nat.
Proof.
  unfold headerLine. rewrite !occurrences_app.
  rewrite (occurrences_cells comma headerCells 3) by apply headerCells_commas.
  rewrite length_seq. simpl. lia.
Qed.

Lemma headerLine_lines (cols : nat) :
  occurrences lf (headerLine cols) = 1%nat.
Proof.
  unfold headerLine. rewrite !occurrences_app.
  rewrite (occurrences_cells lf headerCells 0) by apply headerCells_lines.
  reflexivity.
Qed.



Section StepOutputRows.

Variable fmt : R -> string.
Variable fmtExtreme : R -> R -> string.
Variable eval : R * R -> R * R * R.

Hypothesis fmt_plain :
  forall c x, c = comma \/ c = lf -> occurrences c (fmt x) = 0%nat.
Hypothesis fmtExtreme_plain :
  forall c a b, c = comma \/ c = lf -> occurrences c (fmtExtreme a b) = 0%nat.

Lemma plainCells_commas (P : R * R) :
  occurrences comma (plainCells fmt eval P) = 3%nat /\
  occurrences lf (plainCells fmt eval P) = 0%nat.
Proof.
  unfold plainCells. destruct (eval P) as [[x y] z].
  rewrite !occurrences_app, !fmt_plain by auto. split; reflexivity.
Qed.

Lemma extremeCells_commas (extreme kmax : Z) (P : R * R) :
  occurrences comma (extremeCells fmt fmtExtreme eval extreme kmax P) = 3%nat /\
  occurrences lf (extremeCells fmt fmtExtreme eval extreme kmax P) = 0%nat.
Proof.
  unfold extremeCells. destruct (eval P) as [[x y] z]. cbv zeta.
  rewrite !occurrences_app, !fmt_plain, !fmtExtreme_plain by auto.
  split; reflexivity.
Qed.

Lemma outputRow_commas (U : gsVector) (L indicator : R)
    (cells : list string) :
  (forall s, In s cells ->
             occurrences comma s = 3%nat /\ occurrences lf s = 0%nat) ->
  occurrences comma (outputRow fmt U L indicator cells)
    = (3 * length cells + 3)%nat /\
  occurrences lf (outputRow fmt U L indicator cells) = 1%nat.
Proof.
  intros Hcells. unfold outputRow.
  rewrite !occurrences_app, !fmt_plain by auto.
  induction cells as [|s cells IH]; simpl.
  - rewrite !occurrences_app, !fmt_plain by auto. split; reflexivity.
  - rewrite !occurrences_app.
    destruct (Hcells s ltac:(left; reflexivity)) as [-> ->].
    destruct IH as [IHc IHl].
    { intros s' Hs'. apply Hcells. right. exact Hs'. }
    simpl in IHc, IHl. split; lia.
Qed.


End StepOutputRows.


(** ** The counts of [gsAssemblerOptions] *)

Lemma wrap_index_mul (a b : Z) :
  wrap_index (wrap_index a * b) = wrap_index (a * b).
Proof.
  unfold wrap_index. f_equal.
  rewrite <- (Zplus_mod_idemp_l (_ * b)), <- (Zplus_mod_idemp_l (a * b)).
  f_equal. f_equal.
  rewrite <- Zmult_mod_idemp_l. symmetry. rewrite <- Zmult_mod_idemp_l.
  f_equal. f_equal.
  rewrite Zminus_mod_idemp_l. f_equal. lia.
Qed.

Lemma wrap_index_fits (z : Z) :
  (- 2 ^ 31 <= z < 2 ^ 31)%Z -> wrap_index z = z.
Proof.
  intros Hz. unfold wrap_index. rewrite Z.mod_small; lia.
Qed.

Lemma truncate_affine (a b d : Z) :
  (0 <= a * d + b < 2 ^ 31)%Z ->
  truncate (inject_Z a * inject_Z d + inject_Z b + (1 # 2))
  = Some (a * d + b)%Z.
Proof.
  intros Hz. unfold truncate. cbv zeta.
  assert (Z.quot (Qnum (inject_Z a * inject_Z d + inject_Z b + (1 # 2)))
                 (Z.pos (Qden (inject_Z a * inject_Z d + inject_Z b + (1 # 2))))
          = a * d + b)%Z as ->.
  { simpl. symmetry. apply Z.quot_unique with (r := 1%Z); lia. }
  unfold fits_index.
  destruct (Z.leb_spec (- 2 ^ 31) (a * d + b)); [|lia].
  destruct (Z.ltb_spec (a * d + b) (2 ^ 31)); [reflexivity | lia].
Qed.

Lemma index_product (a : Q) (b : Z) (deg : nat -> Z) (f : nat -> Z)
    (n : nat) :
  (forall i, (i < n)%nat ->
     truncate (a * inject_Z (deg i) + inject_Z b + (1 # 2)) = Some (f i)) ->
  foldl (fun res i =>
           match res, truncate (a * inject_Z (deg i) + inject_Z b + (1 # 2))
           with
           | Some r, Some f => Some (wrap_index (r * f))
           | _, _ => None
           end)
        (Some 1%Z) (seq 0 n)
  = Some (wrap_index (product f n)).
Proof.
  intros Hf. unfold product.
  assert (forall l acc,
            (forall i, In i l -> (i < n)%nat) ->
            foldl (fun res i =>
                     match res,
                           truncate (a * inject_Z (deg i) + inject_Z b + (1 # 2))
                     with
                     | Some r, Some f => Some (wrap_index (r * f))
                     | _, _ => None
                     end) (Some (wrap_index acc)) l
            = Some (wrap_index (foldl (fun res i => (res * f i)%Z) acc l)))
    as Hgen.
  { induction l as [|i l IH]; intros acc Hl; simpl; [reflexivity|].
    rewrite Hf by (apply Hl; left; reflexivity).
    rewrite wrap_index_mul. apply IH.
    intros j Hj. apply Hl. right. exact Hj. }
  rewrite <- (wrap_index_fits 1) at 1 by lia.
  apply Hgen. intros i Hi. apply in_seq in Hi. lia.
Qed.

Lemma product_pos (f : nat -> Z) (n : nat) :
  (forall i, (i < n)%nat -> 1 <= f i)%Z -> (1 <= product f n)%Z.
Proof.
  intros Hf. unfold product.
  assert (forall l acc, (1 <= acc)%Z -> (forall i, In i l -> (i < n)%nat) ->
            (1 <= foldl (fun res i => (res * f i)%Z) acc l)%Z) as Hgen.
  { induction l as [|i l IH]; intros acc Hacc Hl; simpl; [exact Hacc|].
    apply IH.
    - specialize (Hf i (Hl i ltac:(left; reflexivity))). nia.
    - intros j Hj. apply Hl. right. exact Hj. }
  apply Hgen; [lia|]. intros i Hi. apply in_seq in Hi. lia.
Qed.

(** X22: with the default options and degrees from 0 to [2^31 - 2],
    [numQuNodes] is the product of [degree + 1] over the directions of
    the domain, kept in 32 bits: the product itself as long as that is
    below [2^31], and its low 32 bits read as a signed number beyond. *)
Theorem numQuNodes_default (b : gsBasis) :
  (forall i, (i < domainDim b)%nat -> (0 <= degree b i < 2 ^ 31 - 1)%Z) ->
  numQuNodes defaultOptions b
  = Some (wrap_index (product (fun i => degree b i + 1)%Z (domainDim b))) /\
  ((product (fun i => degree b i + 1) (domainDim b) < 2 ^ 31)%Z ->
   numQuNodes defaultOptions b
   = Some (product (fun i => degree b i + 1)%Z (domainDim b))).
Proof.
  intros Hdeg.
  assert (numQuNodes defaultOptions b
          = Some (wrap_index (product (fun i => degree b i + 1)%Z
                                (domainDim b)))) as Heq.
  { unfold numQuNodes. apply index_product. intros i Hi.
    specialize (Hdeg i Hi).
    change (quA defaultOptions) with (inject_Z 1).
    change (quB defaultOptions) with 1%Z.
    rewrite truncate_affine by lia. f_equal. lia. }
  split; [exact Heq|]. intros Hsmall. rewrite Heq. f_equal.
  apply wrap_index_fits.
  pose proof (product_pos (fun i => degree b i + 1)%Z (domainDim b)) as Hpos.
  specialize (Hpos ltac:(intros i Hi; specialize (Hdeg i Hi); lia)). lia.
Qed.

(** X23: with the default options and degrees from 0 to [2^30 - 1],
    [numColNz] is computed from the product [nz] of [2 * degree + 1] over
    the directions, kept in 32 bits: it is the integer part of
    [1.33334 * nz] when that fits [index_t].  As long as 1.33334 times
    the exact product is below [2^31], it is the integer part of that and
    not less than the product. *)
Theorem numColNz_default (b : gsBasis) :
  (forall i, (i < dim b)%nat -> (0 <= degree b i < 2 ^ 30)%Z) ->
  numColNz defaultOptions b
  = (let nz := wrap_index (product (fun i => 2 * degree b i + 1)%Z (dim b)) in
     if fits_index (Z.quot (133334 * nz) 100000)
     then Some (Z.quot (133334 * nz) 100000) else None) /\
  ((133334 * product (fun i => 2 * degree b i + 1) (dim b)
    < 2 ^ 31 * 100000)%Z ->
   numColNz defaultOptions b
   = Some (133334 * product (fun i => 2 * degree b i + 1) (dim b)
           / 100000)%Z /\
   (product (fun i => 2 * degree b i + 1) (dim b)
    <= 133334 * product (fun i => 2 * degree b i + 1) (dim b) / 100000)%Z).
Proof.
  intros Hdeg.
  set (P := product (fun i => (2 * degree b i + 1)%Z) (dim b)).
  assert (numColNz defaultOptions b
          = (let nz := wrap_index P in
             if fits_index (Z.quot (133334 * nz) 100000)
             then Some (Z.quot (133334 * nz) 100000) else None)) as Heq.
  { unfold numColNz. cbv zeta.
    rewrite (index_product _ _ _ (fun i => (2 * degree b i + 1)%Z)).
    - fold P. unfold truncate. cbv zeta.
      change (Qnum (inject_Z (wrap_index P)
                    * (1 + memOverhead defaultOptions)))
        with (wrap_index P * 133334)%Z.
      change (Z.pos (Qden (inject_Z (wrap_index P)
                           * (1 + memOverhead defaultOptions))))
        with 100000%Z.
      replace (wrap_index P * 133334)%Z with (133334 * wrap_index P)%Z by lia.
      reflexivity.
    - intros i Hi. specialize (Hdeg i Hi).
      change (bdA defaultOptions) with (inject_Z 2).
      change (bdB defaultOptions) with 1%Z.
      rewrite truncate_affine by lia. reflexivity. }
  split; [exact Heq|]. intros Hsmall.
  pose proof (product_pos (fun i => 2 * degree b i + 1)%Z (dim b)) as Hpos.
  specialize (Hpos ltac:(intros i Hi; specialize (Hdeg i Hi); lia)).
  fold P in Hpos.
  assert (P <= 133334 * P / 100000)%Z as Hle
    by (apply Z.div_le_lower_bound; lia).
  assert (133334 * P / 100000 < 2 ^ 31)%Z as Hlt
    by (apply Z.div_lt_upper_bound; lia).
  split; [|exact Hle].
  rewrite Heq. cbv zeta. rewrite (wrap_index_fits P) by lia.
  rewrite Z.quot_div_nonneg by lia.
  unfold fits_index.
  destruct (Z.leb_spec (- 2 ^ 31) (133334 * P / 100000)); [|lia].
  destruct (Z.ltb_spec (133334 * P / 100000) (2 ^ 31)); [reflexivity | lia].
Qed.

Lemma numQuNodes_default_witness :
  numQuNodes defaultOptions steepBasis
  = Some (wrap_index (product (fun i => degree steepBasis i + 1)%Z
                        (domainDim steepBasis))) /\
  ((product (fun i => degree steepBasis i + 1) (domainDim steepBasis)
    < 2 ^ 31)%Z ->
   numQuNodes defaultOptions steepBasis
   = Some (product (fun i => degree steepBasis i + 1)%Z
             (domainDim steepBasis))) /\
  numQuNodes defaultOptions steepBasis = Some 0%Z.
Proof.
  assert (forall i, (i < domainDim steepBasis)%nat ->
                    (0 <= degree steepBasis i < 2 ^ 31 - 1)%Z) as Hdeg
    by (intros i Hi; simpl; lia).
  destruct (numQuNodes_default steepBasis Hdeg) as [Heq Hsmall].
  split; [exact Heq|]. split; [exact Hsmall|].
  rewrite Heq. vm_compute. reflexivity.
Defined.

Lemma numColNz_default_witness :
  (forall i, (i < dim steepBasis)%nat ->
             (0 <= degree steepBasis i < 2 ^ 30)%Z) /\
  numColNz defaultOptions steepBasis
  = (let nz := wrap_index (product (fun i => 2 * degree steepBasis i + 1)%Z
                             (dim steepBasis)) in
     if fits_index (Z.quot (133334 * nz) 100000)
     then Some (Z.quot (133334 * nz) 100000) else None) /\
  numColNz defaultOptions steepBasis = Some (-349525)%Z.
Proof.
  assert (forall i, (i < dim steepBasis)%nat ->
                    (0 <= degree steepBasis i < 2 ^ 30)%Z) as Hdeg
    by (intros i Hi; simpl; lia).
  destruct (numColNz_default steepBasis Hdeg) as [Heq _].
  split; [exact Hdeg|]. split; [exact Heq|].
  rewrite Heq. vm_compute. reflexivity.
Defined.

(** ** The material data of [main] *)

(** X24: [thickness], read at lines 199, 240 and 244, has been assigned
    exactly when [testCase] is 1, 2 or 3, which excludes the default 0;
    the arguments of [gsCompositeMatrix] at line 226 have all been
    assigned exactly when [composite] is set, and are then 3300, 1100,
    660, 0.25 and 1/12. *)
Theorem material_reads (composite : bool) (testCase : Z) :
  (is_Some (thickness (materialSetup composite testCase))
   <-> (1 <= testCase <= 3)%Z) /\
  (is_Some (compositeMatrixArgs (materialSetup composite testCase))
   <-> composite = true) /\
  (composite = true ->
   compositeMatrixArgs (materialSetup composite testCase)
   = Some (3300, 1100, 660, 1 / 4, 1 / 12)).
Proof.
  split; [|split].
  - unfold materialSetup. cbn [thickness].
    destruct (testCase =? 1)%Z eqn:H1; [apply Z.eqb_eq in H1|];
      [split; [lia | eauto]|].
    destruct (testCase =? 2)%Z eqn:H2; [apply Z.eqb_eq in H2|];
      [split; [lia | eauto]|].
    destruct (testCase =? 3)%Z eqn:H3; [apply Z.eqb_eq in H3|];
      [split; [lia | eauto]|].
    apply Z.eqb_neq in H1, H2, H3.
    split; [intros [x Hx]; discriminate Hx | lia].
  - destruct composite; unfold compositeMatrixArgs; simpl.
    + split; eauto.
    + split; [intros [x Hx]; discriminate Hx | discriminate].
  - intros ->. unfold compositeMatrixArgs. simpl.
    do 2 f_equal; [f_equal; lra | lra].
Qed.

(** ** The uniform phase stays inside its containers *)

Section UniformSafety.

Context {AL : Type} `{ArcLengthIterator AL}.

Lemma post_at_known {A B : Type} (st : @state AL) (v : list A) (i : nat)
    (x : A) (k : A -> result (@state AL) B) (Q : B -> Prop)
    (E : failure -> @state AL -> Prop) :
  v !! i = Some x -> post (k x) Q E -> post (bind (at_ st v i) k) Q E.
Proof. intros Hx. unfold at_. rewrite Hx. simpl. auto. Qed.

Lemma post_subscript_known {A B : Type} (st : @state AL) (v : list A)
    (i : nat) (x : A) (k : A -> result (@state AL) B) (Q : B -> Prop)
    (E : failure -> @state AL -> Prop) :
  v !! i = Some x -> post (k x) Q E -> post (bind (subscript st v i) k) Q E.
Proof. intros Hx. unfold subscript. rewrite Hx. simpl. auto. Qed.

Lemma sized_push (n : nat) (sols : list (list point)) (l : nat)
    (lv : list point) (pt : point) :
  sized n sols -> sols !! l = Some lv -> length pt.1 = n ->
  sized n (<[l := lv ++ [pt]]> sols).
Proof.
  intros Hs Hl Hpt l' lv' pt' Hl' Hin.
  destruct (decide (l' = l)) as [->|Hne].
  - rewrite list_lookup_insert_eq in Hl'
      by (apply lookup_lt_is_Some; eauto).
    injection Hl' as <-. apply in_app_or in Hin as [Hin|[<-|[]]].
    + apply (Hs l lv pt' Hl Hin).
    + exact Hpt.
  - rewrite list_lookup_insert_ne in Hl' by congruence.
    apply (Hs l' lv' pt' Hl' Hin).
Qed.

Lemma stepAndStore_safe (l : nat) (st : @state AL) (lv : list point) :
  solutions st !! l = Some lv ->
  post (stepAndStore l st)
    (fun st' =>
       st' = set_solutions
               (<[l := lv ++ [(solutionU (step (arcLength st)),
                               solutionL (step (arcLength st)))]]>
                  (solutions st))
               (set_arcLength (step (arcLength st)) st))
    (fun f _ => f = NotConverged).
Proof.
  intros Hl. unfold stepAndStore. cbv zeta.
  change (arcLength (set_arcLength (step (arcLength st)) st))
    with (step (arcLength st)).
  destruct (converged (step (arcLength st))); [|reflexivity].
  unfold push_solution, subscript.
  change (solutions (set_arcLength (step (arcLength st)) st))
    with (solutions st).
  rewrite Hl. reflexivity.
Qed.

Section WithForce.

Variable Force : gsVector.

Hypothesis iterator_size : forall a : AL, length (solutionU a) = length Force.

Lemma level0Steps_safe (k : nat) (st : @state AL) :
  is_Some (solutions st !! 0%nat) -> sized (length Force) (solutions st) ->
  post (level0Steps k st) (fun st' => sized (length Force) (solutions st'))
       (fun f _ => f = NotConverged).
Proof.
  revert st. induction k as [|k IH]; intros st [lv Hlv] Hs; simpl;
    [exact Hs|].
  eapply post_bind; [apply (stepAndStore_safe 0 st lv Hlv)|].
  intros st1 ->. apply IH.
  - simpl. apply lookup_lt_is_Some. rewrite length_insert.
    apply lookup_lt_is_Some. eauto.
  - simpl. apply sized_push; [exact Hs | exact Hlv | apply iterator_size].
Qed.

Lemma uniformInterval_safe (dLi : R) (level p : nat) (st : @state AL)
    (prev lv : list point) (old guess : point) (row : list R) :
  (1 <= level)%nat ->
  solutions st !! (level - 1)%nat = Some prev ->
  prev !! p = Some old -> prev !! (p + 1)%nat = Some guess ->
  solutions st !! level = Some lv ->
  errors st !! (level - 1)%nat = Some row -> (p < length row)%nat ->
  sized (length Force) (solutions st) ->
  post (uniformInterval Force dLi level p st)
       (fun st' => sized (length Force) (solutions st'))
       (fun f _ => f = NotConverged).
Proof.
  intros Hlevel Hprev Hold Hguess Hlv Hrow Hp Hs. unfold uniformInterval.
  apply (post_subscript_known _ _ _ prev); [exact Hprev|].
  apply (post_at_known _ _ _ old); [exact Hold|]. cbv zeta.
  apply (post_at_known _ _ _ guess); [exact Hguess|].
  eapply post_bind; [apply (stepAndStore_safe level _ lv); exact Hlv|].
  intros st1 ->.
  eapply post_bind.
  { eapply stepAndStore_safe. simpl.
    apply list_lookup_insert_eq. apply lookup_lt_is_Some. eauto. }
  intros st2 ->. simpl.
  set (a0 := setInitialGuess guess.1 guess.2
               (resetStep (setSolution old.1 old.2 (arcLength st)))).
  rewrite list_insert_insert_eq.
  set (lv2 := (lv ++ [(solutionU (step a0), solutionL (step a0))])
              ++ [(solutionU (step (step a0)), solutionL (step (step a0)))]).
  assert (sized (length Force) (<[level := lv2]> (solutions st))) as Hs2.
  { subst lv2. replace (<[level := _]> (solutions st))
      with (<[level := (lv ++ [(solutionU (step a0), solutionL (step a0))])
                       ++ [(solutionU (step (step a0)),
                            solutionL (step (step a0)))]]>
              (<[level := lv ++ [(solutionU (step a0), solutionL (step a0))]]>
                 (solutions st)))
      by apply list_insert_insert_eq.
    apply sized_push; [apply sized_push; [exact Hs | exact Hlv |]| |];
      try apply iterator_size.
    apply list_lookup_insert_eq. apply lookup_lt_is_Some. eauto. }
  apply (post_subscript_known _ _ _ prev).
  { rewrite list_lookup_insert_ne by lia. exact Hprev. }
  apply (post_at_known _ _ _ guess); [exact Hguess|].
  unfold storeError. simpl.
  assert (length guess.1 = length (solutionU (step (step a0)))) as Hsz.
  { rewrite iterator_size.
    apply (Hs _ _ guess Hprev). apply list_elem_of_In.
    apply list_elem_of_lookup_2 with (p + 1)%nat. exact Hguess. }
  unfold errorEstimate.
  destruct (vsub_same_size _ _ Hsz) as (d & -> & _).
  unfold subscript at 1. simpl. rewrite Hrow. simpl.
  unfold at_ at 1.
  destruct (lookup_lt_is_Some_2 row p Hp) as [e0 He0]. rewrite He0. simpl.
  unfold subscript at 1. simpl.
  rewrite list_lookup_insert_eq by (apply lookup_lt_is_Some; eauto). simpl.
  unfold at_ at 1. rewrite list_lookup_insert_eq by exact Hp. simpl.
  destruct (Rgt_dec _ ptol); [|exact Hs2].
  unfold subscript. simpl.
  rewrite list_lookup_insert_eq by (apply lookup_lt_is_Some; eauto).
  simpl. exact Hs2.
Qed.

Lemma intervalLoop_safe (dLi : R) (level : nat) :
  (1 <= level)%nat ->
  forall (n p : nat) (st : @state AL) (prev lv : list point) (row : list R),
    solutions st !! (level - 1)%nat = Some prev ->
    (p + n + 1 <= length prev)%nat ->
    solutions st !! level = Some lv ->
    errors st !! (level - 1)%nat = Some row -> length row = length prev ->
    sized (length Force) (solutions st) ->
    post (intervalLoop Force dLi level n p st)
         (fun st' => sized (length Force) (solutions st'))
         (fun f _ => f = NotConverged).
Proof.
  intros Hlevel. induction n as [|n IH];
    intros p st prev lv row Hprev Hpn Hlv Hrow Hrl Hs; simpl; [exact Hs|].
  destruct (lookup_lt_is_Some_2 prev p ltac:(lia)) as [old Hold].
  destruct (lookup_lt_is_Some_2 prev (p + 1) ltac:(lia)) as [guess Hguess].
  pose proof (uniformInterval_safe dLi level p st prev lv old guess row
                Hlevel Hprev Hold Hguess Hlv Hrow ltac:(lia) Hs) as Hsafe.
  destruct (uniformInterval Force dLi level p st) as [st1|f s] eqn:Hu;
    simpl in *; [|exact Hsafe].
  apply uniformInterval_Ok in Hu.
  destruct Hu as (prev0 & old0 & guess0 & lv0 & prev2 & coarse & e & row0
                  & Hu).
  cbv zeta in Hu.
  destruct Hu as (_ & _ & _ & Hlv0 & _ & _ & Hsol1 & _ & _ & _ & _
                  & Hrow0 & Hp & Herr1 & _).
  rewrite Hrow in Hrow0. injection Hrow0 as <-.
  eapply (IH (S p) st1 prev _ (<[p := e]> row)).
  - rewrite Hsol1. rewrite list_lookup_insert_ne by lia. exact Hprev.
  - lia.
  - rewrite Hsol1. apply list_lookup_insert_eq.
    apply lookup_lt_is_Some. eauto.
  - rewrite Herr1. apply list_lookup_insert_eq.
    apply lookup_lt_is_Some. eauto.
  - rewrite length_insert. exact Hrl.
  - exact Hsafe.
Qed.

Lemma uniformLevel_safe (dL : R) (level : nat) (st : @state AL)
    (prev : list point) :
  (1 <= level)%nat ->
  solutions st !! (level - 1)%nat = Some prev -> prev <> [] ->
  solutions st !! level = Some [] ->
  is_Some (errors st !! (level - 1)%nat) ->
  sized (length Force) (solutions st) ->
  post (uniformLevel (setZero (length Force)) 0 Force dL level st)
       (fun st' => sized (length Force) (solutions st'))
       (fun f _ => f = NotConverged).
Proof.
  intros Hlevel Hprev Hne Hcur [row Hrow] Hs. unfold uniformLevel.
  apply (post_subscript_known _ _ _ prev); [exact Hprev|].
  apply (post_subscript_known _ _ _ row); [exact Hrow|]. cbv zeta.
  unfold push_solution at 1, subscript at 1. simpl. rewrite Hcur. simpl.
  assert (Z.to_nat (pred_size_t (length prev)) = (length prev - 1)%nat)
    as ->.
  { destruct prev as [|x prev]; [contradiction|].
    cbn [length pred_size_t]. lia. }
  eapply post_bind.
  { apply (intervalLoop_safe _ level Hlevel _ 0 _ prev
             [(setZero (length Force), 0)]
             (resize 0 (length prev) row)); simpl.
    - rewrite list_lookup_insert_ne by lia. exact Hprev.
    - destruct prev; [contradiction | simpl; lia].
    - apply list_lookup_insert_eq. apply lookup_lt_is_Some. eauto.
    - apply list_lookup_insert_eq. apply lookup_lt_is_Some. eauto.
    - apply length_resize.
    - apply (sized_push _ _ _ [] _ Hs Hcur). simpl.
      unfold setZero. apply repeat_length. }
  intros st2 Hs2. simpl.
  intros l lv pt Hl Hin.
  apply lookup_app_Some in Hl as [Hl|[_ Hl]].
  - apply (Hs2 l lv pt Hl Hin).
  - destruct (l - length (solutions st2))%nat as [|d]; simpl in Hl.
    + injection Hl as <-. destruct Hin.
    + rewrite lookup_nil in Hl. discriminate.
Qed.

Lemma uniformLevels_safe (dL : R) (step0 maxLevel n k : nat)
    (st : @state AL) :
  (1 <= k)%nat -> (k + n <= maxLevel + 1)%nat -> shaped step0 maxLevel k st ->
  sized (length Force) (solutions st) ->
  post (uniformLevels (setZero (length Force)) 0 Force dL n k st)
       (fun st' => sized (length Force) (solutions st'))
       (fun f _ => f = NotConverged).
Proof.
  revert k st. induction n as [|n IH]; intros k st Hk Hkn Hst Hs; simpl;
    [exact Hs|].
  pose proof Hst as (Hlen & Hel & Hsizes & Hempty & _).
  destruct k as [|k]; [lia|].
  assert (solutions st !! k = Some (level_points st k)) as Hprev.
  { apply level_points_lookup. intros Hnil.
    specialize (Hsizes k ltac:(lia)). rewrite Hnil in Hsizes.
    simpl in Hsizes. lia. }
  assert (level_points st k <> []) as Hne.
  { intros Hnil. specialize (Hsizes k ltac:(lia)). rewrite Hnil in Hsizes.
    simpl in Hsizes. lia. }
  assert (solutions st !! S k = Some []) as Hcur.
  { specialize (Hempty (S k) ltac:(lia)). unfold level_points in Hempty.
    destruct (solutions st !! S k) as [lv|] eqn:Hlv.
    - simpl in Hempty. congruence.
    - apply lookup_ge_None_1 in Hlv. lia. }
  replace k with (S k - 1)%nat in Hprev at 1 by lia.
  pose proof (uniformLevel_safe dL (S k) st _ ltac:(lia) Hprev Hne Hcur)
    as Hsafe.
  replace (S k - 1)%nat with k in Hsafe by lia.
  specialize (Hsafe ltac:(apply lookup_lt_is_Some; lia) Hs).
  destruct (uniformLevel (setZero (length Force)) 0 Force dL (S k) st)
    as [st1|f s] eqn:Hu; simpl in *; [|exact Hsafe].
  apply (IH (S (S k)) st1); [lia | lia | | exact Hsafe].
  eapply uniformLevel_shaped; [|exact Hst | exact Hu]. lia.
Qed.

Lemma level0_safe (step0 maxLevel : nat) (al : AL) :
  post (level0 Force step0 maxLevel al)
       (fun st' => sized (length Force) (solutions st'))
       (fun f _ => f = NotConverged).
Proof.
  unfold level0. cbv zeta.
  unfold push_solution at 1, subscript at 1. simpl.
  rewrite Nat.add_1_r. simpl.
  apply level0Steps_safe; simpl; [eauto|].
  intros l lv pt Hl Hin. destruct l as [|l]; simpl in Hl.
  - injection Hl as <-. destruct Hin as [<-|[]]. simpl.
    unfold setZero. apply repeat_length.
  - apply list_elem_of_lookup_2, list_elem_of_In, repeat_spec in Hl.
    subst lv. destruct Hin.
Qed.

Lemma build_sized (dL : R) (step0 maxLevel : nat) (al : AL)
    (st : @state AL) :
  build Force dL step0 maxLevel al = Ok st ->
  sized (length Force) (solutions st).
Proof.
  unfold build. intros Hb.
  pose proof (level0_safe step0 maxLevel al) as H0.
  destruct (level0 Force step0 maxLevel al) as [st0|f0 s0] eqn:Hl0;
    simpl in *; [|discriminate].
  apply level0_shaped in Hl0 as [Hst0 _].
  pose proof (uniformLevels_safe dL step0 maxLevel maxLevel 1 st0
                ltac:(lia) ltac:(lia) Hst0 H0) as H1.
  destruct (uniformLevels (setZero (length Force)) 0 Force dL maxLevel 1 st0)
    as [st1|f1 s1]; simpl in *; [|discriminate].
  injection Hb as <-. exact H1.
Qed.

(** X25: with an iterator whose solution vector always has the size of
    the load vector, the uniform phase (level 0 and the levels
    [1..maxLevel]) can only fail by a step that does not converge: every
    [at] and every subscript of lines 358-467 stays inside its vector, and
    the operands of every error estimate have one size. *)
Theorem build_fails_only_by_divergence (dL : R) (step0 maxLevel : nat)
    (al : AL) (f : failure) (s : @state AL) :
  build Force dL step0 maxLevel al = Fatal f s -> f = NotConverged.
Proof.
  unfold build. intros Hb.
  pose proof (level0_safe step0 maxLevel al) as H0.
  destruct (level0 Force step0 maxLevel al) as [st0|f0 s0] eqn:Hl0;
    simpl in *; [|congruence].
  apply level0_shaped in Hl0 as [Hst0 _].
  pose proof (uniformLevels_safe dL step0 maxLevel maxLevel 1 st0
                ltac:(lia) ltac:(lia) Hst0 H0) as H1.
  destruct (uniformLevels (setZero (length Force)) 0 Force dL maxLevel 1 st0)
    as [st1|f1 s1]; simpl in *; [discriminate|congruence].
Qed.

End WithForce.

End UniformSafety.

Lemma build_fails_only_by_divergence_witness :
  (forall a : nat, length (solutionU a) = length [1]) /\
  build [1] (1 / 2) 2 0 2%nat = Fatal NotConverged ran_out /\
  NotConverged = NotConverged.
Proof.
  assert (forall a : nat, length (solutionU a) = length [1]) as Hsize
    by (intros a; reflexivity).
  assert (build [1] (1 / 2) 2 0 2%nat = Fatal NotConverged ran_out) as Hrun
    by reflexivity.
  split; [exact Hsize|]. split; [exact Hrun|].
  exact (build_fails_only_by_divergence [1] Hsize (1 / 2) 2 0 2%nat
           NotConverged ran_out Hrun).
Defined.

(** ** The first task of the refinement loop *)

Section FirstTask.

Context {AL : Type} `{ArcLengthIterator AL}.

Lemma ensureLevels_kept (level : nat) (st : @state AL) :
  (1 <= level)%nat ->
  (level + 1 <= length (solutions st))%nat ->
  (level <= length (errors st))%nat ->
  ensureLevels level st = st.
Proof.
  intros Hlevel Hsol Herr. unfold ensureLevels. cbv zeta.
  assert ((pred_size_t (length (solutions st)) <? Z.of_nat level)%Z = false)
    as ->.
  { apply Z.ltb_ge. destruct (length (solutions st)); [lia|].
    cbn [pred_size_t]. lia. }
  assert ((pred_size_t (length (errors st)) <? pred_size_t level)%Z = false)
    as ->; [|reflexivity].
  apply Z.ltb_ge. destruct level as [|k]; [lia|].
  destruct (length (errors st)); [lia|]. cbn [pred_size_t]. lia.
Qed.

(** A task whose reads are all in range and whose two steps converge
    finishes. *)
Lemma refineTask_runs (Force : gsVector) (dL : R) (level rl p : nat)
    (st : @state AL) (src lv cmp : list point) (old guess coarse : point)
    (row : list R) :
  (1 <= level)%nat ->
  (level + 2 <= length (solutions st))%nat ->
  (level <= length (errors st))%nat ->
  rl <> (level + 1)%nat ->
  solutions st !! rl = Some src ->
  src !! p = Some old -> src !! (p + 1)%nat = Some guess ->
  solutions st !! (level + 1)%nat = Some lv ->
  (length (solutions st) - 1 < length lv + 2)%nat ->
  solutions st !! level = Some cmp -> cmp !! (p + 1)%nat = Some coarse ->
  errors st !! level = Some row -> (p < length row)%nat ->
  converged (step (setLength (dL / 2 ^ level)
                     (prepared old guess (arcLength st)))) = true ->
  converged (step (step (setLength (dL / 2 ^ level)
                           (prepared old guess (arcLength st))))) = true ->
  length coarse.1
  = length (solutionU (step (step (setLength (dL / 2 ^ level)
                                     (prepared old guess (arcLength st)))))) ->
  exists st', refineTask Force dL (level, rl, p) st = Ok st'.
Proof.
  intros Hlevel Hlen Herrs Hne Hsrc Hold Hguess Htgt Hat Hcmp Hcoarse Hrow Hp
    Hc1 Hc2 Hsz.
  unfold refineTask. cbv zeta.
  rewrite ensureLevels_kept by (simpl; lia).
  destruct st as [sols pts q errs a].
  cbn [solutions points refIdx errors arcLength] in *.
  unfold subscript at 1. state_cbn. rewrite Hsrc. state_cbn.
  unfold at_ at 1. rewrite Hold. state_cbn.
  unfold push_solution, subscript at 1. state_cbn.
  rewrite Htgt. state_cbn.
  unfold subscript at 1.
  rewrite list_lookup_insert_ne by congruence. rewrite Hsrc. state_cbn.
  unfold at_ at 1. rewrite Hguess. state_cbn.
  fold (prepared old guess a).
  set (a0 := setLength (dL / 2 ^ level) (prepared old guess a)) in *.
  unfold stepAndRecord at 1, stepAndStore at 1.
  cbv zeta. state_cbn. rewrite Hc1.
  unfold push_solution, subscript at 1. state_cbn.
  rewrite list_lookup_insert_eq by lia. state_cbn.
  rewrite list_insert_insert_eq.
  unfold subscript at 1.
  rewrite list_lookup_insert_eq by lia. state_cbn.
  unfold at_ at 1. rewrite length_insert.
  destruct (lookup_lt_is_Some_2
              ((lv ++ [old]) ++ [(solutionU (step a0), solutionL (step a0))])
              (length sols - 1)) as [x1 Hx1].
  { rewrite !length_app. simpl. lia. }
  rewrite Hx1. state_cbn.
  unfold stepAndRecord at 1, stepAndStore at 1.
  cbv zeta. state_cbn. rewrite Hc2.
  unfold push_solution, subscript at 1. state_cbn.
  rewrite list_lookup_insert_eq by lia. state_cbn.
  rewrite list_insert_insert_eq.
  unfold subscript at 1.
  rewrite list_lookup_insert_eq by lia. state_cbn.
  unfold at_ at 1. rewrite length_insert.
  destruct (lookup_lt_is_Some_2
              (((lv ++ [old]) ++ [(solutionU (step a0), solutionL (step a0))])
               ++ [(solutionU (step (step a0)), solutionL (step (step a0)))])
              (length sols - 1)) as [x2 Hx2].
  { rewrite !length_app. simpl. lia. }
  rewrite Hx2. state_cbn.
  unfold subscript at 1.
  rewrite list_lookup_insert_ne by lia. rewrite Hcmp. state_cbn.
  unfold at_ at 1. rewrite Hcoarse. state_cbn.
  unfold storeError. state_cbn. unfold errorEstimate.
  destruct (vsub_same_size _ _ Hsz) as (d & -> & _).
  unfold subscript at 1. state_cbn. rewrite Hrow. state_cbn.
  unfold at_ at 1.
  destruct (lookup_lt_is_Some_2 row p Hp) as [e0 He0]. rewrite He0.
  state_cbn.
  unfold subscript at 1. state_cbn.
  rewrite list_lookup_insert_eq by (apply lookup_lt_is_Some; eauto).
  state_cbn.
  unfold at_ at 1. rewrite list_lookup_insert_eq by exact Hp. state_cbn.
  destruct (Rgt_dec _ ptol); eauto.
Qed.

End FirstTask.

Section FirstTaskOutcome.

Context {AL : Type} `{ArcLengthIterator AL}.

(** X26: for the first task (level, reflevel, pindex) of the queue that
    the uniform phase leaves, with two converging steps and state vectors
    of one size: the task finishes exactly when [level < maxLevel] and
    [2 * maxLevel < step * 2^(level+1) + 3].  The second condition comes
    from line 530, which asks level [level+1], of [step * 2^(level+1) + 3]
    points by then, for the point with index [solutions.size()-1], which
    is [2 * maxLevel]. *)
Theorem first_task_finishes_iff (Force : gsVector) (dL : R)
    (step0 maxLevel : nat) (al : AL) (stb : @state AL)
    (level reflevel pindex : nat) (q : list task) (old guess : point) :
  build Force dL step0 maxLevel al = Ok stb ->
  refIdx stb = (level, reflevel, pindex) :: q ->
  level_points stb reflevel !! pindex = Some old ->
  level_points stb reflevel !! (pindex + 1)%nat = Some guess ->
  converged (step (setLength (dL / 2 ^ level)
                     (prepared old guess (arcLength stb)))) = true ->
  converged (step (step (setLength (dL / 2 ^ level)
                           (prepared old guess (arcLength stb))))) = true ->
  sized (length (solutionU
                   (step (step (setLength (dL / 2 ^ level)
                                  (prepared old guess (arcLength stb)))))))
        (solutions stb) ->
  (exists st', refineTask Force dL (level, reflevel, pindex) stb = Ok st')
  <-> (level < maxLevel)%nat /\
      (2 * maxLevel < step0 * 2 ^ (level + 1) + 3)%nat.
Proof.
  intros Hb Hq Hold Hguess Hc1 Hc2 Hsized.
  assert (In (level, reflevel, pindex) (refIdx stb)) as Hin
    by (rewrite Hq; left; reflexivity).
  destruct (queued_task_source _ _ _ _ _ _ _ _ _ Hb Hin) as (Hl & Hr & Hp).
  pose proof (build_shaped _ _ _ _ _ _ Hb)
    as (Hlen & Hel & Hsizes & Hempty & Hrows & _).
  split.
  - intros [st' Hrun].
    assert ((level < maxLevel)%nat) as Hlt.
    { destruct (le_lt_dec maxLevel level) as [Hge|Hlt]; [|exact Hlt].
      exfalso.
      apply (refineTask_empty_level Force dL level reflevel pindex stb st');
        [lia | apply Hempty; lia | exact Hrun]. }
    split; [exact Hlt|].
    apply refineTask_Ok in Hrun. cbv zeta in Hrun.
    destruct Hrun as (src & old' & lv & src1 & guess' & cmp & coarse & e
                      & row & Hrun).
    destruct Hrun as (_ & _ & Hlv & Hrest).
    assert ((length (solutions
               (ensureLevels level (set_refIdx (tail (refIdx stb)) stb))) - 1
             < length lv + 2)%nat) as Hat by apply Hrest.
    rewrite ensureLevels_kept in Hlv, Hat by (simpl; lia).
    simpl in Hlv, Hat.
    specialize (Hsizes (level + 1)%nat ltac:(lia)).
    unfold level_points in Hsizes. rewrite Hlv in Hsizes. simpl in Hsizes.
    lia.
  - intros [Hlt Hrange].
    assert (forall l, (l <= maxLevel)%nat ->
              solutions stb !! l = Some (level_points stb l)) as Hlookup.
    { intros l Hle. apply level_points_lookup. intros Hnil.
      specialize (Hsizes l ltac:(lia)). rewrite Hnil in Hsizes.
      simpl in Hsizes. lia. }
    assert ((2 ^ reflevel <= 2 ^ level)%nat) as Hpow
      by (apply Nat.pow_le_mono_r; lia).
    rewrite (Hsizes reflevel) in Hp by lia.
    destruct (lookup_lt_is_Some_2 (level_points stb level) (pindex + 1))
      as [coarse Hcoarse].
    { rewrite (Hsizes level) by lia. nia. }
    destruct (Hrows level ltac:(lia)) as (row & Hrow & Hrl).
    apply (refineTask_runs Force dL level reflevel pindex stb
             (level_points stb reflevel) (level_points stb (level + 1))
             (level_points stb level) old guess coarse row);
      try assumption; try lia.
    + apply Hlookup. lia.
    + apply Hlookup. lia.
    + rewrite (Hsizes (level + 1)%nat) by lia. lia.
    + apply Hlookup. lia.
    + nia.
    + apply (Hsized level (level_points stb level) coarse).
      * apply Hlookup. lia.
      * apply list_elem_of_In.
        apply list_elem_of_lookup_2 with (pindex + 1)%nat. exact Hcoarse.
Qed.

End FirstTaskOutcome.

Lemma first_task_finishes_iff_witness :
  (exists st', refineTask [1] (1 / 2) (2, 0, 0)%nat built3 = Ok st')
  <-> (2 < 3)%nat /\ (2 * 3 < 1 * 2 ^ (2 + 1) + 3)%nat.
Proof.
  apply (first_task_finishes_iff [1] (1 / 2) 1 3 script3 built3 2 0 0
           [(2, 1, 1)%nat] ([0], 0) ([0], 1)).
  - exact build3.
  - reflexivity.
  - reflexivity.
  - reflexivity.
  - reflexivity.
  - reflexivity.
  - intros l lv pt Hl Hin.
    do 7 (destruct l as [|l];
          [injection Hl as <-; simpl in Hin;
           repeat (destruct Hin as [<-|Hin]; [reflexivity|]);
           destruct Hin|]).
    discriminate Hl.
Defined.
